(** * MoveTree: a verified model of [src/components/moves/MoveTree.js]

    The development follows the source file top to bottom: the regular
    expressions of [extractClockAnnotations], the rules engine the tree is
    written against, the node store with its aliasing, and the tree
    operations.  Theorems come after all definitions. *)

From Stdlib Require Import ZArith QArith Lia List Ascii String.
From Stdlib Require Import DecimalString DecimalNat.
From stdpp Require Import base option list gmap strings.

Open Scope string_scope.
Open Scope list_scope.

#[local] Arguments String.append !_ _ / : simpl nomatch.

(* ===================================================================== *)
(** ** JavaScript regular expressions, as far as the source uses them     *)
(* ===================================================================== *)

Module Regex.

(** The fragment of the pattern language that occurs in the three literals
    of [extractClockAnnotations]. *)
Inductive re : Type :=
| Chr (p : ascii -> bool)          (* a literal or a character class *)
| Seq (a b : re)
| Star (greedy : bool) (a : re)    (* [a*] and [a*?] *)
| Opt (a : re)                     (* [a?] *)
| Group (n : nat) (a : re)         (* capturing parentheses, numbered *)
| Bol                              (* [^] under the [m] flag *)
| Eol.                             (* [$] under the [m] flag *)

Definition Plus (a : re) : re := Seq a (Star true a).

(** A sequence of at least one pattern. *)
Fixpoint seq (r : re) (rs : list re) : re :=
  match rs with
  | [] => r
  | r' :: rs' => Seq r (seq r' rs')
  end.

(** Captures: group number to (start, end), the latest binding first. *)
Definition caps : Type := list (nat * (nat * nat)).

Definition cap (c : caps) (n : nat) : option (nat * nat) :=
  snd <$> List.find (fun e => Nat.eqb (fst e) n) c.

Definition lit (a : ascii) : ascii -> bool := fun b => Ascii.eqb a b.

(** [\s]: white space and line terminators (of the one-byte code units). *)
Definition is_space (a : ascii) : bool :=
  let n := nat_of_ascii a in
  (Nat.eqb n 32 || (Nat.leb 9 n && Nat.leb n 13) || Nat.eqb n 160)%bool.

Definition is_digit (a : ascii) : bool :=
  let n := nat_of_ascii a in (Nat.leb 48 n && Nat.leb n 57)%bool.

Definition is_line_terminator (a : ascii) : bool :=
  let n := nat_of_ascii a in (Nat.eqb n 10 || Nat.eqb n 13)%bool.

Definition none_of (ps : list (ascii -> bool)) : ascii -> bool :=
  fun a => negb (existsb (fun p => p a) ps).

Definition any : ascii -> bool := fun _ => true.

Definition mresult : Type := (nat * caps)%type.

(** The iterations of [a*] and [a*?]: [step] matches [a] once, [k] is the rest
    of the pattern.  An iteration that consumes nothing is rejected, as in
    the language definition, so the length of the input bounds their
    number. *)
Definition star_loop
    (step : nat -> caps -> (nat -> caps -> option mresult) -> option mresult)
    (greedy : bool) (k : nat -> caps -> option mresult)
    : nat -> nat -> caps -> option mresult :=
  fix iter (fuel i : nat) (c : caps) {struct fuel} : option mresult :=
    match fuel with
    | 0 => k i c
    | S fuel' =>
        if greedy then
          match step i c (fun j c' => if Nat.eqb j i then None else iter fuel' j c') with
          | Some x => Some x
          | None => k i c
          end
        else
          match k i c with
          | Some x => Some x
          | None => step i c (fun j c' => if Nat.eqb j i then None else iter fuel' j c')
          end
    end.

(** The backtracking matcher in continuation-passing style: [k] is the rest
    of the pattern. *)
Fixpoint run (s : list ascii) (r : re) (i : nat) (c : caps)
         (k : nat -> caps -> option mresult) {struct r} : option mresult :=
  match r with
  | Chr p =>
      match s !! i with
      | Some a => if p a then k (S i) c else None
      | None => None
      end
  | Seq a b => run s a i c (fun j c' => run s b j c' k)
  | Star g a => star_loop (run s a) g k (S (length s)) i c
  | Opt a =>
      match run s a i c (fun j c' => if Nat.eqb j i then None else k j c') with
      | Some x => Some x
      | None => k i c
      end
  | Group n a => run s a i c (fun j c' => k j ((n, (i, j)) :: c'))
  | Bol =>
      match i with
      | 0 => k i c
      | S i' =>
          match s !! i' with
          | Some a => if is_line_terminator a then k i c else None
          | None => None
          end
      end
  | Eol =>
      match s !! i with
      | Some a => if is_line_terminator a then k i c else None
      | None => if Nat.eqb i (length s) then k i c else None
      end
  end.

(** One match: where it starts, where it ends, what it captured. *)
Record rmatch : Type := { index : nat; mend : nat; groups : caps }.

Fixpoint search (s : list ascii) (r : re) (fuel start : nat) : option rmatch :=
  match fuel with
  | 0 => None
  | S fuel' =>
      match run s r start [] (fun j c => Some (j, c)) with
      | Some (j, c) => Some {| index := start; mend := j; groups := c |}
      | None => search s r fuel' (S start)
      end
  end.

(** [re.exec(s)] with [re.lastIndex = lastIndex] on a [g] pattern. *)
Definition exec (s : list ascii) (r : re) (lastIndex : nat) : option rmatch :=
  search s r (S (length s) - lastIndex) lastIndex.

Definition slice (s : list ascii) (from to : nat) : list ascii :=
  take (to - from) (drop from s).

Definition whole (s : list ascii) (m : rmatch) : list ascii :=
  slice s (index m) (mend m).

(** [m[n]]: [None] is [undefined], a group that took no part. *)
Definition group (s : list ascii) (m : rmatch) (n : nat) : option (list ascii) :=
  (fun '(a, b) => slice s a b) <$> cap (groups m) n.

(** [[...s.matchAll(re)]]: after an empty match the scan moves on by one. *)
Fixpoint matchAll_from (s : list ascii) (r : re) (fuel lastIndex : nat) : list rmatch :=
  match fuel with
  | 0 => []
  | S fuel' =>
      match exec s r lastIndex with
      | None => []
      | Some m =>
          m :: matchAll_from s r fuel'
                 (if Nat.eqb (mend m) (index m) then S (mend m) else mend m)
      end
  end.

Definition matchAll (s : list ascii) (r : re) : list rmatch :=
  matchAll_from s r (S (S (length s))) 0.

(** [s.replace(re, '')] for a [g] pattern: every match is cut out. *)
Fixpoint cut (s : list ascii) (ms : list rmatch) (pos : nat) : list ascii :=
  match ms with
  | [] => drop pos s
  | m :: ms' => slice s pos (index m) ++ cut s ms' (mend m)
  end.

Definition replace_empty (s : list ascii) (r : re) : list ascii :=
  cut s (matchAll s r) 0.

Fixpoint trim_start (s : list ascii) : list ascii :=
  match s with
  | a :: s' => if is_space a then trim_start s' else s
  | [] => []
  end.

Definition trim (s : list ascii) : list ascii :=
  rev (trim_start (rev (trim_start s))).

Fixpoint starts_with (p s : list ascii) : bool :=
  match p, s with
  | [], _ => true
  | a :: p', b :: s' => (Ascii.eqb a b && starts_with p' s')%bool
  | _ :: _, [] => false
  end.

Fixpoint indexOf_from (p s : list ascii) (i : nat) : Z :=
  if starts_with p s then Z.of_nat i
  else match s with
       | [] => (-1)%Z
       | _ :: s' => indexOf_from p s' (S i)
       end.

(** [s.indexOf(p)], -1 when [p] does not occur. *)
Definition indexOf (s p : list ascii) : Z := indexOf_from p s 0.

End Regex.

(* ===================================================================== *)
(** ** extractClockAnnotations                                            *)
(* ===================================================================== *)

Import Regex.

(** [/^\[[\s\S]*?\]\s*$/gm] *)
Definition headerRegex : re :=
  seq Bol [Chr (lit "["); Star false (Chr any); Chr (lit "]");
       Star true (Chr is_space); Eol].

(** [/\{[^}]*\[%clk\s+([^\]]+)\][^}]*\}/g] *)
Definition clockRegex : re :=
  seq (Chr (lit "{")) [Star true (Chr (none_of [lit "}"]));
       Chr (lit "["); Chr (lit "%"); Chr (lit "c"); Chr (lit "l"); Chr (lit "k");
       Plus (Chr is_space);
       Group 1 (Plus (Chr (none_of [lit "]"])));
       Chr (lit "]"); Star true (Chr (none_of [lit "}"])); Chr (lit "}")].

(** [(?:\s+\{[^}]*\})?] *)
Definition commentOpt : re :=
  Opt (seq (Plus (Chr is_space))
         [Chr (lit "{"); Star true (Chr (none_of [lit "}"])); Chr (lit "}")]).

(** [/\d+\.\s*([^\s{]+)(?:\s+\{[^}]*\})?\s*([^\s{]+)?(?:\s+\{[^}]*\})?/g] *)
Definition moveRegex : re :=
  seq (Plus (Chr is_digit))
      [Chr (lit "."); Star true (Chr is_space);
       Group 1 (Plus (Chr (none_of [is_space; lit "{"])));
       commentOpt;
       Star true (Chr is_space);
       Opt (Group 2 (Plus (Chr (none_of [is_space; lit "{"]))));
       commentOpt].

(** One entry of the array the function returns. *)
Module ClockInfo.
Record t : Type := {
  moveIndex : nat;
  color : string;      (* 'white' or 'black' *)
  clock : string
}.
End ClockInfo.
Abbreviation ClockInfo := ClockInfo.t.

(** A JavaScript array that may have holes. *)
Definition jsarray (A : Type) : Type := list (option A).

(** [arr[i] = x]: writing past the end extends the array with holes. *)
Fixpoint array_set {A : Type} (arr : jsarray A) (i : nat) (x : A) : jsarray A :=
  match i, arr with
  | 0, [] => [Some x]
  | 0, _ :: t => Some x :: t
  | S i', [] => None :: array_set [] i' x
  | S i', h :: t => h :: array_set t i' x
  end.

(** The inner [for] loop: the first [i >= clockIndex] whose match starts
    after [pos]. *)
Fixpoint first_after (ms : list rmatch) (i : nat) (pos : Z) : option (nat * rmatch) :=
  match ms with
  | [] => None
  | m :: ms' =>
      if (pos <? Z.of_nat (index m))%Z then Some (i, m)
      else first_after ms' (S i) pos
  end.

(** The body shared by the white and the black branch of the loop. *)
Definition attach (text : list ascii) (clockMatches : list rmatch)
    (m : rmatch) (mv : list ascii) (side : string)
    (acc : jsarray ClockInfo * nat * nat) : jsarray ClockInfo * nat * nat :=
  let '(clockData, mvIndex, clockIndex) := acc in
  let movePos := (Z.of_nat (index m) + indexOf (whole text m) mv)%Z in
  match clockMatches !! clockIndex with
  | Some nextClockMatch =>
      if (movePos <? Z.of_nat (index nextClockMatch))%Z then
        match first_after (drop clockIndex clockMatches) clockIndex movePos with
        | Some (i, cm) =>
            let value := trim (default [] (group text cm 1)) in
            (array_set clockData mvIndex
               {| ClockInfo.moveIndex := mvIndex; ClockInfo.color := side;
                  ClockInfo.clock := string_of_list_ascii value |},
             S mvIndex, S i)
        | None => (clockData, S mvIndex, clockIndex)
        end
      else (clockData, S mvIndex, clockIndex)
  | None => (clockData, S mvIndex, clockIndex)
  end.

(** A captured group is used when it is truthy: defined and not empty. *)
Definition truthy_group (g : option (list ascii)) : option (list ascii) :=
  match g with
  | Some (a :: l) => Some (a :: l)
  | _ => None
  end.

(** The [while ((match = moveRegex.exec(moveText)) !== null)] loop.  A match
    that does not move [lastIndex] forward would repeat for ever: [None]. *)
Fixpoint move_loop (text : list ascii) (clockMatches : list rmatch)
    (fuel lastIndex : nat) (acc : jsarray ClockInfo * nat * nat)
    : option (jsarray ClockInfo) :=
  match exec text moveRegex lastIndex with
  | None => Some (fst (fst acc))
  | Some m =>
      match fuel with
      | 0 => None
      | S fuel' =>
          let acc1 :=
            match truthy_group (group text m 1) with
            | Some whiteMove => attach text clockMatches m whiteMove "white" acc
            | None => acc
            end in
          let acc2 :=
            match truthy_group (group text m 2) with
            | Some blackMove => attach text clockMatches m blackMove "black" acc1
            | None => acc1
            end in
          if Nat.leb (mend m) lastIndex then None
          else move_loop text clockMatches fuel' (mend m) acc2
      end
  end.

Definition moveTextOf (pgn : string) : list ascii :=
  trim (replace_empty (list_ascii_of_string pgn) headerRegex).

Definition clockMatchesOf (pgn : string) : list rmatch :=
  matchAll (moveTextOf pgn) clockRegex.

Definition extractClockAnnotations (pgn : string) : option (jsarray ClockInfo) :=
  let moveText := moveTextOf pgn in
  let clockMatches := matchAll moveText clockRegex in
  if Nat.eqb (length clockMatches) 0 then Some []
  else move_loop moveText clockMatches (length moveText) 0 ([], 0, 0).

Definition pgn_example : string :=
  "1. e4 {[%clk 0:05:00]} e5 {[%clk 0:04:58]} 2. Nf3".

(** The same move text below two header lines. *)
Definition pgn_example_headed : string :=
  "[Event Blitz]
[Site web]

1. e4 {[%clk 0:05:00]} e5 {[%clk 0:04:58]} 2. Nf3
".


(* ===================================================================== *)
(** ** The rules engine the tree is written against                       *)
(* ===================================================================== *)

(** A structured move, as the engine hands it out and takes it back. *)
Record Move : Type := {
  m_from : string;
  m_to : string;
  m_promotion : option string;
  m_san : string;
  m_lan : string;
  m_color : string
}.

(** The [Chess] class of [libs/chess.js] is an external library and a
    parameter of the development; the fields are the methods the tree calls.
    An instance is a value of [chess]; a call that mutates the instance
    returns the new one, a call that throws returns [None]. *)
Record Engine : Type := {
  chess : Type;
  new_Chess : chess;                                   (* new Chess() *)
  chess_loadPgn : string -> chess -> option chess;      (* loadPgn(pgn) *)
  chess_history : chess -> list Move;                   (* history({verbose: true}) *)
  chess_reset : chess -> chess;                         (* reset() *)
  chess_fen : chess -> string;                          (* fen() *)
  chess_move_lan : string -> chess -> option chess;     (* move(lan) *)
  chess_move : Move -> chess -> option chess;           (* move(moveObject) *)
  chess_load : option string -> chess -> option chess;  (* load(fen) *)
  chess_turn : chess -> string;                         (* turn() *)
  chess_moveNumber : chess -> nat                       (* moveNumber() *)
}.

(* ===================================================================== *)
(** ** Nodes, the object store, the tree                                  *)
(* ===================================================================== *)

(** What [updateClassification] receives. *)
Record Line : Type := {
  line_id : Z;
  line_score : Z;
  line_type : option string
}.

Record Evaluated : Type := {
  ev_classification : string;          (* move.classification.type *)
  ev_lines : option (list Line)        (* move.lines *)
}.

(** Node objects live in a store and are named by their address: the same
    object is reachable from [mainline], from [nodeMap] and from the
    [children] array of its parent. *)
Abbreviation ref := nat (only parsing).

Record Node : Type := {
  id : string;
  moveNumber : option Q;
  san : option string;
  move : option Move;
  fen : option string;
  children : list ref;
  isMainline : bool;
  parentIndex : option Z;
  parentId : option string;
  clock : option string;
  classification : option string;
  evaluatedMove : option Evaluated;
  evalScore : option Z;
  evalType : option string
}.

Definition blank : Node :=
  {| id := ""; moveNumber := None; san := None; move := None; fen := None;
     children := []; isMainline := false; parentIndex := None;
     parentId := None; clock := None; classification := None;
     evaluatedMove := None; evalScore := None; evalType := None |}.

#[export] Instance Node_inhabited : Inhabited Node := populate blank.

(** The fields of a [MoveTree] instance, with the store of its node objects.
    ([clockData] is set to an empty map by the constructor and never read or
    written again; it is left out.) *)
Record MoveTree : Type := {
  heap : list Node;
  mainline : list ref;
  nodeMap : gmap string ref;
  currentNode : ref;
  final : option ref;
  idCounter : nat;
  currentIndex : Z
}.

Definition deref (t : MoveTree) (r : ref) : Node := heap t !!! r.

(** How a call ends: it returns a value, it throws, or it never returns.
    The tree is left as it was at that moment. *)
Inductive outcome (A : Type) : Type :=
| Returned (t : MoveTree) (a : A)
| Thrown (t : MoveTree)
| Diverged.
Arguments Returned {A} t a.
Arguments Thrown {A} t.
Arguments Diverged {A}.

(** [constructor()] *)
Definition root0 : Node :=
  {| id := "root"; moveNumber := Some 1%Q; san := None; move := None; fen := None;
     children := []; isMainline := true; parentIndex := None;
     parentId := None; clock := None; classification := None;
     evaluatedMove := None; evalScore := None; evalType := None |}.

Definition constructor : MoveTree :=
  {| heap := [root0]; mainline := [0]; nodeMap := {["root" := 0]};
     currentNode := 0; final := None; idCounter := 0; currentIndex := 0 |}.

(** [san.replace(/[+#]/g, m => m === '+' ? 'check' : 'mate')] *)
Fixpoint sanitize (s : string) : string :=
  match s with
  | EmptyString => ""
  | String a s' =>
      (if Ascii.eqb a "+" then "check"
       else if Ascii.eqb a "#" then "mate"
       else String a "") +:+ sanitize s'
  end.

(** A number inside a template literal. *)
Definition show (n : nat) : string := NilEmpty.string_of_uint (Nat.to_uint n).

Definition side_letter (isWhiteTurn : bool) : string :=
  if isWhiteTurn then "w" else "b".

(** [isWhiteTurn ? moveNumber : moveNumber + 0.5] *)
Definition ply_number (isWhiteTurn : bool) (n : nat) : Q :=
  if isWhiteTurn then inject_Z (Z.of_nat n)
  else (inject_Z (Z.of_nat n) + (1 # 2))%Q.

(** [clockData.find(c => c.moveIndex === index)]: [find] visits holes too, and
    reading [moveIndex] of a hole throws ([None]). *)
Fixpoint find_clock (clockData : jsarray ClockInfo) (index : nat)
    : option (option ClockInfo) :=
  match clockData with
  | [] => Some None
  | None :: _ => None
  | Some c :: rest =>
      if Nat.eqb (ClockInfo.moveIndex c) index then Some (Some c)
      else find_clock rest index
  end.

(** [mainline.push(node); nodeMap.set(node.id, node); final = node] for a
    freshly allocated [node]. *)
Definition push_mainline (t : MoveTree) (node : Node) : MoveTree :=
  let r := length (heap t) in
  {| heap := heap t ++ [node];
     mainline := mainline t ++ [r];
     nodeMap := <[id node := r]> (nodeMap t);
     currentNode := currentNode t;
     final := Some r;
     idCounter := idCounter t;
     currentIndex := currentIndex t |}.

(** [heap[r] = node]: a write to a field of the object at [r]. *)
Definition store (t : MoveTree) (r : ref) (node : Node) : MoveTree :=
  {| heap := <[r := node]> (heap t); mainline := mainline t; nodeMap := nodeMap t;
     currentNode := currentNode t; final := final t; idCounter := idCounter t;
     currentIndex := currentIndex t |}.

Definition with_children (n : Node) (cs : list ref) : Node :=
  {| id := id n; moveNumber := moveNumber n; san := san n; move := move n;
     fen := fen n; children := cs; isMainline := isMainline n;
     parentIndex := parentIndex n; parentId := parentId n; clock := clock n;
     classification := classification n; evaluatedMove := evaluatedMove n;
     evalScore := evalScore n; evalType := evalType n |}.

Definition with_evaluation (n : Node) (c : option string) (e : option Evaluated)
    (sc : option Z) (ty : option string) : Node :=
  {| id := id n; moveNumber := moveNumber n; san := san n; move := move n;
     fen := fen n; children := children n; isMainline := isMainline n;
     parentIndex := parentIndex n; parentId := parentId n; clock := clock n;
     classification := c; evaluatedMove := e; evalScore := sc; evalType := ty |}.

Definition with_idCounter (t : MoveTree) (c : nat) : MoveTree :=
  {| heap := heap t; mainline := mainline t; nodeMap := nodeMap t;
     currentNode := currentNode t; final := final t; idCounter := c;
     currentIndex := currentIndex t |}.

Definition with_cursor (t : MoveTree) (r : ref) (i : Z) : MoveTree :=
  {| heap := heap t; mainline := mainline t; nodeMap := nodeMap t;
     currentNode := r; final := final t; idCounter := idCounter t;
     currentIndex := i |}.

(** A string in a condition: [undefined], [null] and [''] count as false. *)
Definition truthy (s : option string) : option string :=
  match s with
  | Some x => if String.eqb x "" then None else Some x
  | None => None
  end.

(** [updateClassification(nodeId, move)] *)
Definition updateClassification (nodeId : string) (ev : Evaluated) (t : MoveTree)
    : MoveTree :=
  match nodeMap t !! nodeId with
  | None => t
  | Some r =>
      let node := deref t r in
      let topLine :=
        match ev_lines ev with
        | Some lines =>
            if Nat.ltb 0 (length lines)
            then List.find (fun l => Z.eqb (line_id l) 1) lines
            else None
        | None => None
        end in
      store t r
        (with_evaluation node (Some (ev_classification ev)) (Some ev)
           (match topLine with
            | Some l => Some (line_score l)
            | None => evalScore node
            end)
           (match topLine with
            | Some l => Some (default "cp" (truthy (line_type l)))
            | None => evalType node
            end))
  end.

(** [getNodeIndex(node)]: [mainline.findIndex(n => n.id === node.id)] *)
Definition getNodeIndex (t : MoveTree) (node : Node) : Z :=
  match list_find (fun r => id (deref t r) = id node) (mainline t) with
  | Some (i, _) => Z.of_nat i
  | None => (-1)%Z
  end.

(** The test both branches of [findExistingMove] apply to a candidate: it
    carries a move with the same [from], [to] and [promotion]. *)
Definition same_move (mv : Move) (n : Node) : bool :=
  match move n with
  | Some x =>
      bool_decide (m_from x = m_from mv) && bool_decide (m_to x = m_to mv)
      && bool_decide (m_promotion x = m_promotion mv)
  | None => false
  end.

(** The first branch of [findExistingMove]: the node after the parent on the
    mainline, when it carries the same move. *)
Definition mainlineSuccessor (t : MoveTree) (parentNode : Node) (mv : Move)
    : option ref :=
  if isMainline parentNode then
    let parentIndex := getNodeIndex t parentNode in
    if negb (parentIndex =? -1)%Z
       && (parentIndex + 1 <? Z.of_nat (length (mainline t)))%Z then
      match mainline t !! Z.to_nat (parentIndex + 1) with
      | Some nextMove =>
          if same_move mv (deref t nextMove) then Some nextMove else None
      | None => None
      end
    else None
  else None.

(** [findExistingMove(parentNode, move)] *)
Definition findExistingMove (t : MoveTree) (parentNode : Node) (mv : Move)
    : option ref :=
  match mainlineSuccessor t parentNode mv with
  | Some r => Some r
  | None =>
      snd <$> list_find (fun child => same_move mv (deref t child) = true)
                        (children parentNode)
  end.

(** [navigateTo(nodeId)] *)
Definition navigateTo (nodeId : string) (t : MoveTree) : MoveTree * option ref :=
  match nodeMap t !! nodeId with
  | Some r =>
      let nodeIndex := getNodeIndex t (deref t r) in
      (with_cursor t r
         (if (nodeIndex =? -1)%Z then currentIndex t else nodeIndex),
       Some r)
  | None => (t, None)
  end.

(** [getNextMove()].  [currentNode] always holds a node object here, so the
    guard on a missing cursor never fires. *)
Definition getNextMove (t : MoveTree) : option ref :=
  let cur := deref t (currentNode t) in
  let currentIndex := getNodeIndex t cur in
  if negb (currentIndex =? -1)%Z
     && (currentIndex <? Z.of_nat (length (mainline t)) - 1)%Z
  then mainline t !! Z.to_nat (currentIndex + 1)
  else head (children cur).

(** [getPreviousMove()] *)
Definition getPreviousMove (t : MoveTree) : option ref :=
  if bool_decide (mainline t !! 0 = Some (currentNode t)) then None
  else
    let cur := deref t (currentNode t) in
    let currentIndex := getNodeIndex t cur in
    if (0 <? currentIndex)%Z then mainline t !! Z.to_nat (currentIndex - 1)
    else match truthy (parentId cur) with
         | Some pid => nodeMap t !! pid
         | None => None
         end.

(** The [while (current && current !== this.mainline[0])] loop of
    [getPathToNode].  A walk that is longer than the store has objects has
    entered a cycle and goes on for ever: [None]. *)
Fixpoint path_loop (t : MoveTree) (fuel : nat) (current : option ref)
    (path : list ref) : option (list ref) :=
  match current with
  | None => Some path
  | Some c =>
      if bool_decide (mainline t !! 0 = Some c) then Some path
      else match fuel with
           | 0 => None
           | S fuel' =>
               path_loop t fuel'
                 (match truthy (parentId (deref t c)) with
                  | Some pid => nodeMap t !! pid
                  | None => None
                  end)
                 (c :: path)
           end
  end.

(** [getPathToNode(nodeId)] *)
Definition getPathToNode (nodeId : string) (t : MoveTree) : option (list ref) :=
  match nodeMap t !! nodeId with
  | None => Some []
  | Some r =>
      let nodeIndex := getNodeIndex t (deref t r) in
      if negb (nodeIndex =? -1)%Z then
        Some (take (Z.to_nat (nodeIndex + 1) - 1) (drop 1 (mainline t)))
      else path_loop t (length (heap t)) (Some r) []
  end.

(** [getFinalMove()] *)
Definition getFinalMove (t : MoveTree) : option ref := final t.

(** [node.move && node.san] *)
Definition carries_move (n : Node) : bool :=
  match move n, truthy (san n) with
  | Some _, Some _ => true
  | _, _ => false
  end.

(** [getMovesToNode(nodeId)]: the [{san, move}] pairs along the path. *)
Definition getMovesToNode (nodeId : string) (t : MoveTree)
    : option (list (option string * option Move)) :=
  match getPathToNode nodeId t with
  | Some path =>
      Some (List.map (fun n => (san n, move n))
              (List.filter carries_move (List.map (deref t) path)))
  | None => None
  end.

(** [mainline = [root]; nodeMap = new Map().set('root', root); currentNode =
    root; currentIndex = 0] for a freshly allocated [root]. *)
Definition reset_tree (t : MoveTree) (root : Node) : MoveTree :=
  let r := length (heap t) in
  {| heap := heap t ++ [root];
     mainline := [r];
     nodeMap := {["root" := r]};
     currentNode := r;
     final := final t;
     idCounter := idCounter t;
     currentIndex := 0 |}.

(** [parent.children.push(node); nodeMap.set(node.id, node)] for a freshly
    allocated [node] and the parent object at [pr]. *)
Definition push_variation (t : MoveTree) (pr : ref) (node : Node) : MoveTree :=
  let r := length (heap t) in
  let parent := deref t pr in
  {| heap := <[pr := with_children parent (children parent ++ [r])]> (heap t) ++ [node];
     mainline := mainline t;
     nodeMap := <[id node := r]> (nodeMap t);
     currentNode := currentNode t;
     final := final t;
     idCounter := idCounter t;
     currentIndex := currentIndex t |}.

(** The root object [buildFromPGN] allocates. *)
Definition build_root (fen0 : string) : Node :=
  {| id := "root"; moveNumber := None; san := None; move := None;
     fen := Some fen0; children := []; isMainline := true;
     parentIndex := None; parentId := None; clock := None;
     classification := None; evaluatedMove := None;
     evalScore := None; evalType := None |}.

Section WithEngine.

Variable E : Engine.

(** The [for (const [index, move] of history.entries())] loop of
    [buildFromPGN]. *)
Fixpoint build_loop (clockData : jsarray ClockInfo) (history : list Move)
    (index : nat) (ch : chess E) (moveNo : nat) (isWhiteTurn : bool)
    (t : MoveTree) : outcome unit :=
  match history with
  | [] => Returned t tt
  | mv :: rest =>
      let nodeId :=
        "move_" +:+ show moveNo +:+ "_" +:+ side_letter isWhiteTurn +:+ "_"
                +:+ sanitize (m_san mv) in
      match find_clock clockData index with
      | None => Thrown t
      | Some clockInfo =>
          match chess_move_lan E (m_lan mv) ch with
          | None => Thrown t
          | Some ch' =>
              let node :=
                {| id := nodeId;
                   moveNumber := Some (ply_number isWhiteTurn moveNo);
                   san := Some (m_san mv);
                   move := Some mv;
                   fen := Some (chess_fen E ch');
                   children := [];
                   isMainline := true;
                   parentIndex := Some (Z.of_nat (length (mainline t)) - 1)%Z;
                   parentId := None;
                   clock := ClockInfo.clock <$> clockInfo;
                   classification := None; evaluatedMove := None;
                   evalScore := None; evalType := None |} in
              build_loop clockData rest (S index) ch'
                (if isWhiteTurn then moveNo else S moveNo)
                (negb isWhiteTurn)
                (push_mainline t node)
          end
      end
  end.

(** [buildFromPGN(pgn, chess)]; [chess] is [None] when the caller passes
    nothing. *)
Definition buildFromPGN (pgn : string) (chessArg : option (chess E))
    (t : MoveTree) : outcome (list Move) :=
  let chessInstance := default (new_Chess E) chessArg in
  match extractClockAnnotations pgn with
  | None => Diverged
  | Some clockData =>
      match chess_loadPgn E pgn chessInstance with
      | None => Thrown t
      | Some loaded =>
          let history := chess_history E loaded in
          let ch0 := chess_reset E loaded in
          let root := build_root (chess_fen E ch0) in
          let t1 := reset_tree t root in
          match build_loop clockData history 0 ch0 1 true t1 with
          | Returned t2 _ =>
              Returned
                (with_cursor t2 (default (currentNode t2) (mainline t2 !! 0))
                   (currentIndex t2))
                history
          | Thrown t2 => Thrown t2
          | Diverged => Diverged
          end
      end
  end.

(** [addMove(move, parentId)] *)
Definition addMove (mv : Move) (parentId : string) (t : MoveTree)
    : outcome (option ref) :=
  let chess0 := new_Chess E in
  match nodeMap t !! parentId with
  | None => Returned t None
  | Some pr =>
      let parent := deref t pr in
      match findExistingMove t parent mv with
      | Some existingNode => Returned t (Some existingNode)
      | None =>
          let originalFen := chess_fen E chess0 in
          match chess_load E (fen parent) chess0 with
          | None => Thrown t
          | Some ch1 =>
              let isWhiteTurn := String.eqb (chess_turn E ch1) "w" in
              let moveNo := chess_moveNumber E ch1 in
              let parentIndex := getNodeIndex t parent in
              let isMain :=
                isMainline parent
                && (parentIndex =? Z.of_nat (length (mainline t)) - 1)%Z in
              let counter := S (idCounter t) in
              let nodeId0 :=
                (if isMain then "move" else "var") +:+ "_" +:+ show moveNo +:+ "_"
                +:+ side_letter isWhiteTurn +:+ "_" +:+ sanitize (m_san mv)
                +:+ (if isMain then "" else "_" +:+ show counter) in
              let nodeId :=
                if isMain && bool_decide (is_Some (nodeMap t !! nodeId0))
                then nodeId0 +:+ "_" +:+ show counter
                else nodeId0 in
              let t1 := with_idCounter t counter in
              match chess_move E mv ch1 with
              | None => Thrown t1
              | Some ch2 =>
                  let node :=
                    {| id := nodeId;
                       moveNumber := Some (ply_number isWhiteTurn moveNo);
                       san := Some (m_san mv);
                       move := Some mv;
                       fen := Some (chess_fen E ch2);
                       children := [];
                       isMainline := isMain;
                       parentIndex := if isMain then Some parentIndex else None;
                       parentId := Some parentId;
                       clock := None; classification := None;
                       evaluatedMove := None; evalScore := None;
                       evalType := None |} in
                  let r := length (heap t) in
                  let t2 :=
                    if isMain then push_mainline t1 node
                    else push_variation t1 pr node in
                  match chess_load E (Some originalFen) ch2 with
                  | None => Thrown t2
                  | Some _ => Returned t2 (Some r)
                  end
              end
          end
      end
  end.

End WithEngine.

(* ===================================================================== *)
(** ** A small rules engine for the examples                              *)
(* ===================================================================== *)

(** Modelled from the spec: the rules engine of [libs/chess.js] (the GameState
    capability of section 6) is replaced in the examples by a small engine.
    Moves are spelled by their squares (["e2e4"]), a position is the list of
    the moves that led to it, and every move of the side to move is
    accepted. *)
Module Toy.

Record pos : Type := {
  base : list string;      (* the moves behind a loaded position *)
  played : list Move       (* the moves made on this instance since *)
}.

Definition line (p : pos) : list string := base p ++ List.map m_lan (played p).

Definition fen (p : pos) : string := String.concat " " ("startpos" :: line p).

Fixpoint split_sp (s cur : string) : list string :=
  match s with
  | EmptyString => [cur]
  | String a s' =>
      if Ascii.eqb a " " then cur :: split_sp s' ""
      else split_sp s' (cur +:+ String a "")
  end.

Definition turn (p : pos) : string :=
  if Nat.even (length (line p)) then "w" else "b".

Definition moveNumber (p : pos) : nat := S (length (line p) / 2).

Definition mk_move (lan col : string) : Move :=
  {| m_from := substring 0 2 lan; m_to := substring 2 2 lan;
     m_promotion := None; m_san := lan; m_lan := lan; m_color := col |}.

Definition push (p : pos) (mv : Move) : pos :=
  {| base := base p; played := played p ++ [mv] |}.

Definition move_lan (lan : string) (p : pos) : option pos :=
  if Nat.leb 4 (String.length lan) then Some (push p (mk_move lan (turn p)))
  else None.

Definition move (mv : Move) (p : pos) : option pos :=
  if String.eqb (m_color mv) (turn p) then Some (push p mv) else None.

Definition load (f : option string) (_ : pos) : option pos :=
  match f with
  | Some s =>
      match split_sp s "" with
      | tag :: ls =>
          if String.eqb tag "startpos" then Some {| base := ls; played := [] |}
          else None
      | [] => None
      end
  | None => None
  end.

Definition start : pos := {| base := []; played := [] |}.

Definition ends_with_dot (s : string) : bool :=
  match rev (list_ascii_of_string s) with
  | a :: _ => Ascii.eqb a "."
  | [] => true
  end.

Fixpoint replay (toks : list string) (p : pos) : option pos :=
  match toks with
  | [] => Some p
  | tk :: toks' =>
      if ends_with_dot tk then replay toks' p
      else match move_lan tk p with
           | Some p' => replay toks' p'
           | None => None
           end
  end.

Definition loadPgn (pgn : string) (_ : pos) : option pos :=
  replay (split_sp pgn "") start.

Definition engine : Engine :=
  {| chess := pos;
     new_Chess := start;
     chess_loadPgn := loadPgn;
     chess_history := played;
     chess_reset := fun _ => start;
     chess_fen := fen;
     chess_move_lan := move_lan;
     chess_move := move;
     chess_load := load;
     chess_turn := turn;
     chess_moveNumber := moveNumber |}.

End Toy.

Definition tree_of {A : Type} (dflt : MoveTree) (o : outcome A) : MoveTree :=
  match o with
  | Returned t _ => t
  | Thrown t => t
  | Diverged => dflt
  end.

(** A game of three plies, and a side line from the second. *)
Definition game3 : MoveTree :=
  tree_of constructor (buildFromPGN Toy.engine "1. e2e4 e7e5 2. g1f3" None constructor).

Definition game3_var : MoveTree :=
  tree_of game3 (addMove Toy.engine (Toy.mk_move "b1c3" "w") "move_1_b_e7e5" game3).


(** Where the tree stands after a call; a call that never returns leaves no
    tree to look at. *)
Definition outcome_tree {A : Type} (o : outcome A) : option MoveTree :=
  match o with
  | Returned t _ => Some t
  | Thrown t => Some t
  | Diverged => None
  end.

Section Replay.

Variable E : Engine.

(** Playing a list of moves, given by their long algebraic spelling, on an
    engine instance. *)
Fixpoint replay_lans (lans : list string) (ch : chess E) : option (chess E) :=
  match lans with
  | [] => Some ch
  | l :: lans' =>
      match chess_move_lan E l ch with
      | Some ch' => replay_lans lans' ch'
      | None => None
      end
  end.

(** Playing the result of [getMovesToNode] on an engine instance. *)
Fixpoint replay_moves (ms : list (option string * option Move)) (ch : chess E)
    : option (chess E) :=
  match ms with
  | [] => Some ch
  | (_, Some mv) :: ms' =>
      match chess_move E mv ch with
      | Some ch' => replay_moves ms' ch'
      | None => None
      end
  | (_, None) :: _ => None
  end.

(** The trees a program can hold: a new tree, and what the methods that
    write to it leave behind, whether they return or throw.  [ok] limits
    the moves that are handed to the tree. *)
Inductive reachable (ok : Move -> Prop) : MoveTree -> Prop :=
| reach_new : reachable ok constructor
| reach_build t pgn ch t' :
    reachable ok t ->
    (forall loaded,
        chess_loadPgn E pgn (default (new_Chess E) ch) = Some loaded ->
        Forall ok (chess_history E loaded)) ->
    outcome_tree (buildFromPGN E pgn ch t) = Some t' ->
    reachable ok t'
| reach_add t mv p t' :
    reachable ok t ->
    ok mv ->
    outcome_tree (addMove E mv p t) = Some t' ->
    reachable ok t'
| reach_nav t k :
    reachable ok t -> reachable ok (fst (navigateTo k t))
| reach_upd t k ev :
    reachable ok t -> reachable ok (updateClassification k ev t).

End Replay.

Definition any_move : Move -> Prop := fun _ => True.

(* ===================================================================== *)
(** ** Node ids as strings                                                *)
(* ===================================================================== *)

(** The number of underscores in a string. *)
Fixpoint count_us (s : string) : nat :=
  match s with
  | EmptyString => 0
  | String a s' => (if Ascii.eqb a "_" then 1 else 0) + count_us s'
  end.

(** What follows the last underscore (the whole string if there is none). *)
Fixpoint last_seg (s : string) : string :=
  match s with
  | EmptyString => ""
  | String a s' =>
      if Nat.eqb (count_us s') 0
      then (if Ascii.eqb a "_" then s' else s)
      else last_seg s'
  end.

(** Ids of variations start with the letter v. *)
Definition var_key (k : string) : Prop :=
  match k with
  | String a _ => a = "v"%char
  | EmptyString => False
  end.

(** Standard algebraic notation has no underscore. *)
Definition san_ok (mv : Move) : Prop := count_us (m_san mv) = 0.

(** The id [buildFromPGN] gives to a ply. *)
Definition build_id (moveNo : nat) (isWhiteTurn : bool) (s : string) : string :=
  "move_" +:+ show moveNo +:+ "_" +:+ side_letter isWhiteTurn +:+ "_" +:+ sanitize s.

(** Move number and side of the ply with index [p], counted from 0. *)
Definition moveNo_of (p : nat) : nat := S (p / 2).
Definition white_of (p : nat) : bool := Nat.even p.

(* ===================================================================== *)
(** ** Invariants of the tree                                             *)
(* ===================================================================== *)

Definition ids (t : MoveTree) : list string :=
  (fun r => id (deref t r)) <$> mainline t.

(** References point into the store, the id index is consistent with the
    ids the nodes carry, the tip of the mainline is indexed under its own
    id, and the counter has passed every suffix of a variation id. *)
Record wf (t : MoveTree) : Prop := {
  wf_main_ne : mainline t <> [];
  wf_main : forall r, r ∈ mainline t -> r < length (heap t);
  wf_map : forall k r, nodeMap t !! k = Some r ->
                       r < length (heap t) /\ id (deref t r) = k;
  wf_children : forall r c, r < length (heap t) -> c ∈ children (deref t r) ->
                            c < length (heap t);
  wf_cursor : currentNode t < length (heap t);
  wf_last : forall r, last (mainline t) = Some r ->
                      nodeMap t !! id (deref t r) = Some r;
  wf_var : forall k, is_Some (nodeMap t !! k) -> var_key k ->
                     exists j, j <= idCounter t /\ last_seg k = show j
}.

(** With moves in standard notation, ids on the mainline are pairwise
    different and every mainline node is indexed under its own id. *)
Record wf_ids (t : MoveTree) : Prop := {
  ids_nodup : NoDup (ids t);
  ids_reg : forall r, r ∈ mainline t -> nodeMap t !! id (deref t r) = Some r;
  ids_keys : forall k, is_Some (nodeMap t !! k) -> count_us k = 4 ->
                       exists j, j <= idCounter t /\ last_seg k = show j
}.

(** During [buildFromPGN], before the ply with index [p] is added: the keys
    of the id index are ['root'] and the ids of the plies before [p]. *)
Definition built_keys (p : nat) (t : MoveTree) : Prop :=
  forall k, is_Some (nodeMap t !! k) ->
    k = "root"
    \/ exists q s, q < p /\ count_us s = 0
                   /\ k = build_id (moveNo_of q) (white_of q) s.

(** The mainline while the loop runs: [p] plies behind the root, the ply at
    index [k] numbered [(k + 1) / 2]. *)
Definition numbered (p : nat) (t : MoveTree) : Prop :=
  length (mainline t) = S p
  /\ forall k r, 1 <= k -> mainline t !! k = Some r ->
       r < length (heap t)
       /\ exists q, moveNumber (deref t r) = Some q
                    /\ (q == Z.of_nat (k + 1) # 2)%Q.

(** The root while the loop runs. *)
Definition rooted (r0 : ref) (root : Node) (p : nat) (t : MoveTree) : Prop :=
  mainline t !! 0 = Some r0 /\ currentIndex t = 0%Z
  /\ r0 < length (heap t) /\ deref t r0 = root.

(** The long algebraic spellings of the moves [getMovesToNode] returns. *)
Definition moves_lans (ms : list (option string * option Move)) : list string :=
  omap (fun x => m_lan <$> snd x) ms.

(** The node at [r] is the node of the move [mv]. *)
Definition node_of_move (t : MoveTree) (r : nat) (mv : Move) : Prop :=
  move (deref t r) = Some mv /\ san (deref t r) = Some (m_san mv).

(** The position of a key in a list of keys, -1 when it is absent. *)
Definition key_index (k : string) (ks : list string) : Z :=
  match list_find (fun x => x = k) ks with
  | Some (i, _) => Z.of_nat i
  | None => (-1)%Z
  end.

(** The ids [addMove] can give to a new node. *)
Definition main_id (moveNo : nat) (isWhiteTurn : bool) (s : string) : string :=
  "move" +:+ "_" +:+ show moveNo +:+ "_" +:+ side_letter isWhiteTurn +:+ "_"
  +:+ sanitize s +:+ "".

Definition var_id (moveNo : nat) (isWhiteTurn : bool) (s : string) (counter : nat)
    : string :=
  "var" +:+ "_" +:+ show moveNo +:+ "_" +:+ side_letter isWhiteTurn +:+ "_"
  +:+ sanitize s +:+ "_" +:+ show counter.

(** The ways a call of [addMove] can go, one constructor for each path
    through the method. *)
Inductive add_result (t : MoveTree) (mv : Move) (p : string)
    : outcome (option ref) -> Prop :=
| add_unknown :
    nodeMap t !! p = None ->
    add_result t mv p (Returned t None)
| add_existing pr r :
    nodeMap t !! p = Some pr ->
    findExistingMove t (deref t pr) mv = Some r ->
    add_result t mv p (Returned t (Some r))
| add_throw_load pr :
    nodeMap t !! p = Some pr ->
    findExistingMove t (deref t pr) mv = None ->
    add_result t mv p (Thrown t)
| add_throw_move pr :
    nodeMap t !! p = Some pr ->
    findExistingMove t (deref t pr) mv = None ->
    add_result t mv p (Thrown (with_idCounter t (S (idCounter t))))
| add_main pr node moveNo w o :
    nodeMap t !! p = Some pr ->
    findExistingMove t (deref t pr) mv = None ->
    isMainline (deref t pr) = true ->
    getNodeIndex t (deref t pr) = (Z.of_nat (length (mainline t)) - 1)%Z ->
    children node = [] -> move node = Some mv -> isMainline node = true ->
    (id node = main_id moveNo w (m_san mv) /\ nodeMap t !! id node = None
     \/ id node = main_id moveNo w (m_san mv) +:+ "_" +:+ show (S (idCounter t))) ->
    (let t2 := push_mainline (with_idCounter t (S (idCounter t))) node in
     o = Returned t2 (Some (length (heap t))) \/ o = Thrown t2) ->
    add_result t mv p o
| add_var pr node moveNo w o :
    nodeMap t !! p = Some pr ->
    findExistingMove t (deref t pr) mv = None ->
    (isMainline (deref t pr)
     && (getNodeIndex t (deref t pr) =? Z.of_nat (length (mainline t)) - 1)%Z
     = false) ->
    children node = [] -> move node = Some mv -> isMainline node = false ->
    id node = var_id moveNo w (m_san mv) (S (idCounter t)) ->
    (let t2 := push_variation (with_idCounter t (S (idCounter t))) pr node in
     o = Returned t2 (Some (length (heap t))) \/ o = Thrown t2) ->
    add_result t mv p o.

(* ===================================================================== *)
(** ** The list of a variation, and the steps of a tree                   *)
(* ===================================================================== *)

(** The [while (currentNode.children?.length > 0)] loop of
    [_buildVariationMovesList].  A chain of first children that is longer
    than the store has objects has entered a cycle and goes on for ever:
    [None]. *)
Fixpoint variation_loop (t : MoveTree) (fuel : nat) (currentNode : nat)
    (movesList : list nat) : option (list nat) :=
  match children (deref t currentNode) with
  | [] => Some movesList
  | c :: _ =>
      match fuel with
      | 0 => None
      | S fuel' => variation_loop t fuel' c (movesList ++ [c])
      end
  end.

(** [_buildVariationMovesList(startNode)] *)
Definition buildVariationMovesList (t : MoveTree) (startNode : nat)
    : option (list nat) :=
  variation_loop t (length (heap t)) startNode [startNode].

(** One call of a method that writes to the tree, however it ends. *)
Inductive tree_step (E : Engine) (t : MoveTree) : MoveTree -> Prop :=
| step_build pgn ch t' :
    outcome_tree (buildFromPGN E pgn ch t) = Some t' -> tree_step E t t'
| step_add mv p t' :
    outcome_tree (addMove E mv p t) = Some t' -> tree_step E t t'
| step_nav k : tree_step E t (fst (navigateTo k t))
| step_upd k ev : tree_step E t (updateClassification k ev t).

(** What identifies a node and places it: everything but its list of
    children and the analysis fields. *)
Definition same_identity (n n' : Node) : Prop :=
  id n' = id n /\ moveNumber n' = moveNumber n /\ san n' = san n
  /\ move n' = move n /\ fen n' = fen n /\ isMainline n' = isMainline n
  /\ parentIndex n' = parentIndex n /\ parentId n' = parentId n
  /\ clock n' = clock n.

(** The objects of [t] are still there in [t'], each with its identity and
    with its children as the first children. *)
Definition grown (t t' : MoveTree) : Prop :=
  length (heap t) <= length (heap t')
  /\ forall r, r < length (heap t) ->
       same_identity (deref t r) (deref t' r)
       /\ children (deref t r) `prefix_of` children (deref t' r).

(** What [findExistingMove] compares. *)
Definition move_key (n : Node) : option (string * string * option string) :=
  (fun mv => (m_from mv, m_to mv, m_promotion mv)) <$> move n.

(** The number of check and mate signs in a string. *)
Fixpoint count_marks (s : string) : nat :=
  match s with
  | EmptyString => 0
  | String a s' =>
      (if (Ascii.eqb a "+" || Ascii.eqb a "#")%bool then 1 else 0) + count_marks s'
  end.

(** The records of an array with holes, in the order of their positions. *)
Definition records {A : Type} (arr : jsarray A) : list A := omap (fun x => x) arr.

(** [clockMatches[i][1].trim()] *)
Definition clock_value (text : list ascii) (cm : Regex.rmatch) : string :=
  string_of_list_ascii (Regex.trim (default [] (Regex.group text cm 1))).

(** What the loop of [extractClockAnnotations] keeps true of the array, the
    move counter and the position in the list of annotations. *)
Definition in_order (text : list ascii) (clockMatches : list Regex.rmatch)
    (acc : jsarray ClockInfo * nat * nat) : Prop :=
  let '(clockData, mvIndex, clockIndex) := acc in
  length clockData <= mvIndex
  /\ clockIndex <= length clockMatches
  /\ ClockInfo.clock <$> records clockData
     = take clockIndex (clock_value text <$> clockMatches)
  /\ forall i c, clockData !! i = Some (Some c) ->
       ClockInfo.moveIndex c = i
       /\ (ClockInfo.color c = "white" \/ ClockInfo.color c = "black").

(** During [buildFromPGN], before the ply with index [p] is added, whatever
    the notation of the moves: the keys of the id index are ['root'] and the
    ids of the plies before [p]. *)
Definition built_any (p : nat) (t : MoveTree) : Prop :=
  forall k, is_Some (nodeMap t !! k) ->
    k = "root"
    \/ exists q s, q < p /\ k = build_id (moveNo_of q) (white_of q) s.

(** A node as [buildFromPGN] and [addMove] create it, for the move [mv]. *)
Definition new_node (node : Node) (mv : Move) : Prop :=
  children node = [] /\ move node = Some mv /\ san node = Some (m_san mv)
  /\ is_Some (fen node) /\ is_Some (moveNumber node).

(** A node that is about to be pushed on the mainline of [t]: by
    [buildFromPGN] (no [parentId]) or by [addMove] below the tip. *)
Definition main_shape (t : MoveTree) (node : Node) (mv : Move) : Prop :=
  new_node node mv /\ isMainline node = true
  /\ parentIndex node = Some (Z.of_nat (length (mainline t)) - 1)%Z
  /\ (exists n w,
        id node = build_id n w (m_san mv) /\ nodeMap t !! id node = None
        \/ id node = build_id n w (m_san mv) +:+ "_" +:+ show (idCounter t))
  /\ (parentId node = None
      \/ exists p pr, parentId node = Some p /\ nodeMap t !! p = Some pr
                      /\ last (mainline t) = Some pr).

(** A node that is about to be pushed on the children of the node at [pr],
    found under the id [p]. *)
Definition var_shape (t : MoveTree) (pr : nat) (p : string) (node : Node)
    (mv : Move) : Prop :=
  new_node node mv /\ isMainline node = false /\ parentIndex node = None
  /\ parentId node = Some p /\ nodeMap t !! p = Some pr
  /\ (exists n w, id node = var_id n w (m_san mv) (idCounter t))
  /\ nodeMap t !! id node = None
  /\ findExistingMove t (deref t pr) mv = None
  /\ (isMainline (deref t pr)
      && (getNodeIndex t (deref t pr) =? Z.of_nat (length (mainline t)) - 1)%Z
      = false).


(** How the nodes of a tree hang together, whatever moves it was given:
    the root, the cursor index, the links along the mainline, the links
    between a node and its children, and the shape of the ids. *)
Record linked (t : MoveTree) : Prop := {
  lk_root : exists r0,
    mainline t !! 0 = Some r0 /\ nodeMap t !! "root" = Some r0
    /\ move (deref t r0) = None /\ parentId (deref t r0) = None;
  lk_index : (0 <= currentIndex t < Z.of_nat (length (mainline t)))%Z;
  lk_main : forall k r, mainline t !! k = Some r ->
    isMainline (deref t r) = true
    /\ (1 <= k -> parentIndex (deref t r) = Some (Z.of_nat k - 1)%Z
                  /\ is_Some (move (deref t r)));
  lk_kids : forall r c, r < length (heap t) -> c ∈ children (deref t r) ->
    r < c /\ isMainline (deref t c) = false
    /\ parentId (deref t c) = Some (id (deref t r))
    /\ is_Some (move (deref t c));
  lk_siblings : forall r, r < length (heap t) ->
    NoDup ((fun c => move_key (deref t c)) <$> children (deref t r));
  lk_clean : forall k, is_Some (nodeMap t !! k) ->
    count_marks k = 0 /\ k <> ""
}.

(** With moves in standard notation: the id index finds every child and the
    parent of every node, the last node of the mainline has no children,
    and the cursor is on a node of the index. *)
Record indexed (t : MoveTree) : Prop := {
  ix_kids : forall k r c, nodeMap t !! k = Some r -> c ∈ children (deref t r) ->
    nodeMap t !! id (deref t c) = Some c;
  ix_var : forall k v, nodeMap t !! k = Some v -> isMainline (deref t v) = false ->
    exists p pr, parentId (deref t v) = Some p /\ nodeMap t !! p = Some pr
                 /\ v ∈ children (deref t pr);
  ix_parent : forall k r p, nodeMap t !! k = Some r ->
    parentId (deref t r) = Some p ->
    exists pr, nodeMap t !! p = Some pr /\ pr < r;
  ix_tip : forall r, last (mainline t) = Some r -> children (deref t r) = [];
  ix_cursor : nodeMap t !! id (deref t (currentNode t)) = Some (currentNode t)
}.


(** Unique ids, links and index together. *)
Definition sound (t : MoveTree) : Prop := wf_ids t /\ linked t /\ indexed t.


(** A reply inside the side line of [game3_var]. *)
Definition game3_var2 : MoveTree :=
  tree_of game3_var
    (addMove Toy.engine (Toy.mk_move "g8f6" "b") "var_2_w_b1c3_1" game3_var).

(** [game3] with one more ply at the end of the mainline. *)
Definition game4 : MoveTree :=
  tree_of game3
    (addMove Toy.engine (Toy.mk_move "b8c6" "b") "move_2_w_g1f3" game3).


(** A list of nodes in which each one names the one before it as its
    parent. *)
Fixpoint chain (t : MoveTree) (l : list nat) : Prop :=
  match l with
  | a :: rest =>
      match rest with
      | b :: _ => parentId (deref t b) = Some (id (deref t a))
      | [] => True
      end /\ chain t rest
  | [] => True
  end.


(** An engine that reads a game but plays no move of it. *)
Definition stuck_engine : Engine :=
  {| chess := chess Toy.engine;
     new_Chess := new_Chess Toy.engine;
     chess_loadPgn := chess_loadPgn Toy.engine;
     chess_history := chess_history Toy.engine;
     chess_reset := chess_reset Toy.engine;
     chess_fen := chess_fen Toy.engine;
     chess_move_lan := fun _ _ => None;
     chess_move := chess_move Toy.engine;
     chess_load := chess_load Toy.engine;
     chess_turn := chess_turn Toy.engine;
     chess_moveNumber := chess_moveNumber Toy.engine |}.

(** While [buildFromPGN] runs, after the reset: the root is the new object
    at [r0], the index has it under ['root'], and the cursor is on it. *)
Definition fresh_root (r0 : nat) (p : nat) (t : MoveTree) : Prop :=
  mainline t !! 0 = Some r0 /\ nodeMap t !! "root" = Some r0
  /\ currentNode t = r0 /\ currentIndex t = 0%Z /\ r0 < length (heap t).


(** [move.lines?.length > 0] and then [move.lines.find(line => line.id ===
    1)]: the line [updateClassification] takes the score from. *)
Definition topLine (ev : Evaluated) : option Line :=
  match ev_lines ev with
  | Some lines =>
      if Nat.ltb 0 (length lines)
      then List.find (fun l => Z.eqb (line_id l) 1) lines
      else None
  | None => None
  end.

(** Two evaluations of one move: the first with the top line of the engine,
    the second without lines. *)
Definition eval_best : Evaluated :=
  {| ev_classification := "best";
     ev_lines := Some [ {| line_id := 2; line_score := 10; line_type := Some "cp" |};
                        {| line_id := 1; line_score := 35; line_type := None |} ] |}.

Definition eval_book : Evaluated :=
  {| ev_classification := "book"; ev_lines := None |}.


(** Every object of the store but the root the constructor made has a
    position. *)
Definition positioned (t : MoveTree) : Prop :=
  0 < length (heap t) /\ fen (deref t 0) = None
  /\ forall r, 0 < r -> r < length (heap t) -> is_Some (fen (deref t r)).


(** Every character a pattern can consume satisfies [Q]. *)
Fixpoint chars_in (Q : ascii -> Prop) (r : Regex.re) : Prop :=
  match r with
  | Regex.Chr p => forall a, p a = true -> Q a
  | Regex.Seq a b => chars_in Q a /\ chars_in Q b
  | Regex.Star _ a => chars_in Q a
  | Regex.Opt a => chars_in Q a
  | Regex.Group _ a => chars_in Q a
  | Regex.Bol => True
  | Regex.Eol => True
  end.

(** A pattern without the capturing group [n]. *)
Fixpoint no_group (n : nat) (r : Regex.re) : Prop :=
  match r with
  | Regex.Chr _ => True
  | Regex.Seq a b => no_group n a /\ no_group n b
  | Regex.Star _ a => no_group n a
  | Regex.Opt a => no_group n a
  | Regex.Group m a => m <> n /\ no_group n a
  | Regex.Bol => True
  | Regex.Eol => True
  end.

(** The characters of [s] from [i] up to [j] satisfy [Q]. *)
Definition span (s : list ascii) (Q : ascii -> Prop) (i j : nat) : Prop :=
  forall x, i <= x -> x < j -> exists a, s !! x = Some a /\ Q a.

Definition not_brace (a : ascii) : Prop := a <> "{"%char.

(** An array without holes. *)
Definition no_holes {A : Type} (arr : jsarray A) : Prop :=
  Forall (fun x => is_Some x) arr.

(** [match.index + match[0].indexOf(move)] *)
Definition movePos (text : list ascii) (m : Regex.rmatch) (mv : list ascii) : Z :=
  (Z.of_nat (Regex.index m) + Regex.indexOf (Regex.whole text m) mv)%Z.

(** What the loop of [extractClockAnnotations] keeps true between two
    matches of the move pattern, with [lastIndex = bound]: the array has no
    holes, and either every move so far has its record, or the next
    annotation lies before [bound] and no later move can take it. *)
Definition settled (clockMatches : list Regex.rmatch) (bound : nat)
    (acc : jsarray ClockInfo * nat * nat) : Prop :=
  let '(clockData, mvIndex, clockIndex) := acc in
  no_holes clockData
  /\ (length clockData = mvIndex
      \/ forall cm, clockMatches !! clockIndex = Some cm ->
                    Regex.index cm < bound).


(* ===================================================================== *)
(** ** Theorems                                                           *)
(* ===================================================================== *)

(** *** The clock extractor on the example of the specification *)

Lemma moveTextOf_headed :
  moveTextOf pgn_example_headed = list_ascii_of_string pgn_example.
Proof. vm_compute. reflexivity. Qed.

(** C7: on the move text
    [1. e4 {[%clk 0:05:00]} e5 {[%clk 0:04:58]} 2. Nf3], alone or below header
    lines, the extractor returns exactly two records, ply 0 for white with
    clock 0:05:00 and ply 1 for black with clock 0:04:58, and nothing for
    ply 2. *)
Theorem extractClockAnnotations_example :
  let expected :=
    [Some {| ClockInfo.moveIndex := 0; ClockInfo.color := "white";
             ClockInfo.clock := "0:05:00" |};
     Some {| ClockInfo.moveIndex := 1; ClockInfo.color := "black";
             ClockInfo.clock := "0:04:58" |}] in
  extractClockAnnotations pgn_example = Some expected
  /\ extractClockAnnotations pgn_example_headed = Some expected
  /\ expected !! 2 = None
  /\ find_clock expected 2 = Some None.
Proof. vm_compute. repeat split; reflexivity. Qed.

(** *** Unknown ids *)

Section SoftMiss.

Variable E : Engine.

(** C8: an id that is not in the node index is a soft miss for every entry
    point: [addMove] returns null and leaves the tree as it was,
    [updateClassification] changes nothing, [getPathToNode] returns the
    empty list (and so does [getMovesToNode]; [navigateTo] returns null and
    leaves the cursor); none of them throws. *)
Theorem unknown_id_soft_miss (t : MoveTree) (nodeId : string) (mv : Move)
    (ev : Evaluated) :
  nodeMap t !! nodeId = None ->
  addMove E mv nodeId t = Returned t None
  /\ updateClassification nodeId ev t = t
  /\ getPathToNode nodeId t = Some []
  /\ getMovesToNode nodeId t = Some []
  /\ navigateTo nodeId t = (t, None).
Proof.
  intros Hmiss.
  unfold addMove, updateClassification, getMovesToNode, getPathToNode,
    navigateTo.
  rewrite Hmiss. auto 6.
Qed.

End SoftMiss.

Lemma unknown_id_soft_miss_witness :
  let mv := Toy.mk_move "e2e4" "w" in
  let ev := {| ev_classification := "best"; ev_lines := None |} in
  addMove Toy.engine mv "move_9_w_e2e4" game3 = Returned game3 None
  /\ updateClassification "move_9_w_e2e4" ev game3 = game3
  /\ getPathToNode "move_9_w_e2e4" game3 = Some []
  /\ getMovesToNode "move_9_w_e2e4" game3 = Some []
  /\ navigateTo "move_9_w_e2e4" game3 = (game3, None).
Proof.
  apply (unknown_id_soft_miss Toy.engine game3 "move_9_w_e2e4").
  vm_compute. reflexivity.
Defined.

(** *** Strings: what the id templates guarantee *)

Lemma show_inj (n m : nat) : show n = show m -> n = m.
Proof.
  unfold show. intros H.
  apply (f_equal NilEmpty.uint_of_string) in H.
  rewrite !NilEmpty.usu in H.
  injection H as H.
  apply (f_equal Nat.of_uint) in H.
  now rewrite !DecimalNat.Unsigned.of_to in H.
Qed.

Lemma count_us_show (n : nat) : count_us (show n) = 0.
Proof.
  unfold show. generalize (Nat.to_uint n).
  induction u; simpl; auto.
Qed.

Lemma count_us_app (a b : string) :
  count_us (a +:+ b) = count_us a + count_us b.
Proof.
  induction a as [|c a IH]; simpl; [reflexivity|].
  rewrite IH. lia.
Qed.

Lemma count_us_side (w : bool) : count_us (side_letter w) = 0.
Proof. destruct w; reflexivity. Qed.

Lemma count_us_sanitize (s : string) :
  count_us s = 0 -> count_us (sanitize s) = 0.
Proof.
  induction s as [|c s IH]; cbn [count_us sanitize]; [reflexivity|].
  intros H.
  destruct (Ascii.eqb c "_") eqn:Hc; [lia|].
  cbn in H. specialize (IH H).
  destruct (Ascii.eqb c "+"); [cbn; exact IH|].
  destruct (Ascii.eqb c "#"); [cbn; exact IH|].
  rewrite count_us_app. cbn [count_us]. rewrite Hc, IH. reflexivity.
Qed.

Lemma last_seg_suffix (a b : string) :
  count_us b = 0 -> last_seg (a +:+ String "_" b) = b.
Proof.
  intros Hb. induction a as [|c a IH]; simpl.
  - rewrite Hb. reflexivity.
  - rewrite count_us_app. simpl.
    destruct (Nat.eqb_spec (count_us a + S (count_us b)) 0) as [?|_]; [lia|].
    exact IH.
Qed.

Lemma first_seg_inj (a b x y : string) :
  count_us a = 0 -> count_us b = 0 ->
  a +:+ String "_" x = b +:+ String "_" y -> a = b /\ x = y.
Proof.
  revert b. induction a as [|c a IH]; intros [|d b] Ha Hb H; simpl in *.
  - injection H as ->. auto.
  - injection H as <- _. simpl in Hb. discriminate.
  - injection H as -> _. simpl in Ha. discriminate.
  - injection H as -> H.
    destruct (Ascii.eqb d "_"); [discriminate|].
    destruct (IH b Ha Hb H) as [-> ->]. auto.
Qed.

Lemma append_empty_r (s : string) : s +:+ "" = s.
Proof. induction s as [|c s IH]; simpl; [reflexivity|now rewrite IH]. Qed.

Lemma build_id_inj (n m : nat) (v w : bool) (s u : string) :
  build_id n v s = build_id m w u -> n = m /\ v = w.
Proof.
  unfold build_id. simpl. intros H.
  injection H as H.
  apply first_seg_inj in H as [Hn H]; auto using count_us_show.
  split; [now apply show_inj|].
  destruct v, w; simpl in H; congruence.
Qed.

Lemma count_us_build_id (n : nat) (w : bool) (s : string) :
  count_us s = 0 -> count_us (build_id n w s) = 3.
Proof.
  intros Hs. unfold build_id. simpl.
  rewrite !count_us_app. simpl. rewrite !count_us_app. simpl.
  rewrite count_us_show, count_us_side, (count_us_sanitize s Hs). reflexivity.
Qed.

Lemma half_even (k : nat) : (2 * k) / 2 = k.
Proof. symmetry. apply (Nat.div_unique (2 * k) 2 k 0); lia. Qed.

Lemma half_odd (k : nat) : (2 * k + 1) / 2 = k.
Proof. symmetry. apply (Nat.div_unique (2 * k + 1) 2 k 1); lia. Qed.

Lemma parity_cases (p : nat) :
  (exists k, p = 2 * k /\ Nat.even p = true)
  \/ (exists k, p = 2 * k + 1 /\ Nat.even p = false).
Proof.
  destruct (Nat.even p) eqn:Hp.
  - left. apply Nat.even_spec in Hp as [k ->]. eauto.
  - right.
    assert (Ho : Nat.odd p = true) by (rewrite <- Nat.negb_even, Hp; reflexivity).
    apply Nat.odd_spec in Ho as [k ->]. eauto.
Qed.

Lemma ply_inj (p q : nat) :
  moveNo_of p = moveNo_of q -> white_of p = white_of q -> p = q.
Proof.
  unfold moveNo_of, white_of. intros Hn Hw.
  apply Nat.succ_inj in Hn.
  destruct (parity_cases p) as [[k [-> Hk]]|[k [-> Hk]]],
           (parity_cases q) as [[j [-> Hj]]|[j [-> Hj]]];
    rewrite ?half_even, ?half_odd in Hn; try congruence; lia.
Qed.

Lemma ply_step (p : nat) :
  (if white_of p then moveNo_of p else S (moveNo_of p)) = moveNo_of (S p)
  /\ negb (white_of p) = white_of (S p).
Proof.
  unfold moveNo_of, white_of. rewrite Nat.even_succ, <- Nat.negb_even.
  split; [|reflexivity].
  destruct (parity_cases p) as [[k [-> Hk]]|[k [-> Hk]]]; rewrite Hk.
  - replace (S (2 * k)) with (2 * k + 1) by lia.
    now rewrite half_even, half_odd.
  - replace (S (2 * k + 1)) with (2 * (k + 1)) by lia.
    rewrite half_even, half_odd. lia.
Qed.

(** *** The store: what a write leaves alone *)

Lemma deref_push_old (t : MoveTree) (node : Node) (r : ref) :
  r < length (heap t) -> deref (push_mainline t node) r = deref t r.
Proof. intros Hr. unfold deref. simpl. now rewrite lookup_total_app_l. Qed.

Lemma deref_push_new (t : MoveTree) (node : Node) :
  deref (push_mainline t node) (length (heap t)) = node.
Proof.
  unfold deref. simpl. rewrite lookup_total_app_r by lia.
  now rewrite Nat.sub_diag.
Qed.

Lemma deref_store_eq (t : MoveTree) (r : ref) (n : Node) :
  r < length (heap t) -> deref (store t r n) r = n.
Proof. intros Hr. unfold deref. simpl. now rewrite list_lookup_total_insert_eq. Qed.

Lemma deref_store_ne (t : MoveTree) (r r' : ref) (n : Node) :
  r <> r' -> deref (store t r n) r' = deref t r'.
Proof. intros Hr. unfold deref. simpl. now rewrite list_lookup_total_insert_ne. Qed.

Lemma key_index_cases (k : string) (ks : list string) :
  (key_index k ks = (-1)%Z /\ k ∉ ks)
  \/ (exists i, key_index k ks = Z.of_nat i /\ ks !! i = Some k
                /\ forall j, j < i -> ks !! j <> Some k).
Proof.
  unfold key_index.
  destruct (list_find (fun x => x = k) ks) as [[i x]|] eqn:Hf.
  - right. apply list_find_Some in Hf as (Hi & -> & Hmin).
    exists i. split; [reflexivity|]. split; [exact Hi|].
    intros j Hj Hk. exact (Hmin j k Hk Hj eq_refl).
  - left. split; [reflexivity|].
    apply list_find_None in Hf. rewrite Forall_forall in Hf.
    intros Hin. exact (Hf k Hin eq_refl).
Qed.

Lemma key_index_nodup (k : string) (ks : list string) (i : nat) :
  NoDup ks -> ks !! i = Some k -> key_index k ks = Z.of_nat i.
Proof.
  intros Hnd Hi.
  destruct (key_index_cases k ks) as [[_ Hn]|(j & -> & Hj & _)].
  - exfalso. apply Hn. eapply list_elem_of_lookup_2. exact Hi.
  - f_equal. eapply NoDup_lookup; eauto.
Qed.

Lemma key_index_app_l (k : string) (ks l : list string) :
  key_index k ks <> (-1)%Z -> key_index k (ks ++ l) = key_index k ks.
Proof.
  unfold key_index.
  destruct (list_find (fun x => x = k) ks) as [[i x]|] eqn:Hf; [|congruence].
  intros _. now rewrite (list_find_app_l _ _ _ _ _ Hf).
Qed.

Lemma key_index_bound (k : string) (ks : list string) :
  (-1 <= key_index k ks < Z.of_nat (length ks))%Z.
Proof.
  destruct (key_index_cases k ks) as [[-> _]|(i & -> & Hi & _)]; [lia|].
  apply lookup_lt_Some in Hi. lia.
Qed.

Lemma getNodeIndex_ids (t : MoveTree) (n : Node) :
  getNodeIndex t n = key_index (id n) (ids t).
Proof.
  unfold getNodeIndex, key_index, ids.
  rewrite list_find_fmap.
  unfold compose.
  destruct (list_find _ (mainline t)) as [[i x]|]; reflexivity.
Qed.

Lemma ids_lookup (t : MoveTree) (i : nat) :
  ids t !! i = (fun r => id (deref t r)) <$> mainline t !! i.
Proof. unfold ids. apply list_lookup_fmap. Qed.

Lemma ids_frame (t t' : MoveTree) :
  mainline t' = mainline t ->
  (forall r, r ∈ mainline t -> id (deref t' r) = id (deref t r)) ->
  ids t' = ids t.
Proof.
  intros Hm Hid. unfold ids. rewrite Hm.
  apply list_fmap_ext. intros i r Hr.
  apply Hid. eapply list_elem_of_lookup_2. exact Hr.
Qed.

Lemma ids_push (t : MoveTree) (node : Node) :
  (forall r, r ∈ mainline t -> r < length (heap t)) ->
  ids (push_mainline t node) = ids t ++ [id node].
Proof.
  intros Hv. unfold ids. simpl mainline.
  rewrite fmap_app. simpl. rewrite deref_push_new. f_equal.
  apply list_fmap_ext. intros i r Hr.
  rewrite deref_push_old; [reflexivity|].
  apply Hv. eapply list_elem_of_lookup_2. exact Hr.
Qed.

Lemma deref_pushvar_old (t : MoveTree) (pr : ref) (node : Node) (r : ref) :
  r < length (heap t) ->
  deref (push_variation t pr node) r =
    if decide (r = pr)
    then with_children (deref t pr) (children (deref t pr) ++ [length (heap t)])
    else deref t r.
Proof.
  intros Hr. unfold deref. simpl.
  rewrite lookup_total_app_l by (rewrite length_insert; exact Hr).
  destruct (decide (r = pr)) as [->|Hne].
  - now rewrite list_lookup_total_insert_eq.
  - now rewrite list_lookup_total_insert_ne by congruence.
Qed.

Lemma deref_pushvar_new (t : MoveTree) (pr : ref) (node : Node) :
  deref (push_variation t pr node) (length (heap t)) = node.
Proof.
  unfold deref. simpl.
  rewrite lookup_total_app_r by (rewrite length_insert; lia).
  now rewrite length_insert, Nat.sub_diag.
Qed.

Lemma id_pushvar_old (t : MoveTree) (pr : ref) (node : Node) (r : ref) :
  r < length (heap t) ->
  id (deref (push_variation t pr node) r) = id (deref t r).
Proof.
  intros Hr. rewrite deref_pushvar_old by exact Hr.
  destruct (decide (r = pr)) as [->|]; reflexivity.
Qed.

Lemma move_pushvar_old (t : MoveTree) (pr : ref) (node : Node) (r : ref) :
  r < length (heap t) ->
  move (deref (push_variation t pr node) r) = move (deref t r).
Proof.
  intros Hr. rewrite deref_pushvar_old by exact Hr.
  destruct (decide (r = pr)) as [->|]; reflexivity.
Qed.

Lemma length_heap_pushvar (t : MoveTree) (pr : ref) (node : Node) :
  length (heap (push_variation t pr node)) = S (length (heap t)).
Proof. simpl. rewrite length_app, length_insert. simpl. lia. Qed.

Lemma length_heap_push (t : MoveTree) (node : Node) :
  length (heap (push_mainline t node)) = S (length (heap t)).
Proof. simpl. rewrite length_app. simpl. lia. Qed.

(** *** The invariant [wf] holds in every reachable tree *)

Lemma wf_constructor : wf constructor.
Proof.
  split; simpl.
  - discriminate.
  - intros r Hr. apply list_elem_of_singleton in Hr as ->. lia.
  - intros k r Hk. apply lookup_singleton_Some in Hk as [<- <-].
    split; [lia|reflexivity].
  - intros r c Hr Hc. assert (r = 0) as -> by lia.
    unfold deref in Hc. simpl in Hc. inversion Hc.
  - lia.
  - intros r [= <-]. reflexivity.
  - intros k [r Hk] Hv. apply lookup_singleton_Some in Hk as [<- _].
    simpl in Hv. discriminate.
Qed.

Lemma wf_push_mainline (t : MoveTree) (node : Node) :
  wf t -> children node = [] -> ~ var_key (id node) ->
  wf (push_mainline t node).
Proof.
  intros [Hne Hmain Hmap Hch Hcur Hlast Hvar] Hnode Hnv.
  split.
  - simpl. intros H. apply app_eq_nil in H as [_ H]. discriminate.
  - intros r Hr. rewrite length_heap_push. simpl in Hr.
    apply elem_of_app in Hr as [Hr|Hr].
    + specialize (Hmain r Hr). lia.
    + apply list_elem_of_singleton in Hr as ->. lia.
  - intros k r Hk. rewrite length_heap_push. simpl in Hk.
    apply lookup_insert_Some in Hk as [[<- <-]|[Hkne Hk]].
    + split; [lia|]. now rewrite deref_push_new.
    + destruct (Hmap k r Hk) as [Hr Hid].
      split; [lia|]. now rewrite deref_push_old.
  - intros r c Hr Hc. rewrite length_heap_push in *.
    destruct (decide (r = length (heap t))) as [->|Hrn].
    + rewrite deref_push_new, Hnode in Hc. inversion Hc.
    + assert (Hr' : r < length (heap t)) by lia.
      rewrite deref_push_old in Hc by exact Hr'.
      specialize (Hch r c Hr' Hc). lia.
  - rewrite length_heap_push. simpl. lia.
  - intros r Hr. simpl in Hr. rewrite last_snoc in Hr. injection Hr as <-.
    rewrite deref_push_new. simpl. apply lookup_insert_eq.
  - intros k Hk Hv. simpl in *.
    destruct (decide (id node = k)) as [<-|Hkne]; [contradiction|].
    rewrite lookup_insert_ne in Hk by exact Hkne.
    exact (Hvar k Hk Hv).
Qed.

Lemma wf_with_idCounter (t : MoveTree) (c : nat) :
  wf t -> idCounter t <= c -> wf (with_idCounter t c).
Proof.
  intros [Hne Hmain Hmap Hch Hcur Hlast Hvar] Hc.
  split; try assumption.
  intros k Hk Hv. destruct (Hvar k Hk Hv) as (j & Hj & Hs).
  exists j. simpl. split; [lia|exact Hs].
Qed.

Lemma wf_with_cursor (t : MoveTree) (r : ref) (i : Z) :
  wf t -> r < length (heap t) -> wf (with_cursor t r i).
Proof.
  intros [Hne Hmain Hmap Hch Hcur Hlast Hvar] Hr.
  split; assumption.
Qed.

Lemma wf_store (t : MoveTree) (r : ref) (n : Node) :
  wf t -> id n = id (deref t r) -> children n = children (deref t r) ->
  wf (store t r n).
Proof.
  intros [Hne Hmain Hmap Hch Hcur Hlast Hvar] Hid Hkids.
  assert (Hd : forall r', id (deref (store t r n) r') = id (deref t r')
                          /\ children (deref (store t r n) r') = children (deref t r')).
  { intros r'. destruct (decide (r = r')) as [<-|Hne'].
    - destruct (decide (r < length (heap t))) as [Hlt|Hge].
      + rewrite deref_store_eq by exact Hlt. auto.
      + unfold deref, store. simpl.
        rewrite list_insert_ge by lia. auto.
    - rewrite deref_store_ne by exact Hne'. auto. }
  assert (Hlen : length (heap (store t r n)) = length (heap t))
    by (simpl; apply length_insert).
  split; rewrite ?Hlen; simpl mainline; simpl nodeMap; simpl currentNode;
    simpl idCounter; try assumption.
  - intros k r' Hk. destruct (Hmap k r' Hk) as [Hr' Hk'].
    split; [exact Hr'|]. now rewrite (proj1 (Hd r')).
  - intros r' c Hr' Hc. rewrite (proj2 (Hd r')) in Hc. eauto.
  - intros r' Hr'. rewrite (proj1 (Hd r')). auto.
Qed.

Lemma var_fresh (t : MoveTree) (k : string) :
  wf t -> var_key k -> last_seg k = show (S (idCounter t)) ->
  nodeMap t !! k = None.
Proof.
  intros Hwf Hv Hs.
  destruct (nodeMap t !! k) as [r|] eqn:Hk; [|reflexivity].
  destruct (wf_var t Hwf k (mk_is_Some _ _ Hk) Hv) as (j & Hj & Hs').
  rewrite Hs in Hs'. apply show_inj in Hs'. lia.
Qed.

Lemma wf_push_variation (t : MoveTree) (pr : ref) (node : Node) :
  wf t -> pr < length (heap t) -> children node = [] ->
  nodeMap t !! id node = None ->
  (exists j, j <= idCounter t /\ last_seg (id node) = show j) ->
  wf (push_variation t pr node).
Proof.
  intros [Hne Hmain Hmap Hch Hcur Hlast Hvar] Hpr Hnode Hfresh Hsuffix.
  split.
  - exact Hne.
  - intros r Hr. rewrite length_heap_pushvar. specialize (Hmain r Hr). lia.
  - intros k r Hk. rewrite length_heap_pushvar. simpl in Hk.
    apply lookup_insert_Some in Hk as [[<- <-]|[Hkne Hk]].
    + split; [lia|]. now rewrite deref_pushvar_new.
    + destruct (Hmap k r Hk) as [Hr Hid].
      split; [lia|]. now rewrite id_pushvar_old.
  - intros r c Hr Hc. rewrite length_heap_pushvar in *.
    destruct (decide (r = length (heap t))) as [->|Hrn].
    + rewrite deref_pushvar_new, Hnode in Hc. inversion Hc.
    + assert (Hr' : r < length (heap t)) by lia.
      rewrite deref_pushvar_old in Hc by exact Hr'.
      case_decide as Hrp.
      * subst r. simpl in Hc. apply elem_of_app in Hc as [Hc|Hc].
        -- specialize (Hch pr c Hpr Hc). lia.
        -- apply list_elem_of_singleton in Hc as ->. lia.
      * specialize (Hch r c Hr' Hc). lia.
  - rewrite length_heap_pushvar. simpl. lia.
  - intros r Hr. simpl in Hr.
    assert (Hrv : r < length (heap t)).
    { apply Hmain. rewrite last_lookup in Hr.
      eapply list_elem_of_lookup_2. exact Hr. }
    rewrite id_pushvar_old by exact Hrv. simpl.
    specialize (Hlast r Hr).
    rewrite lookup_insert_ne; [exact Hlast|].
    intros Heq. rewrite Heq in Hfresh. congruence.
  - intros k Hk Hv. simpl in *.
    destruct (decide (id node = k)) as [<-|Hkne]; [exact Hsuffix|].
    rewrite lookup_insert_ne in Hk by exact Hkne.
    exact (Hvar k Hk Hv).
Qed.

Lemma wf_updateClassification (t : MoveTree) (k : string) (ev : Evaluated) :
  wf t -> wf (updateClassification k ev t).
Proof.
  intros Hwf. unfold updateClassification.
  destruct (nodeMap t !! k) as [r|]; [|exact Hwf].
  apply wf_store; [exact Hwf|reflexivity|reflexivity].
Qed.

Lemma wf_navigateTo (t : MoveTree) (k : string) :
  wf t -> wf (fst (navigateTo k t)).
Proof.
  intros Hwf. unfold navigateTo.
  destruct (nodeMap t !! k) as [r|] eqn:Hk; [|exact Hwf].
  simpl. apply wf_with_cursor; [exact Hwf|].
  exact (proj1 (wf_map t Hwf k r Hk)).
Qed.

(** *** The paths through [addMove] *)

Lemma addMove_result (E : Engine) (mv : Move) (p : string) (t : MoveTree) :
  add_result t mv p (addMove E mv p t).
Proof.
  unfold addMove. cbv zeta.
  destruct (nodeMap t !! p) as [pr|] eqn:Hp; [|now apply add_unknown].
  destruct (findExistingMove t (deref t pr) mv) as [r|] eqn:Hex;
    [now apply (add_existing _ _ _ pr)|].
  destruct (chess_load E (fen (deref t pr)) (new_Chess E)) as [ch1|];
    [|now apply (add_throw_load _ _ _ pr)].
  destruct (chess_move E mv ch1) as [ch2|];
    [|now apply (add_throw_move _ _ _ pr)].
  destruct (isMainline (deref t pr)
            && (getNodeIndex t (deref t pr) =? Z.of_nat (length (mainline t)) - 1)%Z)
    eqn:Hmain.
  - apply andb_prop in Hmain as [Hm Hi]. apply Z.eqb_eq in Hi.
    eapply (add_main _ _ _ pr _ (chess_moveNumber E ch1)
              (String.eqb (chess_turn E ch1) "w"));
      [exact Hp|exact Hex|exact Hm|exact Hi|..].
    5: { cbv zeta. destruct (chess_load E _ ch2); [left|right]; reflexivity. }
    1-3: reflexivity.
    cbn [id andb].
    match goal with
    | |- context [bool_decide ?P] => destruct (bool_decide P) eqn:Hhas
    end.
    + right. reflexivity.
    + left. split; [reflexivity|].
      apply bool_decide_eq_false in Hhas.
      apply eq_None_not_Some. exact Hhas.
  - eapply (add_var _ _ _ pr _ (chess_moveNumber E ch1)
              (String.eqb (chess_turn E ch1) "w"));
      [exact Hp|exact Hex|exact Hmain|..].
    5: { cbv zeta. destruct (chess_load E _ ch2); [left|right]; reflexivity. }
    all: reflexivity.
Qed.

(** *** The ids [addMove] builds *)

Lemma last_seg_app (a b : string) :
  count_us b <> 0 -> last_seg (a +:+ b) = last_seg b.
Proof.
  intros Hb. induction a as [|c a IH]; simpl; [reflexivity|].
  rewrite count_us_app.
  destruct (Nat.eqb_spec (count_us a + count_us b) 0) as [?|_]; [lia|].
  exact IH.
Qed.

Lemma last_seg_counter (a : string) (c : nat) :
  last_seg (a +:+ "_" +:+ show c) = show c.
Proof. apply (last_seg_suffix a (show c)), count_us_show. Qed.

Lemma main_id_build (n : nat) (w : bool) (s : string) :
  main_id n w s = build_id n w s.
Proof. unfold main_id, build_id. simpl. now rewrite append_empty_r. Qed.

Lemma build_id_not_var (n : nat) (w : bool) (s : string) :
  ~ var_key (build_id n w s).
Proof. unfold build_id. simpl. discriminate. Qed.

Lemma renamed_not_var (n : nat) (w : bool) (s : string) (c : nat) :
  ~ var_key (main_id n w s +:+ "_" +:+ show c).
Proof. unfold main_id. simpl. discriminate. Qed.

Lemma var_id_var (n : nat) (w : bool) (s : string) (c : nat) :
  var_key (var_id n w s c).
Proof. unfold var_id. simpl. reflexivity. Qed.

Lemma last_seg_var_id (n : nat) (w : bool) (s : string) (c : nat) :
  last_seg (var_id n w s c) = show c.
Proof.
  unfold var_id.
  assert (Hc : forall x, count_us (x +:+ "_" +:+ show c) <> 0).
  { intros x. rewrite count_us_app. simpl. lia. }
  rewrite (last_seg_app "var") by (simpl; lia).
  rewrite (last_seg_app "_") by (rewrite count_us_app, count_us_app; simpl; lia).
  rewrite (last_seg_app (show n)) by (rewrite count_us_app; simpl; lia).
  rewrite (last_seg_app "_") by (rewrite count_us_app, count_us_app; simpl; lia).
  rewrite (last_seg_app (side_letter w)) by (rewrite count_us_app; simpl; lia).
  rewrite (last_seg_app "_") by apply Hc.
  apply last_seg_counter.
Qed.

Lemma count_us_renamed (n : nat) (w : bool) (s : string) (c : nat) :
  count_us s = 0 -> count_us (main_id n w s +:+ "_" +:+ show c) = 4.
Proof.
  intros Hs. rewrite main_id_build, count_us_app, (count_us_build_id n w s Hs).
  rewrite count_us_app, count_us_show. reflexivity.
Qed.

(** *** [addMove] and [buildFromPGN] keep the invariant *)

Lemma wf_add_result (t : MoveTree) (mv : Move) (p : string)
    (o : outcome (option ref)) (t' : MoveTree) :
  wf t -> add_result t mv p o -> outcome_tree o = Some t' -> wf t'.
Proof.
  intros Hwf Hres Ho.
  assert (Hc : wf (with_idCounter t (S (idCounter t))))
    by (apply wf_with_idCounter; [exact Hwf|lia]).
  destruct Hres as [Hp|pr r Hp Hex|pr Hp Hex|pr Hp Hex
                    |pr node n w o Hp Hex Hm Hi Hkids Hmv Hmain Hid Ho'
                    |pr node n w o Hp Hex Hm Hkids Hmv Hmain Hid Ho'];
    simpl in Ho; try (injection Ho as <-; assumption).
  - assert (t' = push_mainline (with_idCounter t (S (idCounter t))) node) as ->.
    { destruct Ho' as [->| ->]; simpl in Ho; congruence. }
    apply wf_push_mainline; [exact Hc|exact Hkids|].
    destruct Hid as [[-> _]| ->].
    + rewrite main_id_build. apply build_id_not_var.
    + apply renamed_not_var.
  - assert (t' = push_variation (with_idCounter t (S (idCounter t))) pr node) as ->.
    { destruct Ho' as [->| ->]; simpl in Ho; congruence. }
    apply wf_push_variation; [exact Hc| |exact Hkids| |].
    + exact (proj1 (wf_map t Hwf p pr Hp)).
    + simpl. apply var_fresh; [exact Hwf| |]; rewrite Hid.
      * apply var_id_var.
      * apply last_seg_var_id.
    + exists (S (idCounter t)). split; [reflexivity|].
      rewrite Hid. apply last_seg_var_id.
Qed.

Section BuildLoop.

Variable E : Engine.
Variable ok : Move -> Prop.
Variable I : nat -> MoveTree -> Prop.
Variable clockData : jsarray ClockInfo.

(** One round of the loop: the node of ply [p] is pushed. *)
Hypothesis step : forall p t mv node,
  I p t -> ok mv ->
  id node = build_id (moveNo_of p) (white_of p) (m_san mv) ->
  children node = [] -> isMainline node = true ->
  moveNumber node = Some (ply_number (white_of p) (moveNo_of p)) ->
  move node = Some mv -> san node = Some (m_san mv) ->
  I (S p) (push_mainline t node).

Lemma build_loop_inv (history : list Move) :
  Forall ok history ->
  forall index ch p t, I p t ->
    match build_loop E clockData history index ch (moveNo_of p) (white_of p) t with
    | Returned t' _ => I (p + length history) t'
    | Thrown t' => exists q, I q t'
    | Diverged => True
    end.
Proof.
  induction 1 as [|mv rest Hmv Hrest IH]; intros index ch p t Ht; simpl.
  - now rewrite Nat.add_0_r.
  - destruct (find_clock clockData index) as [info|]; [|eauto].
    destruct (chess_move_lan E (m_lan mv) ch) as [ch'|]; [|eauto].
    destruct (ply_step p) as [-> ->].
    replace (p + S (length rest)) with (S p + length rest) by lia.
    apply IH. eapply step; eauto.
Qed.

End BuildLoop.

Lemma deref_reset_old (t : MoveTree) (root : Node) (r : ref) :
  r < length (heap t) -> deref (reset_tree t root) r = deref t r.
Proof. intros Hr. unfold deref. simpl. now rewrite lookup_total_app_l. Qed.

Lemma deref_reset_new (t : MoveTree) (root : Node) :
  deref (reset_tree t root) (length (heap t)) = root.
Proof.
  unfold deref. simpl. rewrite lookup_total_app_r by lia.
  now rewrite Nat.sub_diag.
Qed.

Lemma wf_reset (t : MoveTree) (root : Node) :
  wf t -> id root = "root" -> children root = [] -> wf (reset_tree t root).
Proof.
  intros Hwf Hid Hkids.
  assert (Hlen : length (heap (reset_tree t root)) = S (length (heap t)))
    by (simpl; rewrite length_app; simpl; lia).
  split; rewrite ?Hlen.
  - discriminate.
  - intros r Hr. simpl in Hr. apply list_elem_of_singleton in Hr as ->. lia.
  - intros k r Hk. simpl in Hk. apply lookup_singleton_Some in Hk as [<- <-].
    split; [lia|]. now rewrite deref_reset_new.
  - intros r c Hr Hc.
    destruct (decide (r = length (heap t))) as [->|Hrn].
    + rewrite deref_reset_new, Hkids in Hc. inversion Hc.
    + assert (Hr' : r < length (heap t)) by lia.
      rewrite deref_reset_old in Hc by exact Hr'.
      pose proof (wf_children t Hwf r c Hr' Hc). lia.
  - simpl. lia.
  - intros r Hr. simpl in Hr. injection Hr as <-.
    rewrite deref_reset_new, Hid. simpl. apply lookup_singleton_eq.
  - intros k [r Hk] Hv. simpl in Hk.
    apply lookup_singleton_Some in Hk as [<- _]. simpl in Hv. discriminate.
Qed.

Lemma wf_cursor_to_root (t : MoveTree) :
  wf t ->
  wf (with_cursor t (default (currentNode t) (mainline t !! 0)) (currentIndex t)).
Proof.
  intros Hwf. apply wf_with_cursor; [exact Hwf|].
  destruct (mainline t !! 0) as [r|] eqn:Hr; simpl.
  - apply (wf_main t Hwf). eapply list_elem_of_lookup_2. exact Hr.
  - exact (wf_cursor t Hwf).
Qed.

Lemma wf_build_step (p : nat) (t : MoveTree) (mv : Move) (node : Node) :
  wf t -> any_move mv ->
  id node = build_id (moveNo_of p) (white_of p) (m_san mv) ->
  children node = [] -> isMainline node = true ->
  moveNumber node = Some (ply_number (white_of p) (moveNo_of p)) ->
  move node = Some mv -> san node = Some (m_san mv) ->
  wf (push_mainline t node).
Proof.
  intros Hwf _ Hid Hkids _ _ _ _.
  apply wf_push_mainline; [exact Hwf|exact Hkids|].
  rewrite Hid. apply build_id_not_var.
Qed.

Lemma wf_buildFromPGN (E : Engine) (pgn : string) (ch : option (chess E))
    (t t' : MoveTree) :
  wf t -> outcome_tree (buildFromPGN E pgn ch t) = Some t' -> wf t'.
Proof.
  intros Hwf. unfold buildFromPGN. cbv zeta.
  destruct (extractClockAnnotations pgn) as [cd|]; [|discriminate].
  destruct (chess_loadPgn E pgn _) as [loaded|];
    [|simpl; intros [= <-]; exact Hwf].
  match goal with
  | |- context [build_loop E cd ?h 0 ?c 1 true (reset_tree t ?root)] =>
      pose proof (build_loop_inv E any_move (fun _ => wf) cd wf_build_step
                    h (Forall_true any_move h (fun _ => Logic.I)) 0 c 0
                    (reset_tree t root)
                    (wf_reset t root Hwf eq_refl eq_refl)) as Hloop;
      change (moveNo_of 0) with 1 in Hloop;
      change (white_of 0) with true in Hloop;
      destruct (build_loop E cd h 0 c 1 true (reset_tree t root)) as [t2 []|t2|]
  end; simpl; intros [= <-].
  - now apply wf_cursor_to_root.
  - destruct Hloop as [_ Hq]. exact Hq.
Qed.

Lemma reachable_wf (E : Engine) (ok : Move -> Prop) (t : MoveTree) :
  reachable E ok t -> wf t.
Proof.
  induction 1 as [|t pgn ch t' _ IH _ Ho|t mv p t' _ IH _ Ho|t k _ IH|t k ev _ IH].
  - exact wf_constructor.
  - exact (wf_buildFromPGN E pgn ch t t' IH Ho).
  - exact (wf_add_result t mv p _ t' IH (addMove_result E mv p t) Ho).
  - now apply wf_navigateTo.
  - now apply wf_updateClassification.
Qed.

Lemma reachable_mono (E : Engine) (ok ok' : Move -> Prop) (t : MoveTree) :
  (forall mv, ok mv -> ok' mv) -> reachable E ok t -> reachable E ok' t.
Proof.
  intros Hok. induction 1 as [|t pgn ch t' _ IH Hh Ho|t mv p t' _ IH Hmv Ho
                              |t k _ IH|t k ev _ IH].
  - apply reach_new.
  - eapply reach_build; [exact IH| |exact Ho].
    intros loaded Hl. eapply Forall_impl; [exact (Hh loaded Hl)|exact Hok].
  - eapply reach_add; [exact IH|exact (Hok mv Hmv)|exact Ho].
  - now apply reach_nav.
  - now apply reach_upd.
Qed.

Lemma reachable_game3 : reachable Toy.engine san_ok game3.
Proof.
  eapply (reach_build Toy.engine san_ok constructor
            "1. e2e4 e7e5 2. g1f3" None game3); [apply reach_new| |reflexivity].
  intros loaded Hl. vm_compute in Hl. injection Hl as <-.
  repeat constructor.
Qed.

Lemma reachable_game3_var : reachable Toy.engine san_ok game3_var.
Proof.
  eapply (reach_add Toy.engine san_ok game3 (Toy.mk_move "b1c3" "w")
            "move_1_b_e7e5" game3_var);
    [exact reachable_game3|reflexivity|reflexivity].
Qed.

(** *** Branch isolation *)

Lemma tip_is_parent (t : MoveTree) (p : string) (pr : ref) :
  wf t -> nodeMap t !! p = Some pr ->
  getNodeIndex t (deref t pr) = (Z.of_nat (length (mainline t)) - 1)%Z ->
  last (mainline t) = Some pr.
Proof.
  intros Hwf Hp Hi.
  destruct (wf_map t Hwf p pr Hp) as [_ Hid].
  rewrite getNodeIndex_ids, Hid in Hi.
  assert (Hlen : length (mainline t) <> 0).
  { pose proof (wf_main_ne t Hwf). destruct (mainline t); [congruence|simpl; lia]. }
  destruct (key_index_cases p (ids t)) as [[Hk _]|(i & Hk & Hi' & _)];
    rewrite Hk in Hi; [lia|].
  rewrite ids_lookup in Hi'.
  destruct (mainline t !! i) as [r|] eqn:Hr; [|discriminate].
  simpl in Hi'. injection Hi' as Hi'.
  assert (i = pred (length (mainline t))) as -> by lia.
  rewrite <- last_lookup in Hr.
  pose proof (wf_last t Hwf r Hr) as Hreg.
  rewrite Hi', Hp in Hreg. injection Hreg as ->. exact Hr.
Qed.

Section BranchIsolation.

Variable E : Engine.

(** C5: when the parent is not the last node of the mainline, [addMove]
    leaves the mainline as it is, however the call ends; a node that it
    creates is appended to the children of the parent and is a variation. *)
Theorem addMove_branch_isolation (t : MoveTree) (mv : Move) (p : string) :
  reachable E any_move t ->
  nodeMap t !! p <> last (mainline t) ->
  exists t',
    outcome_tree (addMove E mv p t) = Some t'
    /\ mainline t' = mainline t
    /\ length (mainline t') = length (mainline t)
    /\ (length (heap t) < length (heap t') ->
        exists pr,
          nodeMap t !! p = Some pr
          /\ children (deref t' pr) = children (deref t pr) ++ [length (heap t)]
          /\ isMainline (deref t' (length (heap t))) = false).
Proof.
  intros Hreach Hlast.
  pose proof (reachable_wf E any_move t Hreach) as Hwf.
  destruct (addMove_result E mv p t)
    as [Hp|pr r Hp Hex|pr Hp Hex|pr Hp Hex
        |pr node n w o Hp Hex Hm Hi Hkids Hmv Hmain Hid Ho
        |pr node n w o Hp Hex Hm Hkids Hmv Hmain Hid Ho].
  1-4: eexists; simpl; (split; [reflexivity|]);
       (split; [reflexivity|]); (split; [reflexivity|]);
       intros Hgrow; simpl in Hgrow; lia.
  - exfalso. apply Hlast. rewrite Hp. symmetry.
    exact (tip_is_parent t p pr Hwf Hp Hi).
  - exists (push_variation (with_idCounter t (S (idCounter t))) pr node).
    split; [destruct Ho as [->| ->]; reflexivity|].
    split; [reflexivity|]. split; [reflexivity|].
    intros _. exists pr. split; [exact Hp|].
    pose proof (proj1 (wf_map t Hwf p pr Hp)) as Hpr.
    change (length (heap t))
      with (length (heap (with_idCounter t (S (idCounter t))))).
    rewrite deref_pushvar_new, deref_pushvar_old by exact Hpr.
    rewrite decide_True by reflexivity.
    split; [reflexivity|exact Hmain].
Qed.

End BranchIsolation.

Lemma addMove_branch_isolation_witness :
  exists t',
    outcome_tree (addMove Toy.engine (Toy.mk_move "b1c3" "w") "move_1_b_e7e5" game3)
      = Some t'
    /\ mainline t' = mainline game3
    /\ length (mainline t') = length (mainline game3)
    /\ (length (heap game3) < length (heap t') ->
        exists pr,
          nodeMap game3 !! "move_1_b_e7e5" = Some pr
          /\ children (deref t' pr)
             = children (deref game3 pr) ++ [length (heap game3)]
          /\ isMainline (deref t' (length (heap game3))) = false).
Proof.
  apply (addMove_branch_isolation Toy.engine game3 (Toy.mk_move "b1c3" "w")
           "move_1_b_e7e5").
  - exact (reachable_mono Toy.engine san_ok any_move game3
             (fun _ _ => Logic.I) reachable_game3).
  - vm_compute. discriminate.
Defined.

(** *** Insertion is idempotent *)

Lemma same_move_refl (mv : Move) (n : Node) :
  move n = Some mv -> same_move mv n = true.
Proof.
  intros Hm. unfold same_move. rewrite Hm.
  now rewrite !bool_decide_eq_true_2.
Qed.

Lemma same_move_ext (mv : Move) (n n' : Node) :
  move n = move n' -> same_move mv n = same_move mv n'.
Proof. intros Hm. unfold same_move. now rewrite Hm. Qed.

Lemma mainlineSuccessor_after_push (t : MoveTree) (node n2 : Node) (mv : Move) :
  wf t -> isMainline n2 = true ->
  key_index (id n2) (ids t) = (Z.of_nat (length (mainline t)) - 1)%Z ->
  move node = Some mv ->
  mainlineSuccessor (push_mainline t node) n2 mv = Some (length (heap t)).
Proof.
  intros Hwf Hm Hi Hmv. unfold mainlineSuccessor. rewrite Hm.
  assert (Hlen : length (mainline t) <> 0).
  { pose proof (wf_main_ne t Hwf). destruct (mainline t); [congruence|simpl; lia]. }
  rewrite getNodeIndex_ids, (ids_push t node (wf_main t Hwf)).
  rewrite key_index_app_l by (rewrite Hi; lia).
  rewrite Hi. cbn [mainline push_mainline].
  rewrite length_app. cbn [length].
  replace (Z.of_nat (length (mainline t)) - 1 =? -1)%Z with false
    by (symmetry; apply Z.eqb_neq; lia).
  replace (Z.of_nat (length (mainline t)) - 1 + 1
             <? Z.of_nat (length (mainline t) + 1))%Z with true
    by (symmetry; apply Z.ltb_lt; lia).
  cbn [negb andb].
  replace (Z.to_nat (Z.of_nat (length (mainline t)) - 1 + 1))
    with (length (mainline t) + 0) by lia.
  rewrite lookup_app_r by lia.
  replace (length (mainline t) + 0 - length (mainline t)) with 0 by lia.
  cbn [lookup list_lookup].
  now rewrite deref_push_new, (same_move_refl mv node Hmv).
Qed.

Lemma mainlineSuccessor_frame (t t' : MoveTree) (n n' : Node) (mv : Move) :
  isMainline n' = isMainline n -> id n' = id n ->
  mainline t' = mainline t ->
  (forall r, r ∈ mainline t ->
             id (deref t' r) = id (deref t r)
             /\ move (deref t' r) = move (deref t r)) ->
  mainlineSuccessor t' n' mv = mainlineSuccessor t n mv.
Proof.
  intros Hm Hid Hmain Hsame. unfold mainlineSuccessor.
  rewrite Hm, !getNodeIndex_ids, Hid, Hmain.
  rewrite (ids_frame t t' Hmain (fun r Hr => proj1 (Hsame r Hr))).
  destruct (isMainline n); [|reflexivity].
  destruct (_ && _); [|reflexivity].
  destruct (mainline t !! _) as [r|] eqn:Hr; [|reflexivity].
  rewrite (same_move_ext mv (deref t' r) (deref t r)); [reflexivity|].
  apply Hsame. eapply list_elem_of_lookup_2. exact Hr.
Qed.

Lemma find_child_after_push (t : MoveTree) (pr : ref) (node : Node) (mv : Move) :
  wf t -> pr < length (heap t) -> move node = Some mv ->
  list_find (fun c => same_move mv (deref t c) = true) (children (deref t pr)) = None ->
  snd <$> list_find (fun c => same_move mv (deref (push_variation t pr node) c) = true)
            (children (deref t pr) ++ [length (heap t)])
  = Some (length (heap t)).
Proof.
  intros Hwf Hpr Hmv Hnone.
  rewrite list_find_app_r.
  - cbn [list_find]. rewrite decide_True; [reflexivity|].
    rewrite deref_pushvar_new. exact (same_move_refl mv node Hmv).
  - apply list_find_None. apply list_find_None in Hnone.
    rewrite Forall_forall in *. intros c Hc.
    rewrite (same_move_ext mv _ (deref t c)); [exact (Hnone c Hc)|].
    apply move_pushvar_old. exact (wf_children t Hwf pr c Hpr Hc).
Qed.

Lemma findExistingMove_None (t : MoveTree) (n : Node) (mv : Move) :
  findExistingMove t n mv = None ->
  mainlineSuccessor t n mv = None
  /\ list_find (fun c => same_move mv (deref t c) = true) (children n) = None.
Proof.
  unfold findExistingMove.
  destruct (mainlineSuccessor t n mv); [discriminate|].
  destruct (list_find _ (children n)); [discriminate|auto].
Qed.

Section Idempotence.

Variable E : Engine.

Lemma addMove_found (t : MoveTree) (mv : Move) (p : string) (pr r : ref) :
  nodeMap t !! p = Some pr ->
  findExistingMove t (deref t pr) mv = Some r ->
  addMove E mv p t = Returned t (Some r).
Proof. intros Hp Hex. unfold addMove. cbv zeta. now rewrite Hp, Hex. Qed.

(** With a known parent and an engine that accepts the position of the
    parent, the move, and the position it started from, the call returns a
    node. *)
Lemma addMove_returns (t : MoveTree) (mv : Move) (p : string) (pr : ref)
    (ch1 ch2 ch3 : chess E) :
  nodeMap t !! p = Some pr ->
  chess_load E (fen (deref t pr)) (new_Chess E) = Some ch1 ->
  chess_move E mv ch1 = Some ch2 ->
  chess_load E (Some (chess_fen E (new_Chess E))) ch2 = Some ch3 ->
  exists t1 r, addMove E mv p t = Returned t1 (Some r).
Proof.
  intros Hp H1 H2 H3. unfold addMove. cbv zeta. rewrite Hp.
  destruct (findExistingMove t (deref t pr) mv); [eauto|].
  rewrite H1, H2, H3. eauto.
Qed.

Lemma addMove_again_main (t : MoveTree) (node : Node) (p : string) (pr : ref)
    (mv : Move) :
  wf t -> nodeMap t !! p = Some pr ->
  isMainline (deref t pr) = true ->
  getNodeIndex t (deref t pr) = (Z.of_nat (length (mainline t)) - 1)%Z ->
  move node = Some mv -> isMainline node = true ->
  addMove E mv p (push_mainline t node)
  = Returned (push_mainline t node) (Some (length (heap t))).
Proof.
  intros Hwf Hp Hm Hi Hmv Hmain.
  destruct (wf_map t Hwf p pr Hp) as [Hpr Hid].
  rewrite getNodeIndex_ids, Hid in Hi.
  destruct (decide (id node = p)) as [Heq|Hne].
  - apply (addMove_found _ mv p (length (heap t))).
    + simpl. rewrite Heq. apply lookup_insert_eq.
    + unfold findExistingMove. rewrite deref_push_new.
      rewrite (mainlineSuccessor_after_push t node node mv Hwf Hmain); auto.
      now rewrite Heq.
  - apply (addMove_found _ mv p pr).
    + simpl. now rewrite lookup_insert_ne.
    + unfold findExistingMove. rewrite deref_push_old by exact Hpr.
      rewrite (mainlineSuccessor_after_push t node (deref t pr) mv Hwf Hm); auto.
      now rewrite Hid.
Qed.

Lemma addMove_again_var (t : MoveTree) (node : Node) (p : string) (pr : ref)
    (mv : Move) :
  wf t -> nodeMap t !! p = Some pr -> nodeMap t !! id node = None ->
  findExistingMove t (deref t pr) mv = None ->
  move node = Some mv ->
  addMove E mv p (push_variation t pr node)
  = Returned (push_variation t pr node) (Some (length (heap t))).
Proof.
  intros Hwf Hp Hfresh Hex Hmv.
  destruct (wf_map t Hwf p pr Hp) as [Hpr Hid].
  apply findExistingMove_None in Hex as [Hsucc Hkids].
  apply (addMove_found _ mv p pr).
  - simpl. rewrite lookup_insert_ne; [exact Hp|]. congruence.
  - unfold findExistingMove.
    rewrite (mainlineSuccessor_frame t (push_variation t pr node)
               (deref t pr) _ mv), Hsucc.
    + rewrite deref_pushvar_old by exact Hpr.
      rewrite decide_True by reflexivity.
      cbn [children with_children].
      now apply find_child_after_push.
    + rewrite deref_pushvar_old by exact Hpr.
      now rewrite decide_True by reflexivity.
    + now apply id_pushvar_old.
    + reflexivity.
    + intros r Hr. pose proof (wf_main t Hwf r Hr) as Hrv.
      split; [now apply id_pushvar_old|now apply move_pushvar_old].
Qed.

(** C4: when [addMove(m, p)] has returned for a parent id [p] of the tree,
    the same call again returns the same node (so the same id) and leaves
    the tree as it is: the mainline keeps its length and every node keeps
    its number of children. *)
Theorem addMove_idempotent (t t1 : MoveTree) (mv : Move) (p : string)
    (r1 : option ref) :
  reachable E any_move t ->
  is_Some (nodeMap t !! p) ->
  addMove E mv p t = Returned t1 r1 ->
  exists n t2,
    r1 = Some n
    /\ addMove E mv p t1 = Returned t2 (Some n)
    /\ id (deref t2 n) = id (deref t1 n)
    /\ length (mainline t2) = length (mainline t1)
    /\ (forall r, length (children (deref t2 r)) = length (children (deref t1 r)))
    /\ t2 = t1.
Proof.
  intros Hreach [pr Hp] H1.
  pose proof (reachable_wf E any_move t Hreach) as Hwf.
  assert (Hc : wf (with_idCounter t (S (idCounter t))))
    by (apply wf_with_idCounter; [exact Hwf|lia]).
  enough (exists n, r1 = Some n /\ addMove E mv p t1 = Returned t1 (Some n))
    as (n & -> & H2) by (exists n, t1; auto 10).
  pose proof (addMove_result E mv p t) as Hres. rewrite H1 in Hres.
  inversion Hres
    as [Hp'|pr' r Hp' Hex|pr' Hp' Hex|pr' Hp' Hex
        |pr' node n w o Hp' Hex Hm Hi Hkids Hmv Hmain Hid Ho
        |pr' node n w o Hp' Hex Hm Hkids Hmv Hmain Hid Ho]; subst.
  - congruence.
  - exists r. split; [reflexivity|exact H1].
  - destruct Ho as [[= -> ->]|[=]].
    exists (length (heap t)). split; [reflexivity|].
    rewrite Hp in Hp'. injection Hp' as <-.
    exact (addMove_again_main _ node p pr mv Hc Hp Hm Hi Hmv Hmain).
  - destruct Ho as [[= -> ->]|[=]].
    exists (length (heap t)). split; [reflexivity|].
    rewrite Hp in Hp'. injection Hp' as <-.
    apply (addMove_again_var _ node p pr mv Hc Hp); [|exact Hex|exact Hmv].
    simpl. apply var_fresh; [exact Hwf| |]; rewrite Hid.
    + apply var_id_var.
    + apply last_seg_var_id.
Qed.

End Idempotence.

Lemma addMove_idempotent_witness :
  exists n t2,
    Some 5 = Some n
    /\ addMove Toy.engine (Toy.mk_move "b1c3" "w") "move_1_b_e7e5" game3_var
       = Returned t2 (Some n)
    /\ id (deref t2 n) = id (deref game3_var n)
    /\ length (mainline t2) = length (mainline game3_var)
    /\ (forall r, length (children (deref t2 r))
                  = length (children (deref game3_var r)))
    /\ t2 = game3_var.
Proof.
  apply (addMove_idempotent Toy.engine game3 game3_var
           (Toy.mk_move "b1c3" "w") "move_1_b_e7e5" (Some 5)).
  - exact (reachable_mono Toy.engine san_ok any_move game3
             (fun _ _ => Logic.I) reachable_game3).
  - vm_compute. eexists. reflexivity.
  - vm_compute. reflexivity.
Defined.

(** *** With moves in standard notation, ids on the mainline are unique *)

Lemma wf_ids_constructor : wf_ids constructor.
Proof.
  split.
  - unfold ids. simpl. apply NoDup_singleton.
  - intros r Hr. simpl in Hr. apply list_elem_of_singleton in Hr as ->.
    reflexivity.
  - intros k [r Hk] Hc. simpl in Hk.
    apply lookup_singleton_Some in Hk as [<- _]. simpl in Hc. discriminate.
Qed.

Lemma wf_ids_with_idCounter (t : MoveTree) (c : nat) :
  wf_ids t -> idCounter t <= c -> wf_ids (with_idCounter t c).
Proof.
  intros [Hnd Hreg Hkeys] Hc. split; try assumption.
  intros k Hk H4. destruct (Hkeys k Hk H4) as (j & Hj & Hs).
  exists j. simpl. split; [lia|exact Hs].
Qed.

Lemma wf_ids_with_cursor (t : MoveTree) (r : ref) (i : Z) :
  wf_ids t -> wf_ids (with_cursor t r i).
Proof. intros [Hnd Hreg Hkeys]. split; assumption. Qed.

Lemma id_store (t : MoveTree) (r r' : ref) (n : Node) :
  id n = id (deref t r) -> id (deref (store t r n) r') = id (deref t r').
Proof.
  intros Hid. destruct (decide (r = r')) as [<-|Hne].
  - destruct (decide (r < length (heap t))) as [Hlt|Hge].
    + now rewrite deref_store_eq.
    + unfold deref, store. simpl. now rewrite list_insert_ge by lia.
  - now rewrite deref_store_ne.
Qed.

Lemma wf_ids_store (t : MoveTree) (r : ref) (n : Node) :
  wf_ids t -> id n = id (deref t r) -> wf_ids (store t r n).
Proof.
  intros [Hnd Hreg Hkeys] Hid. split.
  - rewrite (ids_frame t (store t r n)); [exact Hnd|reflexivity|].
    intros r' _. now apply id_store.
  - intros r' Hr'. rewrite id_store by exact Hid. exact (Hreg r' Hr').
  - exact Hkeys.
Qed.

Lemma elem_of_ids (t : MoveTree) (k : string) :
  k ∈ ids t -> exists r, r ∈ mainline t /\ id (deref t r) = k.
Proof.
  unfold ids. intros Hk. apply list_elem_of_fmap in Hk as (r & -> & Hr). eauto.
Qed.

Lemma wf_ids_push (t : MoveTree) (node : Node) :
  wf t -> wf_ids t -> nodeMap t !! id node = None ->
  (count_us (id node) = 4 ->
   exists j, j <= idCounter t /\ last_seg (id node) = show j) ->
  wf_ids (push_mainline t node).
Proof.
  intros Hwf [Hnd Hreg Hkeys] Hfresh Hshape. split.
  - rewrite (ids_push t node (wf_main t Hwf)).
    apply NoDup_app. split; [exact Hnd|]. split; [|apply NoDup_singleton].
    intros k Hk Hk'. apply list_elem_of_singleton in Hk' as ->.
    apply elem_of_ids in Hk as (r & Hr & Hid).
    specialize (Hreg r Hr). rewrite Hid in Hreg. congruence.
  - intros r Hr. simpl in Hr. apply elem_of_app in Hr as [Hr|Hr].
    + rewrite deref_push_old by exact (wf_main t Hwf r Hr).
      simpl. specialize (Hreg r Hr).
      rewrite lookup_insert_ne; [exact Hreg|]. congruence.
    + apply list_elem_of_singleton in Hr as ->.
      rewrite deref_push_new. simpl. apply lookup_insert_eq.
  - intros k Hk H4. simpl in *.
    destruct (decide (id node = k)) as [<-|Hne]; [exact (Hshape H4)|].
    rewrite lookup_insert_ne in Hk by exact Hne. exact (Hkeys k Hk H4).
Qed.

Lemma wf_ids_push_variation (t : MoveTree) (pr : ref) (node : Node) :
  wf t -> wf_ids t -> nodeMap t !! id node = None ->
  (exists j, j <= idCounter t /\ last_seg (id node) = show j) ->
  wf_ids (push_variation t pr node).
Proof.
  intros Hwf [Hnd Hreg Hkeys] Hfresh Hshape. split.
  - rewrite (ids_frame t (push_variation t pr node)); [exact Hnd|reflexivity|].
    intros r Hr. apply id_pushvar_old. exact (wf_main t Hwf r Hr).
  - intros r Hr. simpl in Hr.
    rewrite id_pushvar_old by exact (wf_main t Hwf r Hr).
    simpl. specialize (Hreg r Hr).
    rewrite lookup_insert_ne; [exact Hreg|]. congruence.
  - intros k Hk H4. simpl in *.
    destruct (decide (id node = k)) as [<-|Hne]; [exact Hshape|].
    rewrite lookup_insert_ne in Hk by exact Hne. exact (Hkeys k Hk H4).
Qed.

Lemma wf_ids_reset (t : MoveTree) (root : Node) :
  id root = "root" -> wf_ids (reset_tree t root).
Proof.
  intros Hid. split.
  - unfold ids. simpl. apply NoDup_singleton.
  - intros r Hr. simpl in Hr. apply list_elem_of_singleton in Hr as ->.
    rewrite deref_reset_new, Hid. simpl. apply lookup_singleton_eq.
  - intros k [r Hk] Hc. simpl in Hk.
    apply lookup_singleton_Some in Hk as [<- _]. simpl in Hc. discriminate.
Qed.

Lemma wf_ids_add_result (t : MoveTree) (mv : Move) (p : string)
    (o : outcome (option ref)) (t' : MoveTree) :
  wf t -> wf_ids t -> san_ok mv ->
  add_result t mv p o -> outcome_tree o = Some t' -> wf_ids t'.
Proof.
  intros Hwf Hids Hsan Hres Ho.
  assert (Hc : wf (with_idCounter t (S (idCounter t))))
    by (apply wf_with_idCounter; [exact Hwf|lia]).
  assert (Hc' : wf_ids (with_idCounter t (S (idCounter t))))
    by (apply wf_ids_with_idCounter; [exact Hids|lia]).
  destruct Hres as [Hp|pr r Hp Hex|pr Hp Hex|pr Hp Hex
                    |pr node n w o Hp Hex Hm Hi Hkids Hmv Hmain Hid Ho'
                    |pr node n w o Hp Hex Hm Hkids Hmv Hmain Hid Ho'];
    simpl in Ho; try (injection Ho as <-; assumption).
  - assert (t' = push_mainline (with_idCounter t (S (idCounter t))) node) as ->.
    { destruct Ho' as [->| ->]; simpl in Ho; congruence. }
    destruct Hid as [[Hid Hfresh]|Hid].
    + apply wf_ids_push; [exact Hc|exact Hc'|exact Hfresh|].
      rewrite Hid, main_id_build, (count_us_build_id n w _ Hsan). discriminate.
    + apply wf_ids_push; [exact Hc|exact Hc'| |].
      * simpl. destruct (nodeMap t !! id node) as [r|] eqn:Hk; [|reflexivity].
        exfalso.
        destruct (ids_keys t Hids (id node) (mk_is_Some _ _ Hk)) as (j & Hj & Hs).
        { rewrite Hid. now apply count_us_renamed. }
        rewrite Hid, last_seg_counter in Hs. apply show_inj in Hs. lia.
      * intros _. exists (S (idCounter t)). split; [reflexivity|].
        rewrite Hid. apply last_seg_counter.
  - assert (t' = push_variation (with_idCounter t (S (idCounter t))) pr node) as ->.
    { destruct Ho' as [->| ->]; simpl in Ho; congruence. }
    apply wf_ids_push_variation; [exact Hc|exact Hc'| |].
    + simpl. apply var_fresh; [exact Hwf| |]; rewrite Hid.
      * apply var_id_var.
      * apply last_seg_var_id.
    + exists (S (idCounter t)). split; [reflexivity|].
      rewrite Hid. apply last_seg_var_id.
Qed.

Lemma built_keys_fresh (p : nat) (t : MoveTree) (s : string) :
  built_keys p t ->
  nodeMap t !! build_id (moveNo_of p) (white_of p) s = None.
Proof.
  intros Hb.
  destruct (nodeMap t !! _) as [r|] eqn:Hk; [|reflexivity].
  exfalso.
  destruct (Hb _ (mk_is_Some _ _ Hk)) as [Hroot|(q & u & Hq & _ & Heq)].
  - unfold build_id in Hroot. simpl in Hroot. discriminate.
  - apply build_id_inj in Heq as [Hn Hw].
    pose proof (ply_inj p q Hn Hw). lia.
Qed.

Lemma wf_ids_build_step (p : nat) (t : MoveTree) (mv : Move) (node : Node) :
  wf t /\ wf_ids t /\ built_keys p t -> san_ok mv ->
  id node = build_id (moveNo_of p) (white_of p) (m_san mv) ->
  children node = [] -> isMainline node = true ->
  moveNumber node = Some (ply_number (white_of p) (moveNo_of p)) ->
  move node = Some mv -> san node = Some (m_san mv) ->
  wf (push_mainline t node) /\ wf_ids (push_mainline t node)
  /\ built_keys (S p) (push_mainline t node).
Proof.
  intros (Hwf & Hids & Hb) Hsan Hid Hkids Hmain Hnum Hmv Hs.
  split; [now apply (wf_build_step p t mv node)|].
  split.
  - apply wf_ids_push; [exact Hwf|exact Hids| |].
    + rewrite Hid. now apply built_keys_fresh.
    + rewrite Hid, (count_us_build_id _ _ _ Hsan). discriminate.
  - intros k Hk. simpl in Hk.
    destruct (decide (id node = k)) as [<-|Hne].
    + right. exists p, (m_san mv). split; [lia|]. split; [exact Hsan|exact Hid].
    + rewrite lookup_insert_ne in Hk by exact Hne.
      destruct (Hb k Hk) as [->|(q & u & Hq & Hu & ->)]; [now left|].
      right. exists q, u. split; [lia|auto].
Qed.

Lemma wf_ids_buildFromPGN (E : Engine) (pgn : string) (ch : option (chess E))
    (t t' : MoveTree) :
  wf t -> wf_ids t ->
  (forall loaded,
      chess_loadPgn E pgn (default (new_Chess E) ch) = Some loaded ->
      Forall san_ok (chess_history E loaded)) ->
  outcome_tree (buildFromPGN E pgn ch t) = Some t' -> wf_ids t'.
Proof.
  intros Hwf Hids Hsan. unfold buildFromPGN. cbv zeta.
  destruct (extractClockAnnotations pgn) as [cd|]; [|discriminate].
  destruct (chess_loadPgn E pgn _) as [loaded|] eqn:Hl;
    [|simpl; intros [= <-]; exact Hids].
  match goal with
  | |- context [build_loop E cd ?h 0 ?c 1 true (reset_tree t ?root)] =>
      assert (Hstart : wf (reset_tree t root) /\ wf_ids (reset_tree t root)
                       /\ built_keys 0 (reset_tree t root));
      [|pose proof (build_loop_inv E san_ok
                      (fun p t0 => wf t0 /\ wf_ids t0 /\ built_keys p t0) cd
                      wf_ids_build_step h (Hsan loaded eq_refl) 0 c 0
                      (reset_tree t root) Hstart) as Hloop;
        change (moveNo_of 0) with 1 in Hloop;
        change (white_of 0) with true in Hloop;
        destruct (build_loop E cd h 0 c 1 true (reset_tree t root)) as [t2 []|t2|]]
  end.
  - split; [now apply wf_reset|]. split; [now apply wf_ids_reset|].
    intros k [r Hk]. simpl in Hk.
    apply lookup_singleton_Some in Hk as [<- _]. now left.
  - simpl. intros [= <-]. apply wf_ids_with_cursor. exact (proj1 (proj2 Hloop)).
  - simpl. intros [= <-]. destruct Hloop as [_ [_ [Hq _]]]. exact Hq.
  - discriminate.
Qed.

Lemma reachable_wf_ids (E : Engine) (t : MoveTree) :
  reachable E san_ok t -> wf_ids t.
Proof.
  intros Hreach.
  induction Hreach as [|t pgn ch t' Hr IH Hh Ho|t mv p t' Hr IH Hmv Ho
                       |t k Hr IH|t k ev Hr IH].
  - exact wf_ids_constructor.
  - exact (wf_ids_buildFromPGN E pgn ch t t'
             (reachable_wf E san_ok t Hr) IH Hh Ho).
  - exact (wf_ids_add_result t mv p _ t' (reachable_wf E san_ok t Hr) IH Hmv
             (addMove_result E mv p t) Ho).
  - unfold navigateTo. destruct (nodeMap t !! k); [|exact IH].
    simpl. now apply wf_ids_with_cursor.
  - unfold updateClassification. destruct (nodeMap t !! k); [|exact IH].
    now apply wf_ids_store.
Qed.

(** *** Walking along the mainline *)

Lemma getNodeIndex_mainline (t : MoveTree) (k : nat) (n : ref) :
  wf_ids t -> mainline t !! k = Some n ->
  getNodeIndex t (deref t n) = Z.of_nat k.
Proof.
  intros Hids Hk. rewrite getNodeIndex_ids.
  apply key_index_nodup; [exact (ids_nodup t Hids)|].
  rewrite ids_lookup, Hk. reflexivity.
Qed.

Lemma mainline_refs_inj (t : MoveTree) (i j : nat) (n : ref) :
  wf_ids t -> mainline t !! i = Some n -> mainline t !! j = Some n -> i = j.
Proof.
  intros Hids Hi Hj.
  eapply (NoDup_lookup (ids t) i j (id (deref t n)) (ids_nodup t Hids));
    rewrite ids_lookup; [rewrite Hi|rewrite Hj]; reflexivity.
Qed.

Lemma navigateTo_mainline (t : MoveTree) (k : nat) (n : ref) :
  wf_ids t -> mainline t !! k = Some n ->
  navigateTo (id (deref t n)) t = (with_cursor t n (Z.of_nat k), Some n).
Proof.
  intros Hids Hk. unfold navigateTo.
  rewrite (ids_reg t Hids n (list_elem_of_lookup_2 _ _ _ Hk)).
  rewrite (getNodeIndex_mainline t k n Hids Hk).
  replace (Z.of_nat k =? -1)%Z with false by (symmetry; apply Z.eqb_neq; lia).
  reflexivity.
Qed.

Lemma getPreviousMove_mainline (t : MoveTree) (k : nat) (n : ref) :
  wf_ids t -> 1 <= k -> mainline t !! k = Some n -> currentNode t = n ->
  getPreviousMove t = mainline t !! (k - 1).
Proof.
  intros Hids Hk1 Hk Hcur. unfold getPreviousMove. rewrite Hcur.
  rewrite bool_decide_eq_false_2.
  - rewrite (getNodeIndex_mainline t k n Hids Hk).
    replace (0 <? Z.of_nat k)%Z with true by (symmetry; apply Z.ltb_lt; lia).
    f_equal. lia.
  - intros H0. pose proof (mainline_refs_inj t 0 k n Hids H0 Hk). lia.
Qed.

Lemma getNextMove_mainline (t : MoveTree) (k : nat) (p : ref) :
  wf_ids t -> mainline t !! k = Some p -> S k < length (mainline t) ->
  currentNode t = p ->
  getNextMove t = mainline t !! S k.
Proof.
  intros Hids Hk Hlen Hcur. unfold getNextMove. rewrite Hcur.
  rewrite (getNodeIndex_mainline t k p Hids Hk).
  replace (Z.of_nat k =? -1)%Z with false by (symmetry; apply Z.eqb_neq; lia).
  replace (Z.of_nat k <? Z.of_nat (length (mainline t)) - 1)%Z with true
    by (symmetry; apply Z.ltb_lt; lia).
  cbn [negb andb]. f_equal. lia.
Qed.

Section Navigation.

Variable E : Engine.

(** C6: for a mainline node [n] other than the root, with the cursor moved
    to [n], [getPreviousMove] returns a node [p]; with the cursor moved to
    [p], [getNextMove] returns [n]. *)
Theorem navigation_symmetry (t : MoveTree) (k : nat) (n : ref) :
  reachable E san_ok t ->
  1 <= k -> mainline t !! k = Some n ->
  let t1 := fst (navigateTo (id (deref t n)) t) in
  exists p,
    currentNode t1 = n
    /\ getPreviousMove t1 = Some p
    /\ let t2 := fst (navigateTo (id (deref t1 p)) t1) in
       currentNode t2 = p /\ getNextMove t2 = Some n.
Proof.
  intros Hreach Hk1 Hk.
  pose proof (reachable_wf_ids E t Hreach) as Hids.
  assert (Hlt : k < length (mainline t)) by (eapply lookup_lt_Some; exact Hk).
  destruct (mainline t !! (k - 1)) as [p|] eqn:Hp;
    [|apply lookup_ge_None in Hp; lia].
  cbv zeta. rewrite (navigateTo_mainline t k n Hids Hk). cbn [fst].
  assert (Hids1 : wf_ids (with_cursor t n (Z.of_nat k)))
    by now apply wf_ids_with_cursor.
  exists p. split; [reflexivity|]. split.
  - rewrite (getPreviousMove_mainline _ k n Hids1 Hk1 Hk eq_refl). exact Hp.
  - rewrite (navigateTo_mainline _ (k - 1) p Hids1 Hp). cbn [fst].
    split; [reflexivity|].
    rewrite (getNextMove_mainline _ (k - 1) p); cbn [mainline with_cursor].
    + replace (S (k - 1)) with k by lia. exact Hk.
    + now apply wf_ids_with_cursor.
    + exact Hp.
    + lia.
    + reflexivity.
Qed.

End Navigation.

Lemma navigation_symmetry_witness :
  let t1 := fst (navigateTo (id (deref game3 3)) game3) in
  exists p,
    currentNode t1 = 3
    /\ getPreviousMove t1 = Some p
    /\ let t2 := fst (navigateTo (id (deref t1 p)) t1) in
       currentNode t2 = p /\ getNextMove t2 = Some 3.
Proof.
  apply (navigation_symmetry Toy.engine game3 2 3).
  - exact reachable_game3.
  - lia.
  - vm_compute. reflexivity.
Defined.

Lemma getPathToNode_mainline (t : MoveTree) (k : nat) (n : ref) :
  wf_ids t -> mainline t !! k = Some n ->
  getPathToNode (id (deref t n)) t = Some (take k (drop 1 (mainline t)))
  /\ length (take k (drop 1 (mainline t))) = k
  /\ forall r0, mainline t !! 0 = Some r0 -> r0 ∉ take k (drop 1 (mainline t)).
Proof.
  intros Hids Hk.
  assert (Hlt : k < length (mainline t)) by (eapply lookup_lt_Some; exact Hk).
  split; [|split].
  - unfold getPathToNode.
    rewrite (ids_reg t Hids n (list_elem_of_lookup_2 _ _ _ Hk)).
    rewrite (getNodeIndex_mainline t k n Hids Hk).
    replace (Z.of_nat k =? -1)%Z with false by (symmetry; apply Z.eqb_neq; lia).
    cbn [negb]. do 2 f_equal. lia.
  - rewrite length_take, length_drop. lia.
  - intros r0 H0 Hin.
    apply list_elem_of_lookup_1 in Hin as [i Hi].
    apply lookup_take_Some in Hi as [Hi _].
    rewrite lookup_drop in Hi.
    pose proof (mainline_refs_inj t 0 (1 + i) r0 Hids H0 Hi). lia.
Qed.

(** *** What [buildFromPGN] leaves behind *)

Section Rebuild.

Variable E : Engine.

Lemma extract_no_clock (pgn : string) :
  clockMatchesOf pgn = [] -> extractClockAnnotations pgn = Some [].
Proof.
  unfold extractClockAnnotations, clockMatchesOf. cbv zeta.
  intros ->. reflexivity.
Qed.

Lemma build_loop_returns (history : list Move) :
  forall index ch n w t,
    is_Some (replay_lans E (m_lan <$> history) ch) ->
    exists t', build_loop E [] history index ch n w t = Returned t' tt.
Proof.
  induction history as [|mv rest IH]; intros index ch n w t Hplay; simpl.
  - eauto.
  - simpl in Hplay.
    destruct (chess_move_lan E (m_lan mv) ch) as [ch'|];
      [|destruct Hplay; discriminate].
    apply IH. exact Hplay.
Qed.

Lemma ply_number_value (p : nat) :
  (ply_number (white_of p) (moveNo_of p) == Z.of_nat (p + 2) # 2)%Q.
Proof.
  unfold white_of, moveNo_of, ply_number.
  destruct (parity_cases p) as [[k [-> Hk]]|[k [-> Hk]]]; rewrite Hk.
  - rewrite half_even. unfold Qeq, inject_Z. cbn [Qnum Qden]. clear Hk. lia.
  - rewrite half_odd. unfold Qeq, Qplus, inject_Z. cbn [Qnum Qden]. clear Hk. lia.
Qed.

Lemma numbered_step (p : nat) (t : MoveTree) (mv : Move) (node : Node) :
  numbered p t -> any_move mv ->
  id node = build_id (moveNo_of p) (white_of p) (m_san mv) ->
  children node = [] -> isMainline node = true ->
  moveNumber node = Some (ply_number (white_of p) (moveNo_of p)) ->
  move node = Some mv -> san node = Some (m_san mv) ->
  numbered (S p) (push_mainline t node).
Proof.
  intros [Hlen Hnum] _ _ _ _ Hq _ _. split.
  - simpl. rewrite length_app, Hlen. simpl. lia.
  - intros k r Hk Hr. rewrite length_heap_push. simpl in Hr.
    apply lookup_app_Some in Hr as [Hr|[Hge Hr]].
    + destruct (Hnum k r Hk Hr) as (Hrv & q & Hq' & Hv).
      split; [lia|]. exists q. now rewrite deref_push_old.
    + apply list_lookup_singleton_Some in Hr as [Hk' <-].
      split; [lia|]. rewrite deref_push_new.
      eexists. split; [exact Hq|].
      rewrite ply_number_value. replace (k + 1) with (p + 2) by lia.
      reflexivity.
Qed.

Lemma rooted_step (r0 : ref) (root : Node) (p : nat) (t : MoveTree) (mv : Move)
    (node : Node) :
  rooted r0 root p t -> any_move mv ->
  id node = build_id (moveNo_of p) (white_of p) (m_san mv) ->
  children node = [] -> isMainline node = true ->
  moveNumber node = Some (ply_number (white_of p) (moveNo_of p)) ->
  move node = Some mv -> san node = Some (m_san mv) ->
  rooted r0 root (S p) (push_mainline t node).
Proof.
  intros (H0 & Hi & Hr & Hd) _ _ _ _ _ _ _. repeat split.
  - simpl. now apply lookup_app_l_Some.
  - exact Hi.
  - rewrite length_heap_push. lia.
  - now rewrite deref_push_old.
Qed.

End Rebuild.

Section RebuildTheorems.

Variable E : Engine.

Lemma buildFromPGN_rooted (pgn : string) (ch : option (chess E))
    (t t' : MoveTree) (h : list Move) :
  buildFromPGN E pgn ch t = Returned t' h ->
  currentNode t' = length (heap t)
  /\ exists fen0, rooted (length (heap t)) (build_root fen0) (length h) t'.
Proof.
  unfold buildFromPGN. cbv zeta.
  destruct (extractClockAnnotations pgn) as [cd|]; [|discriminate].
  destruct (chess_loadPgn E pgn _) as [loaded|]; [|discriminate].
  match goal with
  | |- context [build_loop E cd ?hist 0 ?c 1 true (reset_tree t ?root)] =>
      assert (Hstart : rooted (length (heap t)) root 0 (reset_tree t root));
      [|pose proof (build_loop_inv E any_move (rooted (length (heap t)) root)
                      cd (rooted_step (length (heap t)) root) hist
                      (Forall_true any_move hist (fun _ => Logic.I)) 0 c 0
                      (reset_tree t root) Hstart) as Hloop;
        change (moveNo_of 0) with 1 in Hloop;
        change (white_of 0) with true in Hloop;
        destruct (build_loop E cd hist 0 c 1 true (reset_tree t root))
          as [t2 []|t2|]; [|discriminate..]]
  end.
  - repeat split.
    + simpl. rewrite length_app. simpl. lia.
    + apply deref_reset_new.
  - intros [= <- <-]. destruct Hloop as (H0 & Hi & Hr & Hd).
    split; [simpl; now rewrite H0|].
    eexists. repeat split; simpl; eauto.
Qed.

(** C10: when [buildFromPGN] has returned, the cursor is on the root:
    [currentNode] is the node at index 0 of the mainline, the new root
    object with id ['root'], and [currentIndex] is 0, wherever the cursor
    was before. *)
Theorem buildFromPGN_resets_cursor (pgn : string) (ch : option (chess E))
    (t t' : MoveTree) (h : list Move) :
  buildFromPGN E pgn ch t = Returned t' h ->
  mainline t' !! 0 = Some (currentNode t')
  /\ currentIndex t' = 0%Z
  /\ id (deref t' (currentNode t')) = "root"
  /\ length (heap t) <= currentNode t'.
Proof.
  intros Hb.
  destruct (buildFromPGN_rooted pgn ch t t' h Hb)
    as (Hcur & fen0 & H0 & Hi & Hr & Hd).
  rewrite Hcur, Hd. auto.
Qed.

Lemma buildFromPGN_root_moveNumber (pgn : string) (ch : option (chess E))
    (t t' : MoveTree) (h : list Move) :
  buildFromPGN E pgn ch t = Returned t' h ->
  exists r, mainline t' !! 0 = Some r /\ moveNumber (deref t' r) = None.
Proof.
  intros Hb.
  destruct (buildFromPGN_rooted pgn ch t t' h Hb)
    as (Hcur & fen0 & H0 & Hi & Hr & Hd).
  exists (length (heap t)). now rewrite Hd.
Qed.

(** C3: for a notation string without time annotations that the engine
    reads as [N] plies and replays, [buildFromPGN] returns with a mainline
    of length [N + 1], and the node at index [k >= 1] carries the move
    number [(k + 1) / 2]: 1, 1.5, 2, 2.5, ..., strictly increasing. *)
Theorem buildFromPGN_mainline (pgn : string) (ch : option (chess E))
    (t : MoveTree) (loaded : chess E) :
  clockMatchesOf pgn = [] ->
  chess_loadPgn E pgn (default (new_Chess E) ch) = Some loaded ->
  is_Some (replay_lans E (m_lan <$> chess_history E loaded)
                       (chess_reset E loaded)) ->
  exists t',
    buildFromPGN E pgn ch t = Returned t' (chess_history E loaded)
    /\ length (mainline t') = S (length (chess_history E loaded))
    /\ (forall k r, 1 <= k -> mainline t' !! k = Some r ->
          exists q, moveNumber (deref t' r) = Some q
                    /\ (q == Z.of_nat (k + 1) # 2)%Q)
    /\ (forall i j ri rj qi qj,
          1 <= i -> i < j ->
          mainline t' !! i = Some ri -> mainline t' !! j = Some rj ->
          moveNumber (deref t' ri) = Some qi ->
          moveNumber (deref t' rj) = Some qj ->
          (qi < qj)%Q).
Proof.
  intros Hclk Hload Hplay.
  unfold buildFromPGN. cbv zeta.
  rewrite (extract_no_clock pgn Hclk), Hload.
  set (h := chess_history E loaded) in *.
  set (t1 := reset_tree t _).
  destruct (build_loop_returns E h 0 (chess_reset E loaded) 1 true t1 Hplay)
    as [t2 H2].
  assert (Hstart : numbered 0 t1).
  { split; [reflexivity|].
    intros k r Hk Hr. simpl in Hr. destruct k; [lia|discriminate]. }
  pose proof (build_loop_inv E any_move numbered [] numbered_step h
                (Forall_true any_move h (fun _ => Logic.I)) 0
                (chess_reset E loaded) 0 t1 Hstart) as Hloop.
  change (moveNo_of 0) with 1 in Hloop.
  change (white_of 0) with true in Hloop.
  rewrite H2 in Hloop. rewrite H2.
  destruct Hloop as [Hlen Hnum].
  eexists. split; [reflexivity|].
  assert (Hform : forall k r, 1 <= k -> mainline t2 !! k = Some r ->
            exists q, moveNumber (deref t2 r) = Some q
                      /\ (q == Z.of_nat (k + 1) # 2)%Q).
  { intros k r Hk Hr. exact (proj2 (Hnum k r Hk Hr)). }
  split; [exact Hlen|]. split; [exact Hform|].
  intros i j ri rj qi qj Hi Hij Hri Hrj Hqi Hqj.
  destruct (Hform i ri Hi Hri) as (q1 & Hq1 & Hv1).
  destruct (Hform j rj ltac:(lia) Hrj) as (q2 & Hq2 & Hv2).
  change (moveNumber (deref t2 ri) = Some qi) in Hqi.
  change (moveNumber (deref t2 rj) = Some qj) in Hqj.
  rewrite Hq1 in Hqi. rewrite Hq2 in Hqj.
  injection Hqi as <-. injection Hqj as <-.
  rewrite Hv1, Hv2. unfold Qlt. cbn [Qnum Qden]. lia.
Qed.

End RebuildTheorems.

Lemma buildFromPGN_resets_cursor_witness :
  mainline game3 !! 0 = Some (currentNode game3)
  /\ currentIndex game3 = 0%Z
  /\ id (deref game3 (currentNode game3)) = "root"
  /\ length (heap constructor) <= currentNode game3.
Proof.
  apply (buildFromPGN_resets_cursor Toy.engine "1. e2e4 e7e5 2. g1f3" None
           constructor game3
           (Toy.played (default Toy.start
                          (Toy.loadPgn "1. e2e4 e7e5 2. g1f3" Toy.start)))).
  vm_compute. reflexivity.
Defined.

Lemma buildFromPGN_mainline_witness :
  exists t',
    buildFromPGN Toy.engine "1. e2e4 e7e5 2. g1f3" None constructor
    = Returned t' (Toy.played (default Toy.start
                                 (Toy.loadPgn "1. e2e4 e7e5 2. g1f3" Toy.start)))
    /\ length (mainline t') = 4
    /\ (forall k r, 1 <= k -> mainline t' !! k = Some r ->
          exists q, moveNumber (deref t' r) = Some q
                    /\ (q == Z.of_nat (k + 1) # 2)%Q)
    /\ (forall i j ri rj qi qj,
          1 <= i -> i < j ->
          mainline t' !! i = Some ri -> mainline t' !! j = Some rj ->
          moveNumber (deref t' ri) = Some qi ->
          moveNumber (deref t' rj) = Some qj ->
          (qi < qj)%Q).
Proof.
  apply (buildFromPGN_mainline Toy.engine "1. e2e4 e7e5 2. g1f3" None constructor
           (default Toy.start (Toy.loadPgn "1. e2e4 e7e5 2. g1f3" Toy.start))).
  - vm_compute. reflexivity.
  - vm_compute. reflexivity.
  - vm_compute. eexists. reflexivity.
Defined.

(** *** The root of a new tree *)

(** C9: the root of a tree that has just been constructed carries the move
    number 1, whereas the root [buildFromPGN] installs carries none (see
    [buildFromPGN_root_moveNumber]). *)
Theorem constructor_root_moveNumber :
  exists r,
    mainline constructor !! 0 = Some r
    /\ id (deref constructor r) = "root"
    /\ moveNumber (deref constructor r) = Some 1%Q
    /\ moveNumber (deref constructor r) <> None.
Proof. exists 0. vm_compute. repeat split; discriminate. Qed.

(** *** A side line from the middle of a game *)

(** C2: in the game 1. e2e4 e7e5 2. g1f3 with the side line 2. b1c3 added
    below the second ply, the side line's node (5) has the second ply (3) as
    parent, which follows the first ply (2) on the mainline; the path the
    method returns for it starts at the second ply and misses the first. *)
Theorem getPathToNode_variation_truncated :
  mainline game3_var = [1; 2; 3; 4]
  /\ nodeMap game3_var !! "var_2_w_b1c3_1" = Some 5
  /\ parentId (deref game3_var 5) = Some (id (deref game3_var 3))
  /\ parentIndex (deref game3_var 3) = Some 1%Z
  /\ parentId (deref game3_var 3) = None
  /\ getPathToNode "var_2_w_b1c3_1" game3_var = Some [3; 5]
  /\ getPathToNode "var_2_w_b1c3_1" game3_var <> Some [2; 3; 5].
Proof. vm_compute. repeat split; discriminate. Qed.

(** C1: for the same side line, [getMovesToNode] returns the moves e7e5,
    b1c3.  Replayed from the initial position they do not lead to the
    position stored on the node (the engine refuses the first, a move of
    Black); the three moves e2e4, e7e5, b1c3 do. *)
Theorem getMovesToNode_variation_no_roundtrip :
  let e2e4 := Toy.mk_move "e2e4" "w" in
  let e7e5 := Toy.mk_move "e7e5" "b" in
  let b1c3 := Toy.mk_move "b1c3" "w" in
  nodeMap game3_var !! "var_2_w_b1c3_1" = Some 5
  /\ fen (deref game3_var 5) = Some "startpos e2e4 e7e5 b1c3"
  /\ getMovesToNode "var_2_w_b1c3_1" game3_var
     = Some [(Some "e7e5", Some e7e5); (Some "b1c3", Some b1c3)]
  /\ Toy.fen <$> replay_moves Toy.engine
                   [(Some "e7e5", Some e7e5); (Some "b1c3", Some b1c3)] Toy.start
     <> fen (deref game3_var 5)
  /\ Toy.fen <$> replay_moves Toy.engine
                   [(Some "e2e4", Some e2e4); (Some "e7e5", Some e7e5);
                    (Some "b1c3", Some b1c3)] Toy.start
     = fen (deref game3_var 5).
Proof. vm_compute. repeat split; discriminate. Qed.

(** The walk of [getPathToNode] ends at the first node that has no
    [parentId], whatever the engine: the nodes [buildFromPGN] creates have
    none, so a side line below one of them gets a path of two nodes. *)
Lemma getPathToNode_stops_without_parentId (t : MoveTree) (v n : ref)
    (pk : string) :
  2 <= length (heap t) ->
  nodeMap t !! id (deref t v) = Some v ->
  getNodeIndex t (deref t v) = (-1)%Z ->
  mainline t !! 0 <> Some v -> mainline t !! 0 <> Some n ->
  truthy (parentId (deref t v)) = Some pk ->
  nodeMap t !! pk = Some n ->
  parentId (deref t n) = None ->
  getPathToNode (id (deref t v)) t = Some [n; v].
Proof.
  intros Hlen Hv Hidx Hrv Hrn Hpv Hpk Hpn.
  unfold getPathToNode. rewrite Hv, Hidx, Z.eqb_refl. cbn [negb].
  destruct (length (heap t)) as [|[|fuel]] eqn:Hl; [lia..|].
  cbn [path_loop].
  rewrite (bool_decide_eq_false_2 _ Hrv), Hpv, Hpk.
  rewrite (bool_decide_eq_false_2 _ Hrn), Hpn.
  destruct fuel; reflexivity.
Qed.

(** *** The extractor always returns *)

Lemma star_loop_forward
    (step : nat -> caps -> (nat -> caps -> option mresult) -> option mresult)
    (g : bool) (k : nat -> caps -> option mresult) :
  (forall i c k' res, step i c k' = Some res ->
                      exists j c', i <= j /\ k' j c' = Some res) ->
  forall fuel i c res,
    star_loop step g k fuel i c = Some res ->
    exists j c', i <= j /\ k j c' = Some res.
Proof.
  intros Hstep. induction fuel as [|fuel IHf]; intros i c res H; simpl in H.
  - exists i, c. split; [lia|exact H].
  - destruct g.
    + destruct (step i c _) as [x|] eqn:Hrun.
      * injection H as ->.
        apply Hstep in Hrun as (j & c1 & Hj & Hrun).
        destruct (Nat.eqb j i); [discriminate|].
        apply IHf in Hrun as (j' & c2 & Hj' & Hrun).
        exists j', c2. split; [lia|exact Hrun].
      * exists i, c. split; [lia|exact H].
    + destruct (k i c) as [x|] eqn:Hk.
      * injection H as ->. exists i, c. split; [lia|exact Hk].
      * apply Hstep in H as (j & c1 & Hj & H).
        destruct (Nat.eqb j i); [discriminate|].
        apply IHf in H as (j' & c2 & Hj' & H).
        exists j', c2. split; [lia|exact H].
Qed.

Lemma run_forward (s : list ascii) (r : re) :
  forall i c k res,
    run s r i c k = Some res ->
    exists j c', i <= j /\ k j c' = Some res.
Proof.
  induction r as [p|a IHa b IHb|g a IHa|a IHa|n a IHa| |];
    intros i c k res H; cbn [run] in H.
  - destruct (s !! i) as [x|]; [|discriminate].
    destruct (p x); [|discriminate].
    exists (S i), c. split; [lia|exact H].
  - apply IHa in H as (j & c1 & Hj & H).
    apply IHb in H as (j' & c2 & Hj' & H).
    exists j', c2. split; [lia|exact H].
  - exact (star_loop_forward (run s a) g k IHa _ i c res H).
  - destruct (run s a i c _) as [x|] eqn:Hrun.
    + injection H as ->.
      apply IHa in Hrun as (j & c1 & Hj & Hrun).
      destruct (Nat.eqb j i); [discriminate|].
      exists j, c1. split; [lia|exact Hrun].
    + exists i, c. split; [lia|exact H].
  - apply IHa in H as (j & c1 & Hj & H).
    exists j, ((n, (i, j)) :: c1). split; [lia|exact H].
  - destruct i as [|i'].
    + exists 0, c. split; [lia|exact H].
    + destruct (s !! i') as [x|]; [|discriminate].
      destruct (is_line_terminator x); [|discriminate].
      exists (S i'), c. split; [lia|exact H].
  - destruct (s !! i) as [x|].
    + destruct (is_line_terminator x); [|discriminate].
      exists i, c. split; [lia|exact H].
    + destruct (Nat.eqb i (length s)); [|discriminate].
      exists i, c. split; [lia|exact H].
Qed.

Lemma run_Plus_Chr_progress (s : list ascii) (p : ascii -> bool) (r : re)
    (i : nat) (c : caps) (k : nat -> caps -> option mresult) (res : mresult) :
  run s (Seq (Plus (Chr p)) r) i c k = Some res ->
  i < length s /\ exists j c', i < j /\ k j c' = Some res.
Proof.
  unfold Plus. cbn [run]. intros H.
  destruct (s !! i) as [x|] eqn:Hx; [|discriminate].
  destruct (p x); [|discriminate].
  split; [eapply lookup_lt_Some; exact Hx|].
  apply (star_loop_forward _ _ _ (run_forward s (Chr p))) in H
    as (j1 & c1 & Hj1 & H).
  apply run_forward in H as (j2 & c2 & Hj2 & H).
  exists j2, c2. split; [lia|exact H].
Qed.

Lemma run_moveRegex_progress (s : list ascii) (i j : nat) (c : caps) :
  run s moveRegex i [] (fun j c => Some (j, c)) = Some (j, c) ->
  i < length s /\ i < j.
Proof.
  unfold moveRegex. cbn [seq]. intros H.
  apply run_Plus_Chr_progress in H as (Hi & j' & c' & Hj & H).
  injection H as <- _. lia.
Qed.

Lemma search_moveRegex (s : list ascii) (fuel start : nat) (m : rmatch) :
  search s moveRegex fuel start = Some m ->
  start <= index m /\ index m < length s /\ index m < mend m.
Proof.
  revert start. induction fuel as [|fuel IH]; intros start H; cbn [search] in H;
    [discriminate|].
  destruct (run s moveRegex start [] _) as [[j c]|] eqn:Hrun.
  - injection H as <-. cbn [index mend].
    apply run_moveRegex_progress in Hrun. lia.
  - apply IH in H. lia.
Qed.

Lemma move_loop_returns (text : list ascii) (clockMatches : list rmatch) :
  forall fuel lastIndex acc,
    length text <= lastIndex + fuel ->
    is_Some (move_loop text clockMatches fuel lastIndex acc).
Proof.
  induction fuel as [|fuel IH]; intros lastIndex acc Hfuel; cbn [move_loop].
  - destruct (exec text moveRegex lastIndex) as [m|] eqn:Hm; [|eauto].
    apply search_moveRegex in Hm. lia.
  - destruct (exec text moveRegex lastIndex) as [m|] eqn:Hm; [|eauto].
    apply search_moveRegex in Hm.
    destruct (Nat.leb_spec (mend m) lastIndex) as [?|_]; [lia|].
    apply IH. lia.
Qed.

Lemma extractClockAnnotations_returns (pgn : string) :
  is_Some (extractClockAnnotations pgn).
Proof.
  unfold extractClockAnnotations. cbv zeta.
  destruct (Nat.eqb _ 0); [eauto|].
  apply move_loop_returns. lia.
Qed.

Lemma build_loop_ends (E : Engine) (clockData : jsarray ClockInfo)
    (history : list Move) :
  forall index ch n w t,
    is_Some (outcome_tree (build_loop E clockData history index ch n w t)).
Proof.
  induction history as [|mv rest IH]; intros index ch n w t; simpl; [eauto|].
  destruct (find_clock clockData index); [|simpl; eauto].
  destruct (chess_move_lan E (m_lan mv) ch); [|simpl; eauto].
  apply IH.
Qed.

Lemma buildFromPGN_ends (E : Engine) (pgn : string) (ch : option (chess E))
    (t : MoveTree) :
  is_Some (outcome_tree (buildFromPGN E pgn ch t)).
Proof.
  unfold buildFromPGN. cbv zeta.
  destruct (extractClockAnnotations_returns pgn) as [cd ->].
  destruct (chess_loadPgn E pgn _) as [loaded|]; [|simpl; eauto].
  match goal with
  | |- context [build_loop E cd ?h 0 ?c 1 true ?t1] =>
      pose proof (build_loop_ends E cd h 0 c 1 true t1) as Hl;
      destruct (build_loop E cd h 0 c 1 true t1); simpl in *; eauto
  end.
Qed.

Lemma addMove_ends (E : Engine) (mv : Move) (p : string) (t : MoveTree) :
  is_Some (outcome_tree (addMove E mv p t)).
Proof.
  destruct (addMove_result E mv p t)
    as [?|? ? ? ?|? ? ?|? ? ?|? ? ? ? ? ? ? ? ? ? ? ? ? Ho|? ? ? ? ? ? ? ? ? ? ? ? Ho];
    simpl; eauto; destruct Ho as [->| ->]; simpl; eauto.
Qed.

Section MainlinePath.

Variable E : Engine.

(** The half of C2 that holds: for the mainline node at index [k], the path
    is the [k] nodes behind the root, in order, the root not among them. *)
Lemma getPathToNode_mainline_reachable (t : MoveTree) (k : nat) (n : ref) :
  reachable E san_ok t -> mainline t !! k = Some n ->
  getPathToNode (id (deref t n)) t = Some (take k (drop 1 (mainline t)))
  /\ length (take k (drop 1 (mainline t))) = k
  /\ forall r0, mainline t !! 0 = Some r0 -> r0 ∉ take k (drop 1 (mainline t)).
Proof.
  intros Hreach. apply getPathToNode_mainline.
  exact (reachable_wf_ids E t Hreach).
Qed.

End MainlinePath.

(** *** The round trip on the mainline of a rebuilt tree *)

Section RoundTrip.

Variable E : Engine.

Lemma build_loop_fens (clockData : jsarray ClockInfo) (history : list Move) :
  forall index ch n w t t',
    build_loop E clockData history index ch n w t = Returned t' tt ->
    (forall r, r ∈ mainline t -> r < length (heap t)) ->
    exists new,
      mainline t' = mainline t ++ new
      /\ (forall r, r < length (heap t) -> deref t' r = deref t r)
      /\ Forall2 (node_of_move t') new history
      /\ forall i r, new !! i = Some r ->
           exists chi,
             replay_lans E (m_lan <$> take (S i) history) ch = Some chi
             /\ fen (deref t' r) = Some (chess_fen E chi).
Proof.
  induction history as [|mv rest IH]; intros index ch n w t t' H Hv;
    cbn [build_loop] in H.
  - injection H as <-. exists []. rewrite app_nil_r.
    split; [reflexivity|]. split; [reflexivity|]. split; [constructor|].
    intros i r Hi. discriminate.
  - destruct (find_clock clockData index) as [info|]; [|discriminate].
    destruct (chess_move_lan E (m_lan mv) ch) as [ch'|] eqn:Hmove; [|discriminate].
    match type of H with
    | build_loop _ _ _ _ _ _ _ (push_mainline t ?nd) = _ =>
        assert (Hnd : move nd = Some mv /\ san nd = Some (m_san mv)
                      /\ fen nd = Some (chess_fen E ch'))
          by (repeat split);
        set (node := nd) in *
    end.
    destruct Hnd as (Hnd1 & Hnd2 & Hnd3).
    apply IH in H as (new & Hmain & Hold & Hnodes & Hfens).
    + exists (length (heap t) :: new).
      assert (Hnew : deref t' (length (heap t)) = node).
      { rewrite Hold by (rewrite length_heap_push; lia). apply deref_push_new. }
      split; [rewrite Hmain; cbn [mainline push_mainline];
              now rewrite <- app_assoc|].
      split.
      { intros r Hr. rewrite Hold by (rewrite length_heap_push; lia).
        now apply deref_push_old. }
      split.
      { constructor; [|exact Hnodes]. unfold node_of_move. rewrite Hnew. auto. }
      intros [|i] r Hi; cbn [lookup list_lookup] in Hi.
      * injection Hi as <-. exists ch'.
        cbn [take fmap list_fmap replay_lans]. rewrite Hmove.
        split; [reflexivity|]. rewrite Hnew. exact Hnd3.
      * destruct (Hfens i r Hi) as (chi & Hplay & Hfen).
        exists chi. split; [|exact Hfen].
        change (take (S (S i)) (mv :: rest)) with (mv :: take (S i) rest).
        cbn [fmap list_fmap replay_lans]. now rewrite Hmove.
    + intros r Hr. rewrite length_heap_push. cbn [mainline push_mainline] in Hr.
      apply elem_of_app in Hr as [Hr|Hr].
      * specialize (Hv r Hr). lia.
      * apply list_elem_of_singleton in Hr as ->. lia.
Qed.

Lemma moves_of_nodes (t : MoveTree) (new : list nat) (history : list Move) :
  Forall2 (node_of_move t) new history ->
  Forall (fun mv => m_san mv <> "") history ->
  List.map (fun n => (san n, move n))
    (List.filter carries_move (List.map (deref t) new))
  = (fun mv => (Some (m_san mv), Some mv)) <$> history.
Proof.
  induction 1 as [|r mv new rest [Hm Hs] _ IH]; intros Hne; [reflexivity|].
  apply Forall_cons in Hne as [Hmv Hne].
  cbn [List.map List.filter].
  assert (Hc : carries_move (deref t r) = true).
  { unfold carries_move, truthy. rewrite Hm, Hs.
    destruct (String.eqb_spec (m_san mv) ""); [contradiction|reflexivity]. }
  rewrite Hc. cbn [List.map fmap list_fmap]. rewrite Hm, Hs.
  f_equal. exact (IH Hne).
Qed.

Lemma moves_lans_of_history (history : list Move) :
  moves_lans ((fun mv => (Some (m_san mv), Some mv)) <$> history)
  = m_lan <$> history.
Proof.
  unfold moves_lans. induction history as [|mv rest IH]; [reflexivity|].
  cbn. now rewrite IH.
Qed.

(** The part of C1 that holds: after [buildFromPGN], for every node of the
    mainline, the moves [getMovesToNode] returns, replayed from the position
    the engine was reset to, lead to the position stored on the node. *)
Lemma buildFromPGN_mainline_roundtrip (t t' : MoveTree) (pgn : string)
    (ch : option (chess E)) (h : list Move) :
  reachable E san_ok t ->
  buildFromPGN E pgn ch t = Returned t' h ->
  Forall san_ok h -> Forall (fun mv => m_san mv <> "") h ->
  exists loaded,
    chess_loadPgn E pgn (default (new_Chess E) ch) = Some loaded
    /\ h = chess_history E loaded
    /\ forall k n, mainline t' !! k = Some n ->
         exists ms chk,
           getMovesToNode (id (deref t' n)) t' = Some ms
           /\ length ms = k
           /\ replay_lans E (moves_lans ms) (chess_reset E loaded) = Some chk
           /\ fen (deref t' n) = Some (chess_fen E chk).
Proof.
  intros Hreach Hb Hsan Hne.
  pose proof (reachable_wf E san_ok t Hreach) as Hwf.
  assert (Hids : wf_ids t').
  { apply (wf_ids_buildFromPGN E pgn ch t t' Hwf (reachable_wf_ids E t Hreach)).
    - intros loaded Hl. revert Hb. unfold buildFromPGN. cbv zeta.
      destruct (extractClockAnnotations pgn); [|discriminate].
      rewrite Hl. destruct (build_loop _ _ _ _ _ _ _ _); [|discriminate..].
      intros [= _ <-]. exact Hsan.
    - now rewrite Hb. }
  revert Hb. unfold buildFromPGN. cbv zeta.
  destruct (extractClockAnnotations pgn) as [cd|]; [|discriminate].
  destruct (chess_loadPgn E pgn _) as [loaded|]; [|discriminate].
  set (ch0 := chess_reset E loaded).
  set (t1 := reset_tree t (build_root (chess_fen E ch0))).
  destruct (build_loop E cd (chess_history E loaded) 0 ch0 1 true t1)
    as [t2 []|t2|] eqn:Hloop; [|discriminate..].
  intros [= <- <-].
  exists loaded. split; [reflexivity|]. split; [reflexivity|].
  apply build_loop_fens in Hloop as (new & Hmain & Hold & Hnodes & Hfens).
  2: { intros r Hr. cbn in Hr. apply list_elem_of_singleton in Hr as ->.
       cbn. rewrite length_app. cbn. lia. }
  set (t' := with_cursor t2 _ _) in *.
  assert (Hmain' : mainline t' = length (heap t) :: new) by exact Hmain.
  intros k n Hk.
  destruct (getPathToNode_mainline t' k n Hids Hk) as (Hpath & Hlen & _).
  unfold getMovesToNode. rewrite Hpath.
  rewrite Hmain' in Hk, Hpath, Hlen |- *. cbn [drop] in *.
  rewrite ?drop_0 in *.
  assert (Hk' : k <= length new).
  { apply lookup_lt_Some in Hk. cbn in Hk. lia. }
  pose proof (Forall2_length _ _ _ Hnodes) as Hlen'.
  assert (Hms : List.map (fun n => (san n, move n))
                  (List.filter carries_move (List.map (deref t') (take k new)))
                = (fun mv => (Some (m_san mv), Some mv))
                    <$> take k (chess_history E loaded)).
  { apply moves_of_nodes; [apply Forall2_take; exact Hnodes|].
    apply Forall_take. exact Hne. }
  change (List.map (deref t') (take k new))
    with (List.map (deref t2) (take k new)) in Hms |- *.
  eexists. rewrite Hms, moves_lans_of_history, length_fmap, length_take.
  destruct k as [|k].
  - exists ch0. split; [reflexivity|]. split; [lia|]. split; [reflexivity|].
    cbn in Hk. injection Hk as <-.
    change (deref t' (length (heap t))) with (deref t2 (length (heap t))).
    rewrite Hold by (cbn; rewrite length_app; cbn; lia).
    unfold t1. now rewrite deref_reset_new.
  - cbn [lookup list_lookup] in Hk.
    destruct (Hfens k n Hk) as (chi & Hplay & Hfen).
    exists chi. split; [reflexivity|]. split; [lia|]. split; assumption.
Qed.

End RoundTrip.

(* ===================================================================== *)
(** ** More about the tree: a rule for invariants                         *)
(* ===================================================================== *)

Lemma built_any_fresh (p : nat) (t : MoveTree) (s : string) :
  built_any p t ->
  nodeMap t !! build_id (moveNo_of p) (white_of p) s = None.
Proof.
  intros Hb.
  destruct (nodeMap t !! _) as [r|] eqn:Hk; [|reflexivity].
  exfalso.
  destruct (Hb _ (mk_is_Some _ _ Hk)) as [Hroot|(q & u & Hq & Heq)].
  - unfold build_id in Hroot. simpl in Hroot. discriminate.
  - apply build_id_inj in Heq as [Hn Hw].
    pose proof (ply_inj p q Hn Hw). lia.
Qed.

Lemma built_any_push (p : nat) (t : MoveTree) (node : Node) (s : string) :
  built_any p t -> id node = build_id (moveNo_of p) (white_of p) s ->
  built_any (S p) (push_mainline t node).
Proof.
  intros Hb Hid k Hk. simpl in Hk.
  destruct (decide (id node = k)) as [<-|Hne].
  - right. exists p, s. split; [lia|exact Hid].
  - rewrite lookup_insert_ne in Hk by exact Hne.
    destruct (Hb k Hk) as [->|(q & u & Hq & ->)]; [now left|].
    right. exists q, u. split; [lia|reflexivity].
Qed.

Section Rule.

Variable E : Engine.
Variable ok : Move -> Prop.
Variable P : MoveTree -> Prop.

(** The writes the methods are made of. *)
Hypothesis P_new : P constructor.
Hypothesis P_reset : forall t f,
  wf t -> P t -> P (reset_tree t (build_root f)).
Hypothesis P_main : forall t node mv,
  wf t -> P t -> ok mv -> main_shape t node mv ->
  nodeMap t !! id node = None -> parentId node = None ->
  P (push_mainline t node).
Hypothesis P_add_main : forall t node mv,
  wf t -> P t -> ok mv ->
  main_shape (with_idCounter t (S (idCounter t))) node mv ->
  P (push_mainline (with_idCounter t (S (idCounter t))) node).
Hypothesis P_var : forall t pr p node mv,
  wf t -> P t -> ok mv ->
  var_shape (with_idCounter t (S (idCounter t))) pr p node mv ->
  P (push_variation (with_idCounter t (S (idCounter t))) pr node).
Hypothesis P_counter : forall t,
  wf t -> P t -> P (with_idCounter t (S (idCounter t))).
Hypothesis P_home : forall t,
  wf t -> P t ->
  P (with_cursor t (default (currentNode t) (mainline t !! 0)) (currentIndex t)).
Hypothesis P_nav : forall t k, wf t -> P t -> P (fst (navigateTo k t)).
Hypothesis P_upd : forall t k ev,
  wf t -> P t -> P (updateClassification k ev t).

Lemma rule_build_loop (clockData : jsarray ClockInfo) (history : list Move) :
  Forall ok history ->
  forall index ch p t t',
    wf t -> built_any p t -> P t ->
    outcome_tree (build_loop E clockData history index ch
                    (moveNo_of p) (white_of p) t) = Some t' ->
    wf t' /\ P t'.
Proof.
  induction 1 as [|mv rest Hmv Hrest IH]; intros index ch p t t' Hwf Hb HP H;
    cbn [build_loop] in H.
  - injection H as <-. auto.
  - destruct (find_clock clockData index) as [info|];
      [|injection H as <-; auto].
    destruct (chess_move_lan E (m_lan mv) ch) as [ch'|];
      [|injection H as <-; auto].
    destruct (ply_step p) as [Hn Hw]. rewrite Hn, Hw in H.
    match type of H with
    | context [push_mainline t ?nd] => set (node := nd) in *
    end.
    assert (Hfresh : nodeMap t !! id node = None)
      by apply (built_any_fresh p t (m_san mv) Hb).
    eapply IH; [| | |exact H].
    + apply wf_push_mainline; [exact Hwf|reflexivity|apply build_id_not_var].
    + now apply (built_any_push p t node (m_san mv)).
    + apply (P_main t node mv Hwf HP Hmv); [|exact Hfresh|reflexivity].
      split; [repeat split; eauto|]. split; [reflexivity|].
      split; [reflexivity|]. split; [|now left].
      exists (moveNo_of p), (white_of p). left. split; [reflexivity|exact Hfresh].
Qed.

Lemma rule_addMove (t : MoveTree) (mv : Move) (p : string) (t' : MoveTree) :
  wf t -> P t -> ok mv ->
  outcome_tree (addMove E mv p t) = Some t' -> P t'.
Proof.
  intros Hwf HP Hmv. unfold addMove. cbv zeta.
  destruct (nodeMap t !! p) as [pr|] eqn:Hp; [|intros [= <-]; exact HP].
  destruct (findExistingMove t (deref t pr) mv) as [r|] eqn:Hex;
    [intros [= <-]; exact HP|].
  destruct (chess_load E (fen (deref t pr)) (new_Chess E)) as [ch1|];
    [|intros [= <-]; exact HP].
  set (t1 := with_idCounter t (S (idCounter t))).
  assert (Hwf1 : wf t1) by (apply wf_with_idCounter; [exact Hwf|lia]).
  assert (HP1 : P t1) by now apply P_counter.
  destruct (chess_move E mv ch1) as [ch2|]; [|intros [= <-]; exact HP1].
  destruct (isMainline (deref t pr)
            && (getNodeIndex t (deref t pr) =? Z.of_nat (length (mainline t)) - 1)%Z)
    eqn:Hmain; cbn [andb].
  - apply andb_prop in Hmain as [Hm Hi]. apply Z.eqb_eq in Hi.
    match goal with
    | |- context [push_mainline t1 ?nd] => set (node := nd)
    end.
    intros Ho.
    assert (t' = push_mainline t1 node) as ->
      by (destruct (chess_load E _ ch2); simpl in Ho; congruence).
    apply (P_add_main t node mv Hwf HP Hmv). fold t1.
    split; [repeat split; eauto|]. split; [reflexivity|].
    split; [cbn; now rewrite Hi|]. split.
    + exists (chess_moveNumber E ch1), (String.eqb (chess_turn E ch1) "w").
      subst node. cbn [id].
      match goal with
      | |- context [bool_decide ?Q] => destruct (bool_decide Q) eqn:Hhas
      end.
      * right. now rewrite <- main_id_build.
      * left. rewrite <- main_id_build. split; [reflexivity|].
        apply bool_decide_eq_false in Hhas.
        apply eq_None_not_Some. exact Hhas.
    + right. exists p, pr. split; [reflexivity|]. split; [exact Hp|].
      exact (tip_is_parent t p pr Hwf Hp Hi).
  - match goal with
    | |- context [push_variation t1 pr ?nd] => set (node := nd)
    end.
    intros Ho.
    assert (t' = push_variation t1 pr node) as ->
      by (destruct (chess_load E _ ch2); simpl in Ho; congruence).
    apply (P_var t pr p node mv Hwf HP Hmv). fold t1.
    split; [repeat split; eauto|]. split; [reflexivity|].
    split; [reflexivity|]. split; [reflexivity|]. split; [exact Hp|].
    split; [eexists _, _; reflexivity|].
    split; [|split; [exact Hex|exact Hmain]].
    apply (var_fresh t (id node) Hwf).
    + apply var_id_var.
    + apply last_seg_var_id.
Qed.

Lemma rule_buildFromPGN (t : MoveTree) (pgn : string) (ch : option (chess E))
    (t' : MoveTree) :
  wf t -> P t ->
  (forall loaded,
      chess_loadPgn E pgn (default (new_Chess E) ch) = Some loaded ->
      Forall ok (chess_history E loaded)) ->
  outcome_tree (buildFromPGN E pgn ch t) = Some t' -> P t'.
Proof.
  intros Hwf IH Hh. unfold buildFromPGN. cbv zeta.
  destruct (extractClockAnnotations pgn) as [cd|]; [|discriminate].
  destruct (chess_loadPgn E pgn _) as [loaded|] eqn:Hl;
    [|simpl; intros [= <-]; exact IH].
  set (root := build_root _). set (t1 := reset_tree t root).
  assert (Hwf1 : wf t1) by now apply wf_reset.
  assert (Hb1 : built_any 0 t1).
  { intros k [r Hk]. simpl in Hk.
    apply lookup_singleton_Some in Hk as [<- _]. now left. }
  assert (HP1 : P t1) by now apply P_reset.
  pose proof (fun t2 => rule_build_loop cd _ (Hh loaded eq_refl) 0
                (chess_reset E loaded) 0 t1 t2 Hwf1 Hb1 HP1) as Hloop.
  change (moveNo_of 0) with 1 in Hloop.
  change (white_of 0) with true in Hloop.
  destruct (build_loop E cd _ 0 _ 1 true t1) as [t2 []|t2|];
    simpl; intros [= <-].
  + destruct (Hloop t2 eq_refl) as [Hwf2 HP2]. now apply P_home.
  + exact (proj2 (Hloop t2 eq_refl)).
Qed.

Theorem reachable_rule (t : MoveTree) : reachable E ok t -> P t.
Proof.
  intros Hreach.
  induction Hreach as [|t pgn ch t' Hr IH Hh Ho|t mv p t' Hr IH Hmv Ho
                       |t k Hr IH|t k ev Hr IH].
  - exact P_new.
  - exact (rule_buildFromPGN t pgn ch t' (reachable_wf E ok t Hr) IH Hh Ho).
  - exact (rule_addMove t mv p t' (reachable_wf E ok t Hr) IH Hmv Ho).
  - apply P_nav; [exact (reachable_wf E ok t Hr)|exact IH].
  - apply P_upd; [exact (reachable_wf E ok t Hr)|exact IH].
Qed.

End Rule.

(** *** Strings again: what an id is made of *)

Lemma count_marks_app (a b : string) :
  count_marks (a +:+ b) = count_marks a + count_marks b.
Proof.
  induction a as [|c a IH]; simpl; [reflexivity|].
  rewrite IH. lia.
Qed.

Lemma count_marks_show (n : nat) : count_marks (show n) = 0.
Proof.
  unfold show. generalize (Nat.to_uint n).
  induction u; simpl; auto.
Qed.

Lemma count_marks_side (w : bool) : count_marks (side_letter w) = 0.
Proof. destruct w; reflexivity. Qed.

Lemma count_marks_sanitize (s : string) : count_marks (sanitize s) = 0.
Proof.
  induction s as [|c s IH]; cbn [sanitize]; [reflexivity|].
  rewrite count_marks_app, IH.
  destruct (Ascii.eqb c "+") eqn:Hp; [reflexivity|].
  destruct (Ascii.eqb c "#") eqn:Hh; [reflexivity|].
  cbn [count_marks]. rewrite Hp, Hh. reflexivity.
Qed.

Lemma count_marks_build_id (n : nat) (w : bool) (s : string) :
  count_marks (build_id n w s) = 0.
Proof.
  unfold build_id.
  rewrite !count_marks_app, count_marks_show, count_marks_side,
    count_marks_sanitize.
  reflexivity.
Qed.

Lemma count_marks_var_id (n : nat) (w : bool) (s : string) (c : nat) :
  count_marks (var_id n w s c) = 0.
Proof.
  unfold var_id.
  rewrite !count_marks_app, !count_marks_show, count_marks_side,
    count_marks_sanitize.
  reflexivity.
Qed.

Lemma main_shape_key (t : MoveTree) (node : Node) (mv : Move) :
  main_shape t node mv ->
  ~ var_key (id node) /\ count_marks (id node) = 0
  /\ id node <> "root" /\ id node <> "".
Proof.
  intros (_ & _ & _ & (n & w & [[Hid _]|Hid]) & _); rewrite Hid.
  - split; [apply build_id_not_var|]. split; [apply count_marks_build_id|].
    unfold build_id. simpl. split; discriminate.
  - split; [rewrite <- main_id_build; apply renamed_not_var|].
    split.
    + rewrite !count_marks_app, count_marks_build_id, count_marks_show.
      reflexivity.
    + unfold build_id. simpl. split; discriminate.
Qed.

Lemma var_shape_key (t : MoveTree) (pr : nat) (p : string) (node : Node)
    (mv : Move) :
  var_shape t pr p node mv ->
  var_key (id node) /\ count_marks (id node) = 0
  /\ id node <> "root" /\ id node <> "".
Proof.
  intros (_ & _ & _ & _ & _ & (n & w & Hid) & _); rewrite Hid.
  split; [apply var_id_var|]. split; [apply count_marks_var_id|].
  unfold var_id. simpl. split; discriminate.
Qed.

(** *** What the writes leave of the old objects *)

Lemma identity_refl (n : Node) : same_identity n n.
Proof. repeat split. Qed.

Lemma identity_pushvar (t : MoveTree) (pr : nat) (node : Node) (r : nat) :
  r < length (heap t) ->
  same_identity (deref t r) (deref (push_variation t pr node) r)
  /\ children (deref (push_variation t pr node) r)
     = if decide (r = pr) then children (deref t pr) ++ [length (heap t)]
       else children (deref t r).
Proof.
  intros Hr. rewrite deref_pushvar_old by exact Hr.
  destruct (decide (r = pr)) as [->|Hne]; split; try reflexivity;
    apply identity_refl || (repeat split).
Qed.

Lemma identity_store_eval (t : MoveTree) (r : nat) (c : option string)
    (e : option Evaluated) (sc : option Z) (ty : option string) (r' : nat) :
  same_identity (deref t r')
    (deref (store t r (with_evaluation (deref t r) c e sc ty)) r')
  /\ children (deref (store t r (with_evaluation (deref t r) c e sc ty)) r')
     = children (deref t r').
Proof.
  destruct (decide (r = r')) as [<-|Hne].
  - destruct (decide (r < length (heap t))) as [Hlt|Hge].
    + rewrite deref_store_eq by exact Hlt. split; [repeat split|reflexivity].
    + unfold deref, store. simpl. rewrite list_insert_ge by lia.
      split; [apply identity_refl|reflexivity].
  - rewrite deref_store_ne by exact Hne.
    split; [apply identity_refl|reflexivity].
Qed.

Lemma same_move_key (mv : Move) (n : Node) :
  same_move mv n = true
  <-> move_key n = Some (m_from mv, m_to mv, m_promotion mv).
Proof.
  unfold same_move, move_key. destruct (move n) as [x|]; simpl.
  - rewrite !andb_true_iff, !bool_decide_eq_true. split.
    + intros [[-> ->] ->]. reflexivity.
    + intros [= -> -> ->]. auto.
  - split; discriminate.
Qed.

(** *** The invariant [linked] *)

Lemma linked_new : linked constructor.
Proof.
  split.
  - exists 0. repeat split.
  - simpl. lia.
  - intros k r Hk. simpl in Hk.
    apply list_lookup_singleton_Some in Hk as [-> <-].
    split; [reflexivity|lia].
  - intros r c Hr Hc. simpl in Hr. assert (r = 0) as -> by lia.
    unfold deref in Hc. simpl in Hc. inversion Hc.
  - intros r Hr. simpl in Hr. assert (r = 0) as -> by lia.
    unfold deref. simpl. constructor.
  - intros k [r Hk]. simpl in Hk.
    apply lookup_singleton_Some in Hk as [<- _]. split; [reflexivity|discriminate].
Qed.

Lemma kids_frame (t t' : MoveTree) (r : nat) :
  wf t -> r < length (heap t) ->
  (forall x, x < length (heap t) -> same_identity (deref t x) (deref t' x)) ->
  children (deref t' r) = children (deref t r) ->
  (forall c, c ∈ children (deref t r) ->
     r < c /\ isMainline (deref t c) = false
     /\ parentId (deref t c) = Some (id (deref t r))
     /\ is_Some (move (deref t c))) ->
  NoDup ((fun c => move_key (deref t c)) <$> children (deref t r)) ->
  (forall c, c ∈ children (deref t' r) ->
     r < c /\ isMainline (deref t' c) = false
     /\ parentId (deref t' c) = Some (id (deref t' r))
     /\ is_Some (move (deref t' c)))
  /\ NoDup ((fun c => move_key (deref t' c)) <$> children (deref t' r)).
Proof.
  intros Hwf Hr Hsame Hkids Hold Hnd. rewrite Hkids. split.
  - intros c Hc. destruct (Hold c Hc) as (Hlt & Hm & Hp & Hmv).
    pose proof (wf_children t Hwf r c Hr Hc) as Hcv.
    destruct (Hsame c Hcv) as (_ & _ & _ & Hmove & _ & Hflag & _ & Hpid & _).
    destruct (Hsame r Hr) as (Hid & _).
    rewrite Hflag, Hpid, Hid, Hmove. auto.
  - erewrite list_fmap_ext; [exact Hnd|].
    intros i c Hc. unfold move_key.
    pose proof (wf_children t Hwf r c Hr (list_elem_of_lookup_2 _ _ _ Hc)) as Hcv.
    destruct (Hsame c Hcv) as (_ & _ & _ & Hmove & _). now rewrite Hmove.
Qed.

Lemma linked_reset (t : MoveTree) (f : string) :
  wf t -> linked t -> linked (reset_tree t (build_root f)).
Proof.
  intros Hwf [Hroot Hidx Hmain Hkids Hsib Hclean].
  set (t' := reset_tree t (build_root f)).
  assert (Hlen : length (heap t') = S (length (heap t)))
    by (simpl; rewrite length_app; simpl; lia).
  assert (Hold : forall x, x < length (heap t) ->
            same_identity (deref t x) (deref t' x)).
  { intros x Hx. unfold t'. rewrite deref_reset_old by exact Hx.
    apply identity_refl. }
  split.
  - exists (length (heap t)). unfold t'. rewrite deref_reset_new.
    repeat split.
  - simpl. lia.
  - intros k r Hk. simpl in Hk.
    apply list_lookup_singleton_Some in Hk as [-> <-].
    unfold t'. rewrite deref_reset_new. split; [reflexivity|lia].
  - intros r c Hr Hc. rewrite Hlen in Hr.
    destruct (decide (r = length (heap t))) as [->|Hne].
    + unfold t' in Hc. rewrite deref_reset_new in Hc. inversion Hc.
    + assert (Hr' : r < length (heap t)) by lia.
      refine (proj1 (kids_frame t t' r Hwf Hr' Hold _ (fun c0 => Hkids r c0 Hr') (Hsib r Hr')) c Hc).
      unfold t'. now rewrite deref_reset_old.
  - intros r Hr. rewrite Hlen in Hr.
    destruct (decide (r = length (heap t))) as [->|Hne].
    + unfold t'. rewrite deref_reset_new. constructor.
    + assert (Hr' : r < length (heap t)) by lia.
      refine (proj2 (kids_frame t t' r Hwf Hr' Hold _ (fun c0 => Hkids r c0 Hr') (Hsib r Hr'))).
      unfold t'. now rewrite deref_reset_old.
  - intros k [r Hk]. simpl in Hk.
    apply lookup_singleton_Some in Hk as [<- _]. split; [reflexivity|discriminate].
Qed.

Lemma linked_main (t : MoveTree) (node : Node) (mv : Move) :
  wf t -> linked t -> main_shape t node mv -> linked (push_mainline t node).
Proof.
  intros Hwf [Hroot Hidx Hmain Hkids Hsib Hclean] Hshape.
  destruct (main_shape_key t node mv Hshape) as (Hnv & Hmarks & Hnr & Hne).
  destruct Hshape as ((Hnk & Hnm & _) & Hflag & Hpi & _).
  set (t' := push_mainline t node).
  assert (Hold : forall x, x < length (heap t) ->
            same_identity (deref t x) (deref t' x)).
  { intros x Hx. unfold t'. rewrite deref_push_old by exact Hx.
    apply identity_refl. }
  split.
  - destruct Hroot as (r0 & H0 & Hreg & Hmv & Hpid).
    exists r0. pose proof (wf_main t Hwf r0 (list_elem_of_lookup_2 _ _ _ H0)) as Hv.
    unfold t'. rewrite deref_push_old by exact Hv.
    split; [simpl; now apply lookup_app_l_Some|].
    split; [simpl; now rewrite lookup_insert_ne|auto].
  - simpl. rewrite length_app. simpl. lia.
  - intros k r Hk. simpl in Hk.
    apply lookup_app_Some in Hk as [Hk|[Hge Hk]].
    + pose proof (wf_main t Hwf r (list_elem_of_lookup_2 _ _ _ Hk)) as Hv.
      unfold t'. rewrite deref_push_old by exact Hv. exact (Hmain k r Hk).
    + apply list_lookup_singleton_Some in Hk as [Hk <-].
      unfold t'. rewrite deref_push_new. split; [exact Hflag|].
      intros _. rewrite Hpi, Hnm. split; [|eauto].
      do 2 f_equal. lia.
  - intros r c Hr Hc. unfold t' in Hr. rewrite length_heap_push in Hr.
    destruct (decide (r = length (heap t))) as [->|Hner].
    + unfold t' in Hc. rewrite deref_push_new, Hnk in Hc. inversion Hc.
    + assert (Hr' : r < length (heap t)) by lia.
      refine (proj1 (kids_frame t t' r Hwf Hr' Hold _ (fun c0 => Hkids r c0 Hr') (Hsib r Hr')) c Hc).
      unfold t'. now rewrite deref_push_old.
  - intros r Hr. unfold t' in Hr. rewrite length_heap_push in Hr.
    destruct (decide (r = length (heap t))) as [->|Hner].
    + unfold t'. rewrite deref_push_new, Hnk. constructor.
    + assert (Hr' : r < length (heap t)) by lia.
      refine (proj2 (kids_frame t t' r Hwf Hr' Hold _ (fun c0 => Hkids r c0 Hr') (Hsib r Hr'))).
      unfold t'. now rewrite deref_push_old.
  - intros k Hk. simpl in Hk.
    destruct (decide (id node = k)) as [<-|Hnek]; [auto|].
    rewrite lookup_insert_ne in Hk by exact Hnek. exact (Hclean k Hk).
Qed.

Lemma linked_var (t : MoveTree) (pr : nat) (p : string) (node : Node) (mv : Move) :
  wf t -> linked t -> var_shape t pr p node mv ->
  linked (push_variation t pr node).
Proof.
  intros Hwf [Hroot Hidx Hmain Hkids Hsib Hclean] Hshape.
  destruct (var_shape_key t pr p node mv Hshape) as (Hv & Hmarks & Hnr & Hne).
  destruct Hshape as ((Hnk & Hnm & _) & Hflag & _ & Hpid & Hp & _ & _ & Hex & _).
  destruct (wf_map t Hwf p pr Hp) as [Hpr Hidp].
  set (t' := push_variation t pr node).
  assert (Hold : forall x, x < length (heap t) ->
            same_identity (deref t x) (deref t' x)).
  { intros x Hx. exact (proj1 (identity_pushvar t pr node x Hx)). }
  assert (Hch : forall x, x < length (heap t) ->
            children (deref t' x)
            = if decide (x = pr) then children (deref t pr) ++ [length (heap t)]
              else children (deref t x)).
  { intros x Hx. exact (proj2 (identity_pushvar t pr node x Hx)). }
  assert (Hnew : deref t' (length (heap t)) = node)
    by apply deref_pushvar_new.
  split.
  - destruct Hroot as (r0 & H0 & Hreg & Hmv & Hpid0).
    exists r0. pose proof (wf_main t Hwf r0 (list_elem_of_lookup_2 _ _ _ H0)) as Hv0.
    destruct (Hold r0 Hv0) as (_ & _ & _ & Hmove & _ & _ & _ & Hpar & _).
    split; [exact H0|].
    split; [simpl; now rewrite lookup_insert_ne|].
    now rewrite Hmove, Hpar.
  - exact Hidx.
  - intros k r Hk.
    pose proof (wf_main t Hwf r (list_elem_of_lookup_2 _ _ _ Hk)) as Hrv.
    destruct (Hold r Hrv) as (_ & _ & _ & Hmove & _ & Hfl & Hpi & _).
    rewrite Hfl, Hpi, Hmove. exact (Hmain k r Hk).
  - intros r c Hr Hc. unfold t' in Hr. rewrite length_heap_pushvar in Hr.
    destruct (decide (r = length (heap t))) as [->|Hner].
    + rewrite Hnew, Hnk in Hc. inversion Hc.
    + assert (Hr' : r < length (heap t)) by lia.
      destruct (decide (r = pr)) as [->|Hnp].
      * rewrite (Hch pr Hpr), decide_True in Hc by reflexivity.
        destruct (Hold pr Hpr) as (Hidpr & _).
        apply elem_of_app in Hc as [Hc|Hc].
        -- destruct (Hkids pr c Hpr Hc) as (Hlt & Hm & Hpc & Hmc).
           pose proof (wf_children t Hwf pr c Hpr Hc) as Hcv.
           destruct (Hold c Hcv) as (_ & _ & _ & Hmove & _ & Hfl & _ & Hpar & _).
           rewrite Hfl, Hpar, Hidpr, Hmove. auto.
        -- apply list_elem_of_singleton in Hc as ->.
           rewrite Hnew, Hflag, Hpid, Hnm, Hidpr, Hidp. eauto.
      * refine (proj1 (kids_frame t t' r Hwf Hr' Hold _
                         (fun c0 => Hkids r c0 Hr') (Hsib r Hr')) c Hc).
        rewrite (Hch r Hr'). now rewrite decide_False.
  - intros r Hr. unfold t' in Hr. rewrite length_heap_pushvar in Hr.
    destruct (decide (r = length (heap t))) as [->|Hner].
    + rewrite Hnew, Hnk. constructor.
    + assert (Hr' : r < length (heap t)) by lia.
      destruct (decide (r = pr)) as [->|Hnp].
      * rewrite (Hch pr Hpr), decide_True by reflexivity.
        rewrite fmap_app. cbn [fmap list_fmap]. rewrite Hnew.
        assert (Hkeys : (fun c => move_key (deref t' c)) <$> children (deref t pr)
                        = (fun c => move_key (deref t c)) <$> children (deref t pr)).
        { apply list_fmap_ext. intros i c Hc. unfold move_key.
          pose proof (wf_children t Hwf pr c Hpr
                        (list_elem_of_lookup_2 _ _ _ Hc)) as Hcv.
          destruct (Hold c Hcv) as (_ & _ & _ & Hmove & _). now rewrite Hmove. }
        rewrite Hkeys. apply NoDup_app. split; [exact (Hsib pr Hpr)|].
        split; [|apply NoDup_singleton].
        intros key Hkey Hkey'. apply list_elem_of_singleton in Hkey' as ->.
        apply list_elem_of_fmap in Hkey as (c & Hc & Hin).
        apply findExistingMove_None in Hex as [_ Hnone].
        apply list_find_None in Hnone. rewrite Forall_forall in Hnone.
        apply (Hnone c Hin). apply same_move_key. rewrite <- Hc.
        unfold move_key. now rewrite Hnm.
      * refine (proj2 (kids_frame t t' r Hwf Hr' Hold _
                         (fun c0 => Hkids r c0 Hr') (Hsib r Hr'))).
        rewrite (Hch r Hr'). now rewrite decide_False.
  - intros k Hk. simpl in Hk.
    destruct (decide (id node = k)) as [<-|Hnek]; [auto|].
    rewrite lookup_insert_ne in Hk by exact Hnek. exact (Hclean k Hk).
Qed.

Lemma linked_counter (t : MoveTree) (c : nat) :
  linked t -> linked (with_idCounter t c).
Proof. intros [Hroot Hidx Hmain Hkids Hsib Hclean]. split; assumption. Qed.

Lemma linked_home (t : MoveTree) (r : nat) :
  linked t -> linked (with_cursor t r (currentIndex t)).
Proof. intros [Hroot Hidx Hmain Hkids Hsib Hclean]. split; assumption. Qed.

Lemma linked_nav (t : MoveTree) (k : string) :
  linked t -> linked (fst (navigateTo k t)).
Proof.
  intros Hl. unfold navigateTo.
  destruct (nodeMap t !! k) as [r|]; [|exact Hl].
  destruct Hl as [Hroot Hidx Hmain Hkids Hsib Hclean].
  split; try assumption. cbn.
  pose proof (key_index_bound (id (deref t r)) (ids t)) as Hb.
  rewrite <- getNodeIndex_ids in Hb. unfold ids in Hb. rewrite length_fmap in Hb.
  destruct (Z.eqb_spec (getNodeIndex t (deref t r)) (-1)); [exact Hidx|lia].
Qed.

Lemma linked_upd (t : MoveTree) (k : string) (ev : Evaluated) :
  wf t -> linked t -> linked (updateClassification k ev t).
Proof.
  intros Hwf Hl. unfold updateClassification.
  destruct (nodeMap t !! k) as [r|]; [|exact Hl].
  match goal with
  | |- linked (store t r (with_evaluation _ ?c ?e ?sc ?ty)) =>
      pose proof (identity_store_eval t r c e sc ty) as Hst;
      set (t' := store t r (with_evaluation (deref t r) c e sc ty)) in *
  end.
  destruct Hl as [Hroot Hidx Hmain Hkids Hsib Hclean].
  assert (Hlen : length (heap t') = length (heap t))
    by (simpl; apply length_insert).
  assert (Hold : forall x, x < length (heap t) ->
            same_identity (deref t x) (deref t' x))
    by (intros x _; exact (proj1 (Hst x))).
  split.
  - destruct Hroot as (r0 & H0 & Hreg & Hmv & Hpid0).
    exists r0. destruct (Hst r0) as ((_ & _ & _ & Hmove & _ & _ & _ & Hpar & _) & _).
    rewrite Hmove, Hpar. auto.
  - exact Hidx.
  - intros i x Hi.
    destruct (Hst x) as ((_ & _ & _ & Hmove & _ & Hfl & Hpi & _) & _).
    rewrite Hfl, Hpi, Hmove. exact (Hmain i x Hi).
  - intros x c Hx Hc. rewrite Hlen in Hx.
    exact (proj1 (kids_frame t t' x Hwf Hx Hold (proj2 (Hst x))
                    (fun c0 => Hkids x c0 Hx) (Hsib x Hx)) c Hc).
  - intros x Hx. rewrite Hlen in Hx.
    exact (proj2 (kids_frame t t' x Hwf Hx Hold (proj2 (Hst x))
                    (fun c0 => Hkids x c0 Hx) (Hsib x Hx))).
  - exact Hclean.
Qed.

Lemma reachable_linked (E : Engine) (ok : Move -> Prop) (t : MoveTree) :
  reachable E ok t -> linked t.
Proof.
  apply (reachable_rule E ok linked).
  - exact linked_new.
  - exact linked_reset.
  - intros t0 node mv Hwf Hl _ Hs _ _. exact (linked_main t0 node mv Hwf Hl Hs).
  - intros t0 node mv Hwf Hl _ Hs. apply (linked_main _ node mv); [|now apply linked_counter|exact Hs].
    apply wf_with_idCounter; [exact Hwf|simpl; lia].
  - intros t0 pr p node mv Hwf Hl _ Hs. apply (linked_var _ pr p node mv); [|now apply linked_counter|exact Hs].
    apply wf_with_idCounter; [exact Hwf|simpl; lia].
  - intros t0 _ Hl. now apply linked_counter.
  - intros t0 _ Hl. now apply linked_home.
  - intros t0 k _ Hl. now apply linked_nav.
  - intros t0 k ev Hwf Hl. now apply linked_upd.
Qed.

(** *** The invariant [indexed] *)

Lemma indexed_new : indexed constructor.
Proof.
  split.
  - intros k r c Hk Hc. simpl in Hk.
    apply lookup_singleton_Some in Hk as [_ <-].
    unfold deref in Hc. simpl in Hc. inversion Hc.
  - intros k v Hk Hm. simpl in Hk.
    apply lookup_singleton_Some in Hk as [_ <-].
    unfold deref in Hm. simpl in Hm. discriminate.
  - intros k r p Hk Hp. simpl in Hk.
    apply lookup_singleton_Some in Hk as [_ <-].
    unfold deref in Hp. simpl in Hp. discriminate.
  - intros r Hr. simpl in Hr. injection Hr as <-. reflexivity.
  - reflexivity.
Qed.

Lemma indexed_reset (t : MoveTree) (f : string) :
  indexed (reset_tree t (build_root f)).
Proof.
  split.
  - intros k r c Hk Hc. simpl in Hk.
    apply lookup_singleton_Some in Hk as [_ <-].
    rewrite deref_reset_new in Hc. simpl in Hc. inversion Hc.
  - intros k v Hk Hm. simpl in Hk.
    apply lookup_singleton_Some in Hk as [_ <-].
    rewrite deref_reset_new in Hm. simpl in Hm. discriminate.
  - intros k r p Hk Hp. simpl in Hk.
    apply lookup_singleton_Some in Hk as [_ <-].
    rewrite deref_reset_new in Hp. simpl in Hp. discriminate.
  - intros r Hr. simpl in Hr. injection Hr as <-.
    rewrite deref_reset_new. reflexivity.
  - cbn [currentNode reset_tree]. rewrite deref_reset_new.
    simpl. apply lookup_singleton_eq.
Qed.

Lemma indexed_main (t : MoveTree) (node : Node) (mv : Move) :
  wf t -> indexed t -> main_shape t node mv ->
  nodeMap t !! id node = None ->
  indexed (push_mainline t node).
Proof.
  intros Hwf [Hkids Hvar Hpar Htip Hcur] Hshape Hfresh.
  destruct Hshape as ((Hnk & _) & Hflag & _ & _ & Hpid).
  set (t' := push_mainline t node).
  assert (Hkeep : forall k r, nodeMap t !! k = Some r -> nodeMap t' !! k = Some r).
  { intros k r Hk. simpl. rewrite lookup_insert_ne; [exact Hk|]. congruence. }
  assert (Hreg : forall k r, nodeMap t' !! k = Some r ->
            r = length (heap t) \/ (nodeMap t !! k = Some r /\ r < length (heap t))).
  { intros k r Hk. simpl in Hk.
    destruct (decide (id node = k)) as [<-|Hne].
    - rewrite lookup_insert_eq in Hk. left. congruence.
    - rewrite lookup_insert_ne in Hk by exact Hne. right.
      split; [exact Hk|]. exact (proj1 (wf_map t Hwf k r Hk)). }
  assert (Hold : forall r, r < length (heap t) -> deref t' r = deref t r)
    by (intros r Hr; now apply deref_push_old).
  assert (Hnew : deref t' (length (heap t)) = node) by apply deref_push_new.
  split.
  - intros k r c Hk Hc.
    destruct (Hreg k r Hk) as [->|[Hk' Hr]].
    + rewrite Hnew, Hnk in Hc. inversion Hc.
    + rewrite (Hold r Hr) in Hc.
      rewrite (Hold c (wf_children t Hwf r c Hr Hc)).
      apply Hkeep. exact (Hkids k r c Hk' Hc).
  - intros k v Hk Hm.
    destruct (Hreg k v Hk) as [->|[Hk' Hv]].
    + rewrite Hnew in Hm. congruence.
    + rewrite (Hold v Hv) in Hm |- *.
      destruct (Hvar k v Hk' Hm) as (p & pr & Hp & Hpr & Hin).
      exists p, pr. split; [exact Hp|]. split; [now apply Hkeep|].
      rewrite (Hold pr (proj1 (wf_map t Hwf p pr Hpr))). exact Hin.
  - intros k r p Hk Hp.
    destruct (Hreg k r Hk) as [->|[Hk' Hr]].
    + rewrite Hnew in Hp.
      destruct Hpid as [Hnone|(p0 & pr & Hp0 & Hpr & _)]; [congruence|].
      assert (p = p0) as -> by congruence.
      exists pr. split; [now apply Hkeep|].
      exact (proj1 (wf_map t Hwf p0 pr Hpr)).
    + rewrite (Hold r Hr) in Hp.
      destruct (Hpar k r p Hk' Hp) as (pr & Hpr & Hlt).
      exists pr. split; [now apply Hkeep|exact Hlt].
  - intros r Hr. cbn [mainline push_mainline t'] in Hr.
    rewrite last_snoc in Hr. injection Hr as <-. rewrite Hnew. exact Hnk.
  - cbn [currentNode push_mainline t'].
    rewrite (Hold _ (wf_cursor t Hwf)). apply Hkeep. exact Hcur.
Qed.

Lemma tip_not_branch (t : MoveTree) (r : nat) :
  wf_ids t -> linked t -> last (mainline t) = Some r ->
  isMainline (deref t r)
  && (getNodeIndex t (deref t r) =? Z.of_nat (length (mainline t)) - 1)%Z = true.
Proof.
  intros Hids Hl Hlast.
  rewrite last_lookup in Hlast.
  rewrite (proj1 (lk_main t Hl _ r Hlast)).
  rewrite (getNodeIndex_mainline t _ r Hids Hlast).
  cbn [andb]. apply Z.eqb_eq.
  apply lookup_lt_Some in Hlast. lia.
Qed.

Lemma indexed_var (t : MoveTree) (pr : nat) (p : string) (node : Node) (mv : Move) :
  wf t -> wf_ids t -> linked t -> indexed t -> var_shape t pr p node mv ->
  indexed (push_variation t pr node).
Proof.
  intros Hwf Hids Hl [Hkids Hvar Hpar Htip Hcur] Hshape.
  destruct Hshape as ((Hnk & _) & Hflag & _ & Hpid & Hp & _ & Hfresh & _ & Hbranch).
  destruct (wf_map t Hwf p pr Hp) as [Hpr Hidp].
  set (t' := push_variation t pr node).
  assert (Hkeep : forall k r, nodeMap t !! k = Some r -> nodeMap t' !! k = Some r).
  { intros k r Hk. simpl. rewrite lookup_insert_ne; [exact Hk|]. congruence. }
  assert (Hreg : forall k r, nodeMap t' !! k = Some r ->
            r = length (heap t) \/ (nodeMap t !! k = Some r /\ r < length (heap t))).
  { intros k r Hk. simpl in Hk.
    destruct (decide (id node = k)) as [<-|Hne].
    - rewrite lookup_insert_eq in Hk. left. congruence.
    - rewrite lookup_insert_ne in Hk by exact Hne. right.
      split; [exact Hk|]. exact (proj1 (wf_map t Hwf k r Hk)). }
  assert (Hold : forall x, x < length (heap t) ->
            same_identity (deref t x) (deref t' x))
    by (intros x Hx; exact (proj1 (identity_pushvar t pr node x Hx))).
  assert (Hch : forall x, x < length (heap t) ->
            children (deref t' x)
            = if decide (x = pr) then children (deref t pr) ++ [length (heap t)]
              else children (deref t x))
    by (intros x Hx; exact (proj2 (identity_pushvar t pr node x Hx))).
  assert (Hsub : forall x c, x < length (heap t) -> c ∈ children (deref t x) ->
            c ∈ children (deref t' x)).
  { intros x c Hx Hc. rewrite (Hch x Hx). case_decide as Hxp; [|exact Hc].
    subst x. apply elem_of_app. now left. }
  assert (Hnew : deref t' (length (heap t)) = node) by apply deref_pushvar_new.
  split.
  - intros k r c Hk Hc.
    destruct (Hreg k r Hk) as [->|[Hk' Hr]].
    + rewrite Hnew, Hnk in Hc. inversion Hc.
    + rewrite (Hch r Hr) in Hc.
      assert (Hcases : c ∈ children (deref t r) \/ c = length (heap t)).
      { case_decide as Hrp; [|now left]. subst r.
        apply elem_of_app in Hc as [Hc|Hc]; [now left|].
        apply list_elem_of_singleton in Hc. now right. }
      destruct Hcases as [Hc'| ->].
      * destruct (Hold c (wf_children t Hwf r c Hr Hc')) as (Hid & _).
        rewrite Hid. apply Hkeep. exact (Hkids k r c Hk' Hc').
      * rewrite Hnew. simpl. apply lookup_insert_eq.
  - intros k v Hk Hm.
    destruct (Hreg k v Hk) as [->|[Hk' Hv]].
    + rewrite Hnew. exists p, pr. split; [exact Hpid|].
      split; [now apply Hkeep|].
      rewrite (Hch pr Hpr), decide_True by reflexivity.
      apply elem_of_app. right. now apply list_elem_of_singleton.
    + destruct (Hold v Hv) as (_ & _ & _ & _ & _ & Hfl & _ & Hparent & _).
      rewrite Hfl in Hm. rewrite Hparent.
      destruct (Hvar k v Hk' Hm) as (p0 & pr0 & Hp0 & Hpr0 & Hin).
      exists p0, pr0. split; [exact Hp0|]. split; [now apply Hkeep|].
      apply Hsub; [exact (proj1 (wf_map t Hwf p0 pr0 Hpr0))|exact Hin].
  - intros k r q Hk Hq.
    destruct (Hreg k r Hk) as [->|[Hk' Hr]].
    + rewrite Hnew in Hq. assert (q = p) as -> by congruence.
      exists pr. split; [now apply Hkeep|exact Hpr].
    + destruct (Hold r Hr) as (_ & _ & _ & _ & _ & _ & _ & Hparent & _).
      rewrite Hparent in Hq.
      destruct (Hpar k r q Hk' Hq) as (pr0 & Hpr0 & Hlt).
      exists pr0. split; [now apply Hkeep|exact Hlt].
  - intros r Hr. cbn [mainline push_variation t'] in Hr.
    assert (Hrv : r < length (heap t)).
    { apply (wf_main t Hwf). rewrite last_lookup in Hr.
      exact (list_elem_of_lookup_2 _ _ _ Hr). }
    rewrite (Hch r Hrv). case_decide as Hrp; [|exact (Htip r Hr)].
    subst r. rewrite (tip_not_branch t pr Hids Hl Hr) in Hbranch. discriminate.
  - cbn [currentNode push_variation t'].
    destruct (Hold _ (wf_cursor t Hwf)) as (Hid & _).
    rewrite Hid. apply Hkeep. exact Hcur.
Qed.

Lemma indexed_counter (t : MoveTree) (c : nat) :
  indexed t -> indexed (with_idCounter t c).
Proof. intros [Hkids Hvar Hpar Htip Hcur]. split; assumption. Qed.

Lemma indexed_frame (t t' : MoveTree) :
  nodeMap t' = nodeMap t -> mainline t' = mainline t ->
  currentNode t' = currentNode t ->
  (forall x, same_identity (deref t x) (deref t' x)
             /\ children (deref t' x) = children (deref t x)) ->
  indexed t -> indexed t'.
Proof.
  intros Hmap Hmain Hc Hst [Hkids Hvar Hpar Htip Hcur].
  split.
  - intros k r c Hk Hin. rewrite Hmap in Hk |- *.
    rewrite (proj2 (Hst r)) in Hin.
    destruct (Hst c) as ((Hid & _) & _). rewrite Hid.
    exact (Hkids k r c Hk Hin).
  - intros k v Hk Hm. rewrite Hmap in Hk.
    destruct (Hst v) as ((_ & _ & _ & _ & _ & Hfl & _ & Hparent & _) & _).
    rewrite Hfl in Hm. rewrite Hparent.
    destruct (Hvar k v Hk Hm) as (p & pr & Hp & Hpr & Hin).
    exists p, pr. rewrite Hmap, (proj2 (Hst pr)). auto.
  - intros k r p Hk Hp. rewrite Hmap in Hk |- *.
    destruct (Hst r) as ((_ & _ & _ & _ & _ & _ & _ & Hparent & _) & _).
    rewrite Hparent in Hp. exact (Hpar k r p Hk Hp).
  - intros r Hr. rewrite Hmain in Hr. rewrite (proj2 (Hst r)). exact (Htip r Hr).
  - rewrite Hc, Hmap. destruct (Hst (currentNode t)) as ((Hid & _) & _).
    rewrite Hid. exact Hcur.
Qed.

Lemma indexed_upd (t : MoveTree) (k : string) (ev : Evaluated) :
  indexed t -> indexed (updateClassification k ev t).
Proof.
  intros Hix. unfold updateClassification.
  destruct (nodeMap t !! k) as [r|]; [|exact Hix].
  apply (indexed_frame t); try reflexivity; [|exact Hix].
  intros x. apply identity_store_eval.
Qed.

Lemma indexed_nav (t : MoveTree) (k : string) :
  wf t -> indexed t -> indexed (fst (navigateTo k t)).
Proof.
  intros Hwf Hix. unfold navigateTo.
  destruct (nodeMap t !! k) as [r|] eqn:Hk; [|exact Hix].
  destruct Hix as [Hkids Hvar Hpar Htip Hcur].
  split; try assumption. cbn.
  destruct (wf_map t Hwf k r Hk) as [_ Hid].
  change (nodeMap t !! id (deref t r) = Some r). now rewrite Hid.
Qed.

Lemma indexed_home (t : MoveTree) :
  wf t -> linked t -> indexed t ->
  indexed (with_cursor t (default (currentNode t) (mainline t !! 0)) (currentIndex t)).
Proof.
  intros Hwf Hl [Hkids Hvar Hpar Htip Hcur].
  split; try assumption. cbn.
  destruct (lk_root t Hl) as (r0 & H0 & Hreg & _).
  rewrite H0. cbn [default].
  destruct (wf_map t Hwf "root" r0 Hreg) as [_ Hid].
  change (nodeMap t !! id (deref t r0) = Some r0). now rewrite Hid.
Qed.

(** With moves in standard notation, the id [addMove] makes up is new. *)
Lemma add_main_fresh (t : MoveTree) (node : Node) (mv : Move) :
  wf_ids t -> san_ok mv ->
  main_shape (with_idCounter t (S (idCounter t))) node mv ->
  nodeMap t !! id node = None
  /\ (count_us (id node) = 4 ->
      exists j, j <= S (idCounter t) /\ last_seg (id node) = show j).
Proof.
  intros Hids Hsan (_ & _ & _ & (n & w & [[Hid Hfresh]|Hid]) & _).
  - split; [exact Hfresh|].
    rewrite Hid, (count_us_build_id n w _ Hsan). discriminate.
  - cbn [idCounter with_idCounter] in Hid. split.
    + destruct (nodeMap t !! id node) as [r|] eqn:Hk; [|reflexivity].
      exfalso.
      destruct (ids_keys t Hids (id node) (mk_is_Some _ _ Hk)) as (j & Hj & Hs).
      { rewrite Hid, <- main_id_build. now apply count_us_renamed. }
      rewrite Hid, last_seg_counter in Hs. apply show_inj in Hs. lia.
    + intros _. exists (S (idCounter t)). split; [reflexivity|].
      rewrite Hid. apply last_seg_counter.
Qed.

Lemma sound_main (t : MoveTree) (node : Node) (mv : Move) :
  wf t -> sound t -> san_ok mv -> main_shape t node mv ->
  nodeMap t !! id node = None ->
  sound (push_mainline t node).
Proof.
  intros Hwf (Hids & Hl & Hix) Hsan Hs Hfresh.
  split; [|split; [exact (linked_main t node mv Hwf Hl Hs)
                  |exact (indexed_main t node mv Hwf Hix Hs Hfresh)]].
  apply wf_ids_push; [exact Hwf|exact Hids|exact Hfresh|].
  destruct Hs as (_ & _ & _ & (n & w & [[Hid _]|Hid]) & _).
  - rewrite Hid, (count_us_build_id n w _ Hsan). discriminate.
  - intros _. exists (idCounter t). split; [reflexivity|].
    rewrite Hid. apply last_seg_counter.
Qed.

Lemma sound_counter (t : MoveTree) :
  sound t -> sound (with_idCounter t (S (idCounter t))).
Proof.
  intros (Hids & Hl & Hix).
  split; [apply wf_ids_with_idCounter; [exact Hids|lia]|].
  split; [now apply linked_counter|now apply indexed_counter].
Qed.

Lemma sound_var (t : MoveTree) (pr : nat) (p : string) (node : Node) (mv : Move) :
  wf t -> sound t ->
  var_shape (with_idCounter t (S (idCounter t))) pr p node mv ->
  sound (push_variation (with_idCounter t (S (idCounter t))) pr node).
Proof.
  intros Hwf Hs Hshape.
  assert (Hwf1 : wf (with_idCounter t (S (idCounter t))))
    by (apply wf_with_idCounter; [exact Hwf|lia]).
  destruct (sound_counter t Hs) as (Hids1 & Hl1 & Hix1).
  split; [|split; [exact (linked_var _ pr p node mv Hwf1 Hl1 Hshape)
                  |exact (indexed_var _ pr p node mv Hwf1 Hids1 Hl1 Hix1 Hshape)]].
  destruct Hshape as (_ & _ & _ & _ & _ & (n & w & Hid) & Hfresh & _).
  apply wf_ids_push_variation; [exact Hwf1|exact Hids1|exact Hfresh|].
  exists (S (idCounter t)). split; [reflexivity|].
  rewrite Hid. apply last_seg_var_id.
Qed.

Lemma reachable_sound (E : Engine) (t : MoveTree) :
  reachable E san_ok t -> sound t.
Proof.
  apply (reachable_rule E san_ok sound).
  - split; [exact wf_ids_constructor|]. split; [exact linked_new|exact indexed_new].
  - intros t0 f Hwf (Hids & Hl & Hix).
    split; [now apply wf_ids_reset|].
    split; [now apply linked_reset|apply indexed_reset].
  - intros t0 node mv Hwf Hs Hsan Hshape Hfresh _.
    exact (sound_main t0 node mv Hwf Hs Hsan Hshape Hfresh).
  - intros t0 node mv Hwf Hs Hsan Hshape.
    destruct (add_main_fresh t0 node mv (proj1 Hs) Hsan Hshape) as [Hfresh _].
    apply (sound_main _ node mv); [|now apply sound_counter|exact Hsan|exact Hshape|exact Hfresh].
    apply wf_with_idCounter; [exact Hwf|simpl; lia].
  - intros t0 pr p node mv Hwf Hs _ Hshape. exact (sound_var t0 pr p node mv Hwf Hs Hshape).
  - intros t0 _ Hs. now apply sound_counter.
  - intros t0 Hwf (Hids & Hl & Hix).
    split; [now apply wf_ids_with_cursor|].
    split; [now apply linked_home|now apply indexed_home].
  - intros t0 k Hwf (Hids & Hl & Hix).
    split; [|split; [now apply linked_nav|now apply indexed_nav]].
    unfold navigateTo. destruct (nodeMap t0 !! k); [|exact Hids].
    now apply wf_ids_with_cursor.
  - intros t0 k ev Hwf (Hids & Hl & Hix).
    split; [|split; [now apply linked_upd|now apply indexed_upd]].
    unfold updateClassification. destruct (nodeMap t0 !! k); [|exact Hids].
    now apply wf_ids_store.
Qed.

(* ===================================================================== *)
(** ** What holds of every tree a program can hold                        *)
(* ===================================================================== *)

Lemma getNodeIndex_root (t : MoveTree) (r0 : nat) :
  wf t -> linked t -> mainline t !! 0 = Some r0 ->
  getNodeIndex t (deref t r0) = 0%Z.
Proof.
  intros Hwf Hl H0.
  destruct (lk_root t Hl) as (r & H0' & Hreg & _).
  assert (r = r0) as -> by congruence.
  destruct (wf_map t Hwf "root" r0 Hreg) as [_ Hid].
  rewrite getNodeIndex_ids, Hid.
  assert (Hin : ids t !! 0 = Some "root")
    by (rewrite ids_lookup, H0; simpl; now rewrite Hid).
  destruct (key_index_cases "root" (ids t)) as [[_ Hno]|(i & -> & _ & Hmin)].
  - exfalso. apply Hno. exact (list_elem_of_lookup_2 _ _ _ Hin).
  - destruct i as [|i]; [reflexivity|].
    exfalso. apply (Hmin 0); [lia|exact Hin].
Qed.

Lemma getNodeIndex_variation (t : MoveTree) (k : string) (v : nat) :
  wf t -> wf_ids t -> linked t ->
  nodeMap t !! k = Some v -> isMainline (deref t v) = false ->
  getNodeIndex t (deref t v) = (-1)%Z.
Proof.
  intros Hwf Hids Hl Hk Hm.
  destruct (wf_map t Hwf k v Hk) as [_ Hid].
  rewrite getNodeIndex_ids.
  destruct (key_index_cases (id (deref t v)) (ids t))
    as [[-> _]|(i & _ & Hi & _)]; [reflexivity|].
  exfalso. rewrite ids_lookup in Hi.
  destruct (mainline t !! i) as [m|] eqn:Hmi; [|discriminate].
  injection Hi as Hi.
  pose proof (ids_reg t Hids m (list_elem_of_lookup_2 _ _ _ Hmi)) as Hreg.
  rewrite Hi, Hid, Hk in Hreg. injection Hreg as ->.
  rewrite (proj1 (lk_main t Hl i m Hmi)) in Hm. discriminate.
Qed.

(** X1: in every tree a program can hold, the id ['root'] is in the index
    and names the node at index 0 of the mainline, which carries no move;
    [navigateTo('root')] returns it, puts the cursor on it and sets
    [currentIndex] to 0. *)
Theorem navigateTo_root (E : Engine) (ok : Move -> Prop) (t : MoveTree) :
  reachable E ok t ->
  exists r0,
    mainline t !! 0 = Some r0
    /\ id (deref t r0) = "root" /\ move (deref t r0) = None
    /\ navigateTo "root" t = (with_cursor t r0 0, Some r0).
Proof.
  intros Hreach.
  pose proof (reachable_wf E ok t Hreach) as Hwf.
  pose proof (reachable_linked E ok t Hreach) as Hl.
  destruct (lk_root t Hl) as (r0 & H0 & Hreg & Hmv & _).
  exists r0. split; [exact H0|].
  split; [exact (proj2 (wf_map t Hwf "root" r0 Hreg))|].
  split; [exact Hmv|].
  unfold navigateTo. rewrite Hreg.
  rewrite (getNodeIndex_root t r0 Hwf Hl H0). reflexivity.
Qed.

Lemma navigateTo_root_witness :
  exists r0,
    mainline game3_var !! 0 = Some r0
    /\ id (deref game3_var r0) = "root" /\ move (deref game3_var r0) = None
    /\ navigateTo "root" game3_var = (with_cursor game3_var r0 0, Some r0).
Proof.
  apply (navigateTo_root Toy.engine san_ok game3_var).
  exact reachable_game3_var.
Defined.

(** X2: in every tree a program can hold, [currentIndex] is an index of the
    mainline, and the node at index [k >= 1] of the mainline is flagged
    [isMainline], carries a move and has [parentIndex = k - 1]. *)
Theorem mainline_links (E : Engine) (ok : Move -> Prop) (t : MoveTree) :
  reachable E ok t ->
  (0 <= currentIndex t < Z.of_nat (length (mainline t)))%Z
  /\ forall k r, mainline t !! k = Some r ->
       isMainline (deref t r) = true
       /\ (1 <= k -> parentIndex (deref t r) = Some (Z.of_nat k - 1)%Z
                     /\ is_Some (move (deref t r))).
Proof.
  intros Hreach.
  pose proof (reachable_linked E ok t Hreach) as Hl.
  split; [exact (lk_index t Hl)|exact (lk_main t Hl)].
Qed.

Lemma mainline_links_witness :
  (0 <= currentIndex game3_var < Z.of_nat (length (mainline game3_var)))%Z
  /\ forall k r, mainline game3_var !! k = Some r ->
       isMainline (deref game3_var r) = true
       /\ (1 <= k -> parentIndex (deref game3_var r) = Some (Z.of_nat k - 1)%Z
                     /\ is_Some (move (deref game3_var r))).
Proof.
  apply (mainline_links Toy.engine san_ok game3_var).
  exact reachable_game3_var.
Defined.

(** X3: in every tree a program can hold, a child of a node found in the
    index under the id [k] has [parentId = k], is not flagged [isMainline]
    and carries a move; and no two children of one node carry the same
    ([from], [to], [promotion]). *)
Theorem children_links (E : Engine) (ok : Move -> Prop) (t : MoveTree)
    (k : string) (r : nat) :
  reachable E ok t -> nodeMap t !! k = Some r ->
  (forall c, c ∈ children (deref t r) ->
     parentId (deref t c) = Some k
     /\ isMainline (deref t c) = false
     /\ is_Some (move (deref t c)))
  /\ NoDup ((fun c => move_key (deref t c)) <$> children (deref t r)).
Proof.
  intros Hreach Hk.
  pose proof (reachable_wf E ok t Hreach) as Hwf.
  pose proof (reachable_linked E ok t Hreach) as Hl.
  destruct (wf_map t Hwf k r Hk) as [Hr Hid].
  split; [|exact (lk_siblings t Hl r Hr)].
  intros c Hc. destruct (lk_kids t Hl r c Hr Hc) as (_ & Hm & Hp & Hmv).
  rewrite Hid in Hp. auto.
Qed.

Lemma children_links_witness :
  (forall c, c ∈ children (deref game3_var 3) ->
     parentId (deref game3_var c) = Some "move_1_b_e7e5"
     /\ isMainline (deref game3_var c) = false
     /\ is_Some (move (deref game3_var c)))
  /\ NoDup ((fun c => move_key (deref game3_var c))
              <$> children (deref game3_var 3)).
Proof.
  apply (children_links Toy.engine san_ok game3_var "move_1_b_e7e5" 3).
  - exact reachable_game3_var.
  - vm_compute. reflexivity.
Defined.

(** X4: in every tree a program can hold, no id in the index is empty and
    none contains a check or mate sign: [replace(/[+#]/g, ...)] takes them
    all out of the notation. *)
Theorem ids_without_marks (E : Engine) (ok : Move -> Prop) (t : MoveTree)
    (k : string) :
  reachable E ok t -> is_Some (nodeMap t !! k) ->
  count_marks k = 0 /\ k <> "".
Proof.
  intros Hreach Hk.
  exact (lk_clean t (reachable_linked E ok t Hreach) k Hk).
Qed.

Lemma ids_without_marks_witness :
  count_marks "var_2_w_b1c3_1" = 0 /\ "var_2_w_b1c3_1" <> "".
Proof.
  apply (ids_without_marks Toy.engine san_ok game3_var "var_2_w_b1c3_1").
  - exact reachable_game3_var.
  - vm_compute. eauto.
Defined.

(** *** With moves in standard notation *)

Lemma reachable_game3_var2 : reachable Toy.engine san_ok game3_var2.
Proof.
  apply (reach_add Toy.engine san_ok game3_var (Toy.mk_move "g8f6" "b")
           "var_2_w_b1c3_1").
  - exact reachable_game3_var.
  - reflexivity.
  - vm_compute. reflexivity.
Qed.

Lemma reachable_game4 : reachable Toy.engine san_ok game4.
Proof.
  apply (reach_add Toy.engine san_ok game3 (Toy.mk_move "b8c6" "b")
           "move_2_w_g1f3").
  - exact reachable_game3.
  - reflexivity.
  - vm_compute. reflexivity.
Qed.

Lemma add_result_nodeMap (t : MoveTree) (mv : Move) (p : string)
    (o : outcome (option ref)) (t' : MoveTree) (k : string) (r : nat) :
  wf t -> wf_ids t -> san_ok mv ->
  add_result t mv p o -> outcome_tree o = Some t' ->
  nodeMap t !! k = Some r ->
  nodeMap t' !! k = Some r /\ id (deref t' r) = k.
Proof.
  intros Hwf Hids Hsan Hres Ho Hk.
  destruct (wf_map t Hwf k r Hk) as [Hr Hid].
  destruct Hres as [Hp|pr r' Hp Hex|pr Hp Hex|pr Hp Hex
                    |pr node n w o Hp Hex Hm Hi Hkids Hmv Hmain Hidn Ho'
                    |pr node n w o Hp Hex Hm Hkids Hmv Hmain Hidn Ho'];
    simpl in Ho; try (injection Ho as <-; auto).
  - assert (t' = push_mainline (with_idCounter t (S (idCounter t))) node) as ->.
    { destruct Ho' as [->| ->]; simpl in Ho; congruence. }
    assert (Hfresh : nodeMap t !! id node = None).
    { destruct Hidn as [[_ Hfresh]|Hidn]; [exact Hfresh|].
      destruct (nodeMap t !! id node) as [x|] eqn:Hx; [|reflexivity].
      exfalso.
      destruct (ids_keys t Hids (id node) (mk_is_Some _ _ Hx)) as (j & Hj & Hs).
      { rewrite Hidn. now apply count_us_renamed. }
      rewrite Hidn, last_seg_counter in Hs. apply show_inj in Hs. lia. }
    split.
    + simpl. rewrite lookup_insert_ne; [exact Hk|]. congruence.
    + rewrite deref_push_old by exact Hr. exact Hid.
  - assert (t' = push_variation (with_idCounter t (S (idCounter t))) pr node) as ->.
    { destruct Ho' as [->| ->]; simpl in Ho; congruence. }
    assert (Hfresh : nodeMap t !! id node = None).
    { apply var_fresh; [exact Hwf| |]; rewrite Hidn.
      - apply var_id_var.
      - apply last_seg_var_id. }
    split.
    + simpl. rewrite lookup_insert_ne; [exact Hk|]. congruence.
    + rewrite id_pushvar_old by exact Hr. exact Hid.
Qed.

(** X5: with moves in standard notation, [addMove] never takes an id away
    from the node that has it: whatever was found under an id before the
    call is found under it afterwards, whether the call returns or throws. *)
Theorem addMove_keeps_ids (E : Engine) (t t' : MoveTree) (mv : Move)
    (p k : string) (r : nat) :
  reachable E san_ok t -> san_ok mv ->
  outcome_tree (addMove E mv p t) = Some t' ->
  nodeMap t !! k = Some r ->
  nodeMap t' !! k = Some r /\ id (deref t' r) = k.
Proof.
  intros Hreach Hsan Ho Hk.
  exact (add_result_nodeMap t mv p _ t' k r (reachable_wf E san_ok t Hreach)
           (reachable_wf_ids E t Hreach) Hsan (addMove_result E mv p t) Ho Hk).
Qed.

Lemma addMove_keeps_ids_witness :
  nodeMap game3_var !! "move_1_w_e2e4" = Some 2
  /\ id (deref game3_var 2) = "move_1_w_e2e4".
Proof.
  apply (addMove_keeps_ids Toy.engine game3 game3_var
           (Toy.mk_move "b1c3" "w") "move_1_b_e7e5" "move_1_w_e2e4" 2).
  - exact reachable_game3.
  - reflexivity.
  - vm_compute. reflexivity.
  - vm_compute. reflexivity.
Defined.

Lemma navigateTo_frame (t : MoveTree) (k : string) :
  heap (fst (navigateTo k t)) = heap t
  /\ mainline (fst (navigateTo k t)) = mainline t
  /\ nodeMap (fst (navigateTo k t)) = nodeMap t.
Proof. unfold navigateTo. destruct (nodeMap t !! k); auto. Qed.

Lemma navigateTo_variation (t : MoveTree) (k : string) (v : nat) :
  wf t -> sound t -> nodeMap t !! k = Some v -> isMainline (deref t v) = false ->
  navigateTo k t = (with_cursor t v (currentIndex t), Some v).
Proof.
  intros Hwf (Hids & Hl & _) Hk Hm. unfold navigateTo. rewrite Hk.
  rewrite (getNodeIndex_variation t k v Hwf Hids Hl Hk Hm). reflexivity.
Qed.

Lemma getPreviousMove_var (t : MoveTree) (k : string) (v : nat) :
  wf t -> sound t -> nodeMap t !! k = Some v -> isMainline (deref t v) = false ->
  currentNode t = v ->
  exists p pr,
    parentId (deref t v) = Some p /\ nodeMap t !! p = Some pr
    /\ v ∈ children (deref t pr) /\ getPreviousMove t = Some pr.
Proof.
  intros Hwf (Hids & Hl & Hix) Hk Hm Hcur.
  destruct (ix_var t Hix k v Hk Hm) as (p & pr & Hp & Hpr & Hin).
  exists p, pr. split; [exact Hp|]. split; [exact Hpr|]. split; [exact Hin|].
  unfold getPreviousMove. rewrite Hcur.
  rewrite bool_decide_eq_false_2.
  - rewrite (getNodeIndex_variation t k v Hwf Hids Hl Hk Hm). cbn [Z.ltb Z.compare].
    rewrite Hp. unfold truthy.
    destruct (String.eqb_spec p "") as [->|_]; [|exact Hpr].
    exfalso. exact (proj2 (lk_clean t Hl "" (mk_is_Some _ _ Hpr)) eq_refl).
  - intros H0. rewrite (proj1 (lk_main t Hl 0 v H0)) in Hm. discriminate.
Qed.

Lemma getNextMove_var (t : MoveTree) (k : string) (v : nat) :
  wf t -> sound t -> nodeMap t !! k = Some v -> isMainline (deref t v) = false ->
  currentNode t = v ->
  getNextMove t = head (children (deref t v)).
Proof.
  intros Hwf (Hids & Hl & Hix) Hk Hm Hcur.
  unfold getNextMove. rewrite Hcur.
  rewrite (getNodeIndex_variation t k v Hwf Hids Hl Hk Hm). reflexivity.
Qed.

(** X6: with moves in standard notation, for a node [v] of a variation
    found under the id [k]: [navigateTo(k)] puts the cursor on [v] and
    leaves [currentIndex] as it was, and [getPreviousMove] then returns the
    node [v] hangs below: the one named by its [parentId], with [v] among
    its children. *)
Theorem getPreviousMove_variation (E : Engine) (t : MoveTree) (k : string)
    (v : nat) :
  reachable E san_ok t ->
  nodeMap t !! k = Some v -> isMainline (deref t v) = false ->
  let t1 := fst (navigateTo k t) in
  currentNode t1 = v /\ currentIndex t1 = currentIndex t
  /\ exists pr,
       getPreviousMove t1 = Some pr
       /\ v ∈ children (deref t pr)
       /\ parentId (deref t v) = Some (id (deref t pr)).
Proof.
  intros Hreach Hk Hm.
  pose proof (reachable_wf E san_ok t Hreach) as Hwf.
  pose proof (reachable_sound E t Hreach) as Hs.
  pose proof (reach_nav E san_ok t k Hreach) as Hreach1.
  cbv zeta. revert Hreach1.
  rewrite (navigateTo_variation t k v Hwf Hs Hk Hm). cbn [fst]. intros Hreach1.
  split; [reflexivity|]. split; [reflexivity|].
  destruct (getPreviousMove_var (with_cursor t v (currentIndex t)) k v
              (reachable_wf E san_ok _ Hreach1) (reachable_sound E _ Hreach1)
              Hk Hm eq_refl) as (p & pr & Hp & Hpr & Hin & Hprev).
  exists pr. split; [exact Hprev|]. split; [exact Hin|].
  change (parentId (deref t v) = Some p) in Hp.
  change (nodeMap t !! p = Some pr) in Hpr.
  rewrite Hp. now rewrite (proj2 (wf_map t Hwf p pr Hpr)).
Qed.

Lemma getPreviousMove_variation_witness :
  let t1 := fst (navigateTo "var_2_w_b1c3_1" game3_var) in
  currentNode t1 = 5 /\ currentIndex t1 = currentIndex game3_var
  /\ exists pr,
       getPreviousMove t1 = Some pr
       /\ 5 ∈ children (deref game3_var pr)
       /\ parentId (deref game3_var 5) = Some (id (deref game3_var pr)).
Proof.
  apply (getPreviousMove_variation Toy.engine game3_var "var_2_w_b1c3_1" 5).
  - exact reachable_game3_var.
  - vm_compute. reflexivity.
  - vm_compute. reflexivity.
Defined.

(** X7: with moves in standard notation, inside a variation the two moves
    of the cursor undo each other: from a node [v] of a variation with a
    first child [c], [getNextMove] returns [c], and from [c]
    [getPreviousMove] returns [v]. *)
Theorem variation_symmetry (E : Engine) (t : MoveTree) (k : string) (v c : nat) :
  reachable E san_ok t ->
  nodeMap t !! k = Some v -> isMainline (deref t v) = false ->
  head (children (deref t v)) = Some c ->
  let t1 := fst (navigateTo k t) in
  currentNode t1 = v
  /\ getNextMove t1 = Some c
  /\ let t2 := fst (navigateTo (id (deref t1 c)) t1) in
     currentNode t2 = c /\ getPreviousMove t2 = Some v.
Proof.
  intros Hreach Hk Hm Hc.
  pose proof (reachable_wf E san_ok t Hreach) as Hwf.
  pose proof (reachable_sound E t Hreach) as Hs.
  pose proof (reachable_linked E san_ok t Hreach) as Hl.
  assert (Hin : c ∈ children (deref t v)).
  { destruct (children (deref t v)) as [|x l]; [discriminate|].
    injection Hc as ->. apply list_elem_of_here. }
  destruct (wf_map t Hwf k v Hk) as [Hv Hid].
  destruct (lk_kids t Hl v c Hv Hin) as (_ & Hmc & Hpc & _).
  pose proof (ix_kids t (proj2 (proj2 Hs)) k v c Hk Hin) as Hkc.
  pose proof (reach_nav E san_ok t k Hreach) as Hreach1.
  cbv zeta. revert Hreach1.
  rewrite (navigateTo_variation t k v Hwf Hs Hk Hm). cbn [fst].
  set (t1 := with_cursor t v (currentIndex t)). intros Hreach1.
  pose proof (reachable_wf E san_ok t1 Hreach1) as Hwf1.
  pose proof (reachable_sound E t1 Hreach1) as Hs1.
  split; [reflexivity|]. split.
  - rewrite (getNextMove_var t1 k v Hwf1 Hs1 Hk Hm eq_refl). exact Hc.
  - pose proof (reach_nav E san_ok t1 (id (deref t1 c)) Hreach1) as Hreach2.
    revert Hreach2.
    rewrite (navigateTo_variation t1 (id (deref t1 c)) c Hwf1 Hs1 Hkc Hmc).
    cbn [fst]. intros Hreach2. split; [reflexivity|].
    destruct (getPreviousMove_var _ (id (deref t1 c)) c
                (reachable_wf E san_ok _ Hreach2) (reachable_sound E _ Hreach2)
                Hkc Hmc eq_refl) as (p & pr & Hp & Hpr & _ & Hprev).
    rewrite Hprev. f_equal.
    change (parentId (deref t c) = Some p) in Hp.
    change (nodeMap t !! p = Some pr) in Hpr.
    rewrite Hpc, Hid in Hp. injection Hp as <-. congruence.
Qed.

Lemma variation_symmetry_witness :
  let t1 := fst (navigateTo "var_2_w_b1c3_1" game3_var2) in
  currentNode t1 = 5
  /\ getNextMove t1 = Some 6
  /\ let t2 := fst (navigateTo (id (deref t1 6)) t1) in
     currentNode t2 = 6 /\ getPreviousMove t2 = Some 5.
Proof.
  apply (variation_symmetry Toy.engine game3_var2 "var_2_w_b1c3_1" 5 6).
  - exact reachable_game3_var2.
  - vm_compute. reflexivity.
  - vm_compute. reflexivity.
  - vm_compute. reflexivity.
Defined.

(** X8: with moves in standard notation, where a variation leaves the
    mainline the two moves of the cursor do not undo each other: for a child
    [v] of the mainline node at index [i], [getPreviousMove] from [v] returns
    that node, but [getNextMove] from that node returns the node at index
    [i + 1] of the mainline, which is not [v]. *)
Theorem branch_point_asymmetry (E : Engine) (t : MoveTree) (i : nat) (pr v : nat) :
  reachable E san_ok t ->
  mainline t !! i = Some pr -> v ∈ children (deref t pr) ->
  let t1 := fst (navigateTo (id (deref t v)) t) in
  currentNode t1 = v
  /\ getPreviousMove t1 = Some pr
  /\ let t2 := fst (navigateTo (id (deref t1 pr)) t1) in
     currentNode t2 = pr
     /\ exists n, getNextMove t2 = Some n /\ mainline t !! S i = Some n /\ n <> v.
Proof.
  intros Hreach Hi Hin.
  pose proof (reachable_wf E san_ok t Hreach) as Hwf.
  pose proof (reachable_sound E t Hreach) as Hs.
  destruct Hs as (Hids & Hl & Hix).
  pose proof (ids_reg t Hids pr (list_elem_of_lookup_2 _ _ _ Hi)) as Hkp.
  destruct (wf_map t Hwf _ pr Hkp) as [Hpr _].
  destruct (lk_kids t Hl pr v Hpr Hin) as (_ & Hmv & Hpv & _).
  pose proof (ix_kids t Hix _ pr v Hkp Hin) as Hkv.
  assert (Hnext : S i < length (mainline t)).
  { destruct (decide (S i < length (mainline t))) as [Hlt|Hge]; [exact Hlt|].
    exfalso. assert (Hlast : last (mainline t) = Some pr).
    { rewrite last_lookup. apply lookup_lt_Some in Hi as Hlt.
      replace (Nat.pred (length (mainline t))) with i by lia. exact Hi. }
    rewrite (ix_tip t Hix pr Hlast) in Hin. inversion Hin. }
  destruct (mainline t !! S i) as [n|] eqn:Hn;
    [|apply lookup_ge_None in Hn; lia].
  pose proof (reach_nav E san_ok t (id (deref t v)) Hreach) as Hreach1.
  cbv zeta. revert Hreach1.
  rewrite (navigateTo_variation t _ v Hwf (conj Hids (conj Hl Hix)) Hkv Hmv).
  cbn [fst]. set (t1 := with_cursor t v (currentIndex t)). intros Hreach1.
  split; [reflexivity|]. split.
  - destruct (getPreviousMove_var t1 (id (deref t v)) v
                (reachable_wf E san_ok _ Hreach1) (reachable_sound E _ Hreach1)
                Hkv Hmv eq_refl) as (p & pr' & Hp & Hpr' & _ & Hprev).
    rewrite Hprev. f_equal.
    change (parentId (deref t v) = Some p) in Hp.
    change (nodeMap t !! p = Some pr') in Hpr'.
    rewrite Hpv in Hp. injection Hp as <-. congruence.
  - assert (Hids1 : wf_ids t1) by now apply wf_ids_with_cursor.
    rewrite (navigateTo_mainline t1 i pr Hids1 Hi). cbn [fst].
    split; [reflexivity|]. exists n.
    split; [|split; [reflexivity|]].
    + rewrite (getNextMove_mainline _ i pr); cbn [mainline with_cursor t1].
      * exact Hn.
      * now apply wf_ids_with_cursor.
      * exact Hi.
      * exact Hnext.
      * reflexivity.
    + intros ->. rewrite (proj1 (lk_main t Hl (S i) v Hn)) in Hmv. discriminate.
Qed.

Lemma branch_point_asymmetry_witness :
  let t1 := fst (navigateTo (id (deref game3_var 5)) game3_var) in
  currentNode t1 = 5
  /\ getPreviousMove t1 = Some 3
  /\ let t2 := fst (navigateTo (id (deref t1 3)) t1) in
     currentNode t2 = 3
     /\ exists n, getNextMove t2 = Some n /\ mainline game3_var !! 3 = Some n
                  /\ n <> 5.
Proof.
  apply (branch_point_asymmetry Toy.engine game3_var 2 3 5).
  - exact reachable_game3_var.
  - vm_compute. reflexivity.
  - vm_compute. apply list_elem_of_here.
Defined.

(** X9: with moves in standard notation, [getNodeIndex] tells the nodes of
    the mainline from those of the variations: for the node at index [k] of
    the mainline it returns [k], and the index finds that node under its id;
    for a node of a variation that the index finds it returns -1. *)
Theorem getNodeIndex_position (E : Engine) (t : MoveTree) :
  reachable E san_ok t ->
  (forall k r, mainline t !! k = Some r ->
     getNodeIndex t (deref t r) = Z.of_nat k
     /\ nodeMap t !! id (deref t r) = Some r)
  /\ (forall key v, nodeMap t !! key = Some v ->
        isMainline (deref t v) = false ->
        getNodeIndex t (deref t v) = (-1)%Z).
Proof.
  intros Hreach.
  pose proof (reachable_wf E san_ok t Hreach) as Hwf.
  destruct (reachable_sound E t Hreach) as (Hids & Hl & _).
  split.
  - intros k r Hk. split; [exact (getNodeIndex_mainline t k r Hids Hk)|].
    exact (ids_reg t Hids r (list_elem_of_lookup_2 _ _ _ Hk)).
  - intros key v Hk Hm. exact (getNodeIndex_variation t key v Hwf Hids Hl Hk Hm).
Qed.

Lemma getNodeIndex_position_witness :
  (forall k r, mainline game3_var !! k = Some r ->
     getNodeIndex game3_var (deref game3_var r) = Z.of_nat k
     /\ nodeMap game3_var !! id (deref game3_var r) = Some r)
  /\ (forall key v, nodeMap game3_var !! key = Some v ->
        isMainline (deref game3_var v) = false ->
        getNodeIndex game3_var (deref game3_var v) = (-1)%Z).
Proof.
  apply (getNodeIndex_position Toy.engine game3_var).
  exact reachable_game3_var.
Defined.

(** X10: with moves in standard notation, every child of a node of the
    index is in the index under its own id: [navigateTo] with the id of the
    child returns the child and puts the cursor on it, and [currentIndex]
    stays as it was. *)
Theorem navigateTo_child (E : Engine) (t : MoveTree) (k : string) (r c : nat) :
  reachable E san_ok t ->
  nodeMap t !! k = Some r -> c ∈ children (deref t r) ->
  nodeMap t !! id (deref t c) = Some c
  /\ navigateTo (id (deref t c)) t = (with_cursor t c (currentIndex t), Some c).
Proof.
  intros Hreach Hk Hin.
  pose proof (reachable_wf E san_ok t Hreach) as Hwf.
  pose proof (reachable_sound E t Hreach) as Hs.
  destruct Hs as (Hids & Hl & Hix).
  pose proof (ix_kids t Hix k r c Hk Hin) as Hkc.
  destruct (wf_map t Hwf k r Hk) as [Hr _].
  destruct (lk_kids t Hl r c Hr Hin) as (_ & Hm & _).
  split; [exact Hkc|].
  exact (navigateTo_variation t _ c Hwf (conj Hids (conj Hl Hix)) Hkc Hm).
Qed.

Lemma navigateTo_child_witness :
  nodeMap game3_var2 !! id (deref game3_var2 6) = Some 6
  /\ navigateTo (id (deref game3_var2 6)) game3_var2
     = (with_cursor game3_var2 6 (currentIndex game3_var2), Some 6).
Proof.
  apply (navigateTo_child Toy.engine game3_var2 "var_2_w_b1c3_1" 5 6).
  - exact reachable_game3_var2.
  - vm_compute. reflexivity.
  - vm_compute. apply list_elem_of_here.
Defined.

Lemma findExistingMove_tip (t : MoveTree) (r : nat) (mv : Move) :
  wf_ids t -> linked t -> indexed t -> last (mainline t) = Some r ->
  findExistingMove t (deref t r) mv = None.
Proof.
  intros Hids Hl Hix Hlast.
  pose proof (tip_not_branch t r Hids Hl Hlast) as Htip.
  apply andb_prop in Htip as [Hm Hi]. apply Z.eqb_eq in Hi.
  unfold findExistingMove, mainlineSuccessor. rewrite Hm, Hi.
  replace (Z.of_nat (length (mainline t)) - 1 + 1
           <? Z.of_nat (length (mainline t)))%Z with false
    by (symmetry; apply Z.ltb_ge; lia).
  rewrite andb_false_r. rewrite (ix_tip t Hix r Hlast). reflexivity.
Qed.

(** X11: with moves in standard notation, the last node of the mainline
    has no children, and with the cursor on it [getNextMove] returns
    nothing. *)
Theorem getNextMove_tip (E : Engine) (t : MoveTree) (r : nat) :
  reachable E san_ok t -> last (mainline t) = Some r ->
  children (deref t r) = []
  /\ let t1 := fst (navigateTo (id (deref t r)) t) in
     currentNode t1 = r /\ getNextMove t1 = None.
Proof.
  intros Hreach Hlast.
  destruct (reachable_sound E t Hreach) as (Hids & Hl & Hix).
  pose proof (ix_tip t Hix r Hlast) as Hnone.
  split; [exact Hnone|].
  pose proof (tip_not_branch t r Hids Hl Hlast) as Htip.
  apply andb_prop in Htip as [_ Hi]. apply Z.eqb_eq in Hi.
  rewrite last_lookup in Hlast.
  cbv zeta. rewrite (navigateTo_mainline t _ r Hids Hlast). cbn [fst].
  split; [reflexivity|].
  unfold getNextMove. cbn [currentNode with_cursor].
  change (getNodeIndex (with_cursor t r _) (deref (with_cursor t r _) r))
    with (getNodeIndex t (deref t r)).
  rewrite Hi.
  replace (Z.of_nat (length (mainline t)) - 1
           <? Z.of_nat (length (mainline (with_cursor t r _))) - 1)%Z
    with false by (symmetry; apply Z.ltb_ge; cbn; lia).
  rewrite andb_false_r.
  change (deref (with_cursor t r _) r) with (deref t r).
  now rewrite Hnone.
Qed.

Lemma getNextMove_tip_witness :
  children (deref game3_var 4) = []
  /\ let t1 := fst (navigateTo (id (deref game3_var 4)) game3_var) in
     currentNode t1 = 4 /\ getNextMove t1 = None.
Proof.
  apply (getNextMove_tip Toy.engine game3_var 4).
  - exact reachable_game3_var.
  - vm_compute. reflexivity.
Defined.

(** X12: with moves in standard notation, [addMove] below the last node of
    the mainline never finds a node to reuse: when it returns, it returns a
    new node that carries the move, is the new last node of the mainline
    and [final], and names the old last node by [parentId] and
    [parentIndex]; the rest of the mainline is as it was. *)
Theorem addMove_extends_mainline (E : Engine) (t t' : MoveTree) (mv : Move)
    (r n : nat) :
  reachable E san_ok t -> last (mainline t) = Some r ->
  addMove E mv (id (deref t r)) t = Returned t' (Some n) ->
  n = length (heap t)
  /\ mainline t' = mainline t ++ [n]
  /\ final t' = Some n
  /\ move (deref t' n) = Some mv
  /\ isMainline (deref t' n) = true
  /\ parentId (deref t' n) = Some (id (deref t r))
  /\ parentIndex (deref t' n) = Some (Z.of_nat (length (mainline t)) - 1)%Z.
Proof.
  intros Hreach Hlast.
  destruct (reachable_sound E t Hreach) as (Hids & Hl & Hix).
  pose proof (tip_not_branch t r Hids Hl Hlast) as Htip.
  assert (Hi : getNodeIndex t (deref t r) = (Z.of_nat (length (mainline t)) - 1)%Z).
  { apply andb_prop in Htip as [_ Hi]. now apply Z.eqb_eq in Hi. }
  assert (Hreg : nodeMap t !! id (deref t r) = Some r).
  { apply (ids_reg t Hids). rewrite last_lookup in Hlast.
    exact (list_elem_of_lookup_2 _ _ _ Hlast). }
  unfold addMove. cbv zeta. rewrite Hreg.
  rewrite (findExistingMove_tip t r mv Hids Hl Hix Hlast).
  destruct (chess_load E (fen (deref t r)) (new_Chess E)) as [ch1|];
    [|discriminate].
  destruct (chess_move E mv ch1) as [ch2|]; [|discriminate].
  rewrite Htip.
  destruct (chess_load E _ ch2) as [ch3|]; [|discriminate].
  intros [= <- <-].
  split; [reflexivity|]. split; [reflexivity|]. split; [reflexivity|].
  match goal with
  | |- context [push_mainline ?t1 ?nd] =>
      pose proof (deref_push_new t1 nd) as Hnew;
      cbn [heap with_idCounter] in Hnew; rewrite Hnew
  end.
  cbn [move isMainline parentId parentIndex].
  rewrite Hi. auto.
Qed.

Lemma addMove_extends_mainline_witness :
  5 = length (heap game3)
  /\ mainline game4 = mainline game3 ++ [5]
  /\ final game4 = Some 5
  /\ move (deref game4 5) = Some (Toy.mk_move "b8c6" "b")
  /\ isMainline (deref game4 5) = true
  /\ parentId (deref game4 5) = Some (id (deref game3 4))
  /\ parentIndex (deref game4 5) = Some (Z.of_nat (length (mainline game3)) - 1)%Z.
Proof.
  apply (addMove_extends_mainline Toy.engine game3 game4
           (Toy.mk_move "b8c6" "b") 4 5).
  - exact reachable_game3.
  - vm_compute. reflexivity.
  - vm_compute. reflexivity.
Defined.

(** *** The walk of [getPathToNode] *)

Lemma chain_snoc (t : MoveTree) (l : list nat) (r : nat) :
  chain t l ->
  (forall a, last l = Some a -> parentId (deref t r) = Some (id (deref t a))) ->
  chain t (l ++ [r]).
Proof.
  induction l as [|a l IH]; intros Hc Hlast; cbn [app chain]; [auto|].
  destruct Hc as [Ha Hc]. split.
  - destruct l as [|b l]; cbn [app]; [|exact Ha].
    apply Hlast. reflexivity.
  - apply IH; [exact Hc|].
    intros x Hx. apply Hlast. destruct l; [discriminate|exact Hx].
Qed.

Lemma path_loop_returns (t : MoveTree) :
  wf t -> sound t ->
  forall fuel r k acc,
    nodeMap t !! k = Some r -> r < fuel ->
    exists l,
      path_loop t fuel (Some r) acc = Some (l ++ acc)
      /\ (forall r0, mainline t !! 0 = Some r0 -> r0 ∉ l)
      /\ (mainline t !! 0 <> Some r -> last l = Some r)
      /\ (mainline t !! 0 = Some r -> l = [])
      /\ chain t l
      /\ (forall h, head l = Some h ->
            parentId (deref t h) = None \/ parentId (deref t h) = Some "root").
Proof.
  intros Hwf (Hids & Hl & Hix).
  destruct (lk_root t Hl) as (r0 & H0 & Hroot & _).
  induction fuel as [|fuel IH]; intros r k acc Hk Hr; [lia|].
  cbn [path_loop]. case_bool_decide as Hisroot.
  - exists []. split; [reflexivity|]. split; [intros x _; apply not_elem_of_nil|].
    split; [congruence|]. split; [reflexivity|]. split; [exact Logic.I|].
    discriminate.
  - destruct (parentId (deref t r)) as [p|] eqn:Hp.
    + destruct (ix_parent t Hix k r p Hk Hp) as (pr & Hpr & Hlt).
      assert (Htr : truthy (Some p) = Some p).
      { unfold truthy. destruct (String.eqb_spec p "") as [->|_]; [|reflexivity].
        exfalso. exact (proj2 (lk_clean t Hl "" (mk_is_Some _ _ Hpr)) eq_refl). }
      rewrite Htr, Hpr.
      destruct (IH pr p (r :: acc) Hpr ltac:(lia))
        as (l & Hrun & Hno & Hlast & Hnil & Hchain & Hhead).
      exists (l ++ [r]). split; [rewrite Hrun, <- app_assoc; reflexivity|].
      split.
      { intros x Hx Hin. apply elem_of_app in Hin as [Hin|Hin].
        - exact (Hno x Hx Hin).
        - apply list_elem_of_singleton in Hin as ->. contradiction. }
      split; [intros _; apply last_snoc|].
      split; [intros Hc; contradiction|].
      split.
      { apply chain_snoc; [exact Hchain|].
        intros a Ha. destruct (decide (mainline t !! 0 = Some pr)) as [Hpr0|Hpr0].
        - rewrite (Hnil Hpr0) in Ha. discriminate.
        - rewrite (Hlast Hpr0) in Ha. injection Ha as <-.
          now rewrite (proj2 (wf_map t Hwf p pr Hpr)). }
      intros h Hh. destruct l as [|a l].
      * injection Hh as <-. right. rewrite Hp. f_equal.
        destruct (decide (mainline t !! 0 = Some pr)) as [Hpr0|Hpr0].
        -- assert (pr = r0) as -> by congruence.
           rewrite <- (proj2 (wf_map t Hwf p r0 Hpr)).
           exact (proj2 (wf_map t Hwf "root" r0 Hroot)).
        -- specialize (Hlast Hpr0). discriminate.
      * apply Hhead. exact Hh.
    + cbn [truthy]. exists [r].
      split; [destruct fuel; reflexivity|].
      split.
      { intros x Hx Hin. apply list_elem_of_singleton in Hin as ->. contradiction. }
      split; [reflexivity|]. split; [intros Hc; contradiction|].
      split; [split; exact Logic.I|].
      intros h [= <-]. now left.
Qed.

(** X13: with moves in standard notation, the walk of [getPathToNode] from
    a node of a variation ends: the method returns a list that ends with the
    node, does not hold the root, and in which each node names the one
    before it by [parentId]; the first node of the list has no [parentId]
    or hangs below the root. *)
Theorem variation_path_walk (E : Engine) (t : MoveTree) (k : string)
    (v : nat) :
  reachable E san_ok t ->
  nodeMap t !! k = Some v -> isMainline (deref t v) = false ->
  exists path,
    getPathToNode k t = Some path
    /\ last path = Some v
    /\ (forall r0, mainline t !! 0 = Some r0 -> r0 ∉ path)
    /\ chain t path
    /\ (forall h, head path = Some h ->
          parentId (deref t h) = None \/ parentId (deref t h) = Some "root").
Proof.
  intros Hreach Hk Hm.
  pose proof (reachable_wf E san_ok t Hreach) as Hwf.
  pose proof (reachable_sound E t Hreach) as Hs.
  destruct (path_loop_returns t Hwf Hs (length (heap t)) v k [] Hk
              (proj1 (wf_map t Hwf k v Hk)))
    as (l & Hrun & Hno & Hlast & _ & Hchain & Hhead).
  exists l. rewrite app_nil_r in Hrun.
  unfold getPathToNode. rewrite Hk.
  destruct Hs as (Hids & Hl & Hix).
  rewrite (getNodeIndex_variation t k v Hwf Hids Hl Hk Hm). cbn [Z.eqb negb].
  split; [exact Hrun|]. split; [|auto].
  apply Hlast. intros H0.
  rewrite (proj1 (lk_main t Hl 0 v H0)) in Hm. discriminate.
Qed.

Lemma variation_path_walk_witness :
  exists path,
    getPathToNode "var_2_b_g8f6_2" game3_var2 = Some path
    /\ last path = Some 6
    /\ (forall r0, mainline game3_var2 !! 0 = Some r0 -> r0 ∉ path)
    /\ chain game3_var2 path
    /\ (forall h, head path = Some h ->
          parentId (deref game3_var2 h) = None
          \/ parentId (deref game3_var2 h) = Some "root").
Proof.
  apply (variation_path_walk Toy.engine game3_var2 "var_2_b_g8f6_2" 6).
  - exact reachable_game3_var2.
  - vm_compute. reflexivity.
  - vm_compute. reflexivity.
Defined.

(* ===================================================================== *)
(** ** What no method does to a node that is there                        *)
(* ===================================================================== *)

Lemma grown_refl (t : MoveTree) : grown t t.
Proof.
  split; [lia|]. intros r _. split; [apply identity_refl|reflexivity].
Qed.

Lemma grown_trans (t0 t t' : MoveTree) :
  grown t0 t -> grown t t' -> grown t0 t'.
Proof.
  intros [Hlen H] [Hlen' H']. split; [lia|].
  intros r Hr.
  destruct (H r Hr) as [(A1 & A2 & A3 & A4 & A5 & A6 & A7 & A8 & A9) Hp].
  destruct (H' r ltac:(lia))
    as [(B1 & B2 & B3 & B4 & B5 & B6 & B7 & B8 & B9) Hp'].
  split; [|etrans; eassumption].
  repeat split; congruence.
Qed.

Lemma grown_same_heap (t t' : MoveTree) : heap t' = heap t -> grown t t'.
Proof.
  intros Hh. split; [now rewrite Hh|].
  intros r _. unfold deref. rewrite Hh.
  split; [apply identity_refl|reflexivity].
Qed.

Lemma grown_reset (t : MoveTree) (root : Node) : grown t (reset_tree t root).
Proof.
  split; [simpl; rewrite length_app; lia|].
  intros r Hr. rewrite deref_reset_old by exact Hr.
  split; [apply identity_refl|reflexivity].
Qed.

Lemma grown_push (t : MoveTree) (node : Node) : grown t (push_mainline t node).
Proof.
  split; [rewrite length_heap_push; lia|].
  intros r Hr. rewrite deref_push_old by exact Hr.
  split; [apply identity_refl|reflexivity].
Qed.

Lemma grown_pushvar (t : MoveTree) (pr : nat) (node : Node) :
  grown t (push_variation t pr node).
Proof.
  split; [rewrite length_heap_pushvar; lia|].
  intros r Hr. destruct (identity_pushvar t pr node r Hr) as [Hid Hch].
  split; [exact Hid|]. rewrite Hch.
  case_decide as Hrp; [|reflexivity]. subst r. now apply prefix_app_r.
Qed.

Lemma grown_upd (t : MoveTree) (k : string) (ev : Evaluated) :
  grown t (updateClassification k ev t).
Proof.
  unfold updateClassification.
  destruct (nodeMap t !! k) as [r|]; [|apply grown_refl].
  split; [simpl; rewrite length_insert; lia|].
  intros x _.
  match goal with
  | |- context [with_evaluation _ ?c ?e ?sc ?ty] =>
      destruct (identity_store_eval t r c e sc ty x) as [Hid Hch]
  end.
  split; [exact Hid|]. now rewrite Hch.
Qed.

Lemma grown_nav (t : MoveTree) (k : string) : grown t (fst (navigateTo k t)).
Proof. apply grown_same_heap. exact (proj1 (navigateTo_frame t k)). Qed.

Lemma tree_step_grown (E : Engine) (t0 t t' : MoveTree) :
  wf t -> grown t0 t -> tree_step E t t' -> grown t0 t'.
Proof.
  intros Hwf Hg Hstep.
  destruct Hstep as [pgn ch t' Ho|mv p t' Ho|k|k ev].
  - refine (rule_buildFromPGN E any_move (grown t0) _ _ _ t pgn ch t' Hwf Hg _ Ho).
    + intros t1 f _ H1. exact (grown_trans _ _ _ H1 (grown_reset t1 _)).
    + intros t1 node mv _ H1 _ _ _ _.
      exact (grown_trans _ _ _ H1 (grown_push t1 node)).
    + intros t1 _ H1. apply (grown_trans _ _ _ H1). now apply grown_same_heap.
    + intros loaded _. apply Forall_true. intros mv. exact Logic.I.
  - refine (rule_addMove E any_move (grown t0) _ _ _ t mv p t' Hwf Hg Logic.I Ho).
    + intros t1 node m _ H1 _ _. apply (grown_trans _ t1); [exact H1|].
      apply (grown_trans _ (with_idCounter t1 (S (idCounter t1))));
        [now apply grown_same_heap|apply grown_push].
    + intros t1 pr q node m _ H1 _ _. apply (grown_trans _ t1); [exact H1|].
      apply (grown_trans _ (with_idCounter t1 (S (idCounter t1))));
        [now apply grown_same_heap|apply grown_pushvar].
    + intros t1 _ H1. apply (grown_trans _ _ _ H1). now apply grown_same_heap.
  - exact (grown_trans _ _ _ Hg (grown_nav t k)).
  - exact (grown_trans _ _ _ Hg (grown_upd t k ev)).
Qed.

Lemma tree_step_reachable (E : Engine) (t t' : MoveTree) :
  reachable E any_move t -> tree_step E t t' -> reachable E any_move t'.
Proof.
  intros Hreach Hstep.
  destruct Hstep as [pgn ch t' Ho|mv p t' Ho|k|k ev].
  - apply (reach_build E any_move t pgn ch t' Hreach); [|exact Ho].
    intros loaded _. apply Forall_true. intros mv. exact Logic.I.
  - exact (reach_add E any_move t mv p t' Hreach Logic.I Ho).
  - now apply reach_nav.
  - now apply reach_upd.
Qed.

(** X14: whatever calls of [buildFromPGN], [addMove], [navigateTo] and
    [updateClassification] follow, and however they end, a node object that
    is there stays what it is: its [id], [moveNumber], [san], [move], [fen],
    [isMainline], [parentIndex], [parentId] and [clock] never change, and
    its children are never taken away or reordered, new ones come at the
    end. *)
Theorem steps_grow (E : Engine) (t t' : MoveTree) :
  reachable E any_move t -> rtc (tree_step E) t t' -> grown t t'.
Proof.
  intros Hreach Hsteps.
  induction Hsteps as [t|t y t' Hstep Hrest IH]; [apply grown_refl|].
  apply (grown_trans t y t').
  - exact (tree_step_grown E t t y (reachable_wf E any_move t Hreach)
             (grown_refl t) Hstep).
  - apply IH. exact (tree_step_reachable E t y Hreach Hstep).
Qed.

Lemma steps_grow_witness : grown game3 game3_var2.
Proof.
  apply (steps_grow Toy.engine game3 game3_var2).
  - exact (reachable_mono Toy.engine san_ok any_move game3
             (fun _ _ => Logic.I) reachable_game3).
  - apply (rtc_l _ _ game3_var).
    + apply (step_add Toy.engine game3 (Toy.mk_move "b1c3" "w") "move_1_b_e7e5").
      vm_compute. reflexivity.
    + apply rtc_once.
      apply (step_add Toy.engine game3_var (Toy.mk_move "g8f6" "b")
               "var_2_w_b1c3_1").
      vm_compute. reflexivity.
Defined.

(** *** The list of a variation *)

Lemma variation_loop_returns (t : MoveTree) :
  wf t -> linked t ->
  forall fuel cur acc,
    cur < length (heap t) -> length (heap t) <= cur + fuel ->
    exists l,
      variation_loop t fuel cur acc = Some (acc ++ l)
      /\ forall i a, (cur :: l) !! i = Some a ->
           (cur :: l) !! S i = head (children (deref t a)).
Proof.
  intros Hwf Hl.
  induction fuel as [|fuel IH]; intros cur acc Hcur Hfuel; [lia|].
  cbn [variation_loop].
  destruct (children (deref t cur)) as [|c rest] eqn:Hch.
  - exists []. rewrite app_nil_r. split; [reflexivity|].
    intros i a Hi. destruct i as [|i]; [|discriminate].
    injection Hi as <-. now rewrite Hch.
  - assert (Hin : c ∈ children (deref t cur))
      by (rewrite Hch; apply list_elem_of_here).
    destruct (lk_kids t Hl cur c Hcur Hin) as (Hlt & _).
    pose proof (wf_children t Hwf cur c Hcur Hin) as Hc.
    destruct (IH c (acc ++ [c]) Hc ltac:(lia)) as (l & Hrun & Hnext).
    exists (c :: l). split.
    + rewrite Hrun, <- app_assoc. reflexivity.
    + intros i a Hi. destruct i as [|i].
      * injection Hi as <-. now rewrite Hch.
      * exact (Hnext i a Hi).
Qed.

(** X15: in every tree a program can hold, the walk of
    [_buildVariationMovesList] ends: for every node of the tree it returns
    a list that starts with the node, in which each node is followed by its
    first child, and that ends with a node without children. *)
Theorem buildVariationMovesList_returns (E : Engine) (ok : Move -> Prop)
    (t : MoveTree) (startNode : nat) :
  reachable E ok t -> startNode < length (heap t) ->
  exists l,
    buildVariationMovesList t startNode = Some l
    /\ head l = Some startNode
    /\ forall i a, l !! i = Some a -> l !! S i = head (children (deref t a)).
Proof.
  intros Hreach Hstart.
  destruct (variation_loop_returns t (reachable_wf E ok t Hreach)
              (reachable_linked E ok t Hreach) (length (heap t)) startNode
              [startNode] Hstart ltac:(lia)) as (l & Hrun & Hnext).
  exists (startNode :: l). split; [exact Hrun|]. split; [reflexivity|exact Hnext].
Qed.

Lemma buildVariationMovesList_returns_witness :
  exists l,
    buildVariationMovesList game3_var2 5 = Some l
    /\ head l = Some 5
    /\ forall i a, l !! i = Some a ->
         l !! S i = head (children (deref game3_var2 a)).
Proof.
  apply (buildVariationMovesList_returns Toy.engine san_ok game3_var2 5).
  - exact reachable_game3_var2.
  - vm_compute. lia.
Defined.

(* ===================================================================== *)
(** ** More about [buildFromPGN]                                          *)
(* ===================================================================== *)

Lemma final_in_store (E : Engine) (ok : Move -> Prop) (t : MoveTree) (r : nat) :
  reachable E ok t -> final t = Some r -> r < length (heap t).
Proof.
  intros Hreach. revert r.
  apply (reachable_rule E ok
           (fun t => forall r, final t = Some r -> r < length (heap t)));
    try (intros; auto; fail).
  - intros r Hr. discriminate.
  - intros t0 f _ H r Hr. simpl in *. rewrite length_app. specialize (H r Hr). lia.
  - intros t0 node mv _ H _ _ _ _ r Hr. rewrite length_heap_push.
    simpl in Hr. injection Hr as <-. lia.
  - intros t0 node mv _ H _ _ r Hr. rewrite length_heap_push.
    simpl in Hr. injection Hr as <-. simpl. lia.
  - intros t0 pr p node mv _ H _ _ r Hr. rewrite length_heap_pushvar.
    simpl in *. specialize (H r Hr). lia.
  - intros t0 k _ H r Hr.
    destruct (navigateTo_frame t0 k) as (Hh & _). rewrite Hh.
    apply H. revert Hr. unfold navigateTo. destruct (nodeMap t0 !! k); auto.
  - intros t0 k ev _ H r Hr. revert Hr. unfold updateClassification.
    destruct (nodeMap t0 !! k); [|apply H].
    simpl. rewrite length_insert. apply H.
Qed.

Lemma build_loop_final (E : Engine) (clockData : jsarray ClockInfo)
    (history : list Move) :
  forall index ch n w t t',
    build_loop E clockData history index ch n w t = Returned t' tt ->
    (history = [] /\ t' = t)
    \/ (history <> []
        /\ exists r, final t' = Some r /\ last (mainline t') = Some r
                     /\ length (heap t) <= r).
Proof.
  induction history as [|mv rest IH]; intros index ch n w t t' H;
    cbn [build_loop] in H.
  - injection H as <-. now left.
  - right. split; [discriminate|].
    destruct (find_clock clockData index) as [info|]; [|discriminate].
    destruct (chess_move_lan E (m_lan mv) ch) as [ch'|]; [|discriminate].
    destruct (IH _ _ _ _ _ _ H) as [[_ ->]|(_ & r & Hf & Hl & Hr)].
    + exists (length (heap t)). split; [reflexivity|].
      split; [cbn [mainline push_mainline]; apply last_snoc|lia].
    + exists r. split; [exact Hf|]. split; [exact Hl|].
      rewrite length_heap_push in Hr. lia.
Qed.

(** X16: when [buildFromPGN] has returned for a game with moves, [final] is
    the last node of the new mainline.  For a game without moves it leaves
    [final] as it was: [getFinalMove] then still returns the last node of
    the game before, a node that is neither on the new mainline nor in the
    new index. *)
Theorem buildFromPGN_final (E : Engine) (ok : Move -> Prop) (t t' : MoveTree)
    (pgn : string) (ch : option (chess E)) (h : list Move) :
  reachable E ok t ->
  buildFromPGN E pgn ch t = Returned t' h ->
  (h <> [] ->
   exists r, getFinalMove t' = Some r /\ last (mainline t') = Some r)
  /\ (h = [] ->
      getFinalMove t' = getFinalMove t
      /\ forall r, getFinalMove t' = Some r ->
           (r ∉ mainline t') /\ (forall k, nodeMap t' !! k <> Some r)).
Proof.
  intros Hreach. unfold buildFromPGN. cbv zeta.
  destruct (extractClockAnnotations pgn) as [cd|]; [|discriminate].
  destruct (chess_loadPgn E pgn _) as [loaded|]; [|discriminate].
  set (t1 := reset_tree t _).
  destruct (build_loop E cd _ 0 _ 1 true t1) as [t2 []|t2|] eqn:Hloop;
    [|discriminate..].
  intros [= <- <-].
  destruct (build_loop_final E cd _ _ _ _ _ _ _ Hloop)
    as [[Hnil ->]|(Hne & r & Hf & Hl & _)].
  - split; [intros Hc; contradiction|]. intros _.
    split; [reflexivity|].
    intros r Hr. unfold getFinalMove in Hr. cbn in Hr.
    pose proof (final_in_store E ok t r Hreach Hr) as Hlt.
    split.
    + cbn. intros Hin. apply list_elem_of_singleton in Hin. lia.
    + intros k Hk. cbn in Hk. apply lookup_singleton_Some in Hk as [_ Hk]. lia.
  - split; [|intros Hc; contradiction].
    intros _. exists r. split; [exact Hf|exact Hl].
Qed.

Lemma buildFromPGN_final_witness :
  let t' := tree_of game3 (buildFromPGN Toy.engine "" None game3) in
  (@nil Move <> [] ->
   exists r, getFinalMove t' = Some r /\ last (mainline t') = Some r)
  /\ (@nil Move = [] ->
      getFinalMove t' = getFinalMove game3
      /\ forall r, getFinalMove t' = Some r ->
           (r ∉ mainline t') /\ (forall k, nodeMap t' !! k <> Some r)).
Proof.
  apply (buildFromPGN_final Toy.engine san_ok game3
           (tree_of game3 (buildFromPGN Toy.engine "" None game3)) "" None []).
  - exact reachable_game3.
  - vm_compute. reflexivity.
Defined.

(** X17: when the engine rejects the notation, [buildFromPGN] throws before
    it has written to the tree: the tree is as it was. *)
Theorem buildFromPGN_rejected (E : Engine) (t : MoveTree) (pgn : string)
    (ch : option (chess E)) :
  chess_loadPgn E pgn (default (new_Chess E) ch) = None ->
  buildFromPGN E pgn ch t = Thrown t.
Proof.
  intros Hload. unfold buildFromPGN. cbv zeta.
  destruct (extractClockAnnotations_returns pgn) as [cd ->].
  now rewrite Hload.
Qed.

Lemma buildFromPGN_rejected_witness :
  buildFromPGN Toy.engine "1. e4" None game3 = Thrown game3.
Proof.
  apply (buildFromPGN_rejected Toy.engine game3 "1. e4" None).
  vm_compute. reflexivity.
Defined.

Lemma fresh_root_step (r0 : nat) (p : nat) (t : MoveTree) (mv : Move)
    (node : Node) :
  fresh_root r0 p t -> any_move mv ->
  id node = build_id (moveNo_of p) (white_of p) (m_san mv) ->
  children node = [] -> isMainline node = true ->
  moveNumber node = Some (ply_number (white_of p) (moveNo_of p)) ->
  move node = Some mv -> san node = Some (m_san mv) ->
  fresh_root r0 (S p) (push_mainline t node).
Proof.
  intros (H0 & Hroot & Hc & Hi & Hr) _ Hid _ _ _ _ _.
  split; [cbn; now apply lookup_app_l_Some|].
  split.
  { cbn. rewrite lookup_insert_ne; [exact Hroot|].
    rewrite Hid. unfold build_id. simpl. discriminate. }
  split; [exact Hc|]. split; [exact Hi|].
  rewrite length_heap_push. lia.
Qed.

(** X18: when the engine has read the notation but [buildFromPGN] throws
    while it adds the moves, the game before is gone all the same: the
    mainline starts with the new root object, the index holds it under
    ['root'], and the cursor is on it with [currentIndex] 0. *)
Theorem buildFromPGN_half_built (E : Engine) (t t' : MoveTree) (pgn : string)
    (ch : option (chess E)) :
  buildFromPGN E pgn ch t = Thrown t' ->
  is_Some (chess_loadPgn E pgn (default (new_Chess E) ch)) ->
  mainline t' !! 0 = Some (length (heap t))
  /\ nodeMap t' !! "root" = Some (length (heap t))
  /\ currentNode t' = length (heap t)
  /\ currentIndex t' = 0%Z
  /\ id (deref t' (length (heap t))) = "root".
Proof.
  unfold buildFromPGN. cbv zeta.
  destruct (extractClockAnnotations pgn) as [cd|]; [|discriminate].
  destruct (chess_loadPgn E pgn _) as [loaded|]; [|intros _ [x Hx]; discriminate].
  set (root := build_root _). set (t1 := reset_tree t root).
  assert (Hstart : fresh_root (length (heap t)) 0 t1
                   /\ deref t1 (length (heap t)) = root).
  { split; [|apply deref_reset_new].
    repeat split. simpl. rewrite length_app. simpl. lia. }
  pose proof (build_loop_inv E any_move
                (fun p t0 => fresh_root (length (heap t)) p t0
                             /\ deref t0 (length (heap t)) = root) cd) as Hinv.
  specialize (Hinv ltac:(
    intros p t0 mv node [Hf Hd] Hmv Hid Hk Hm Hn Hmove Hsan;
    split; [now apply (fresh_root_step _ p t0 mv node)|];
    rewrite deref_push_old; [exact Hd|exact (proj2 (proj2 (proj2 (proj2 Hf))))])).
  specialize (Hinv (chess_history E loaded)
                (Forall_true any_move _ (fun _ => Logic.I)) 0
                (chess_reset E loaded) 0 t1 Hstart).
  change (moveNo_of 0) with 1 in Hinv. change (white_of 0) with true in Hinv.
  destruct (build_loop E cd _ 0 _ 1 true t1) as [t2 []|t2|]; [discriminate| |discriminate].
  intros [= <-] _.
  destruct Hinv as (q & (H0 & Hroot & Hc & Hi & _) & Hd).
  rewrite Hd. auto.
Qed.

Lemma buildFromPGN_half_built_witness :
  let t' := tree_of game3 (buildFromPGN stuck_engine "1. e2e4" None game3) in
  mainline t' !! 0 = Some (length (heap game3))
  /\ nodeMap t' !! "root" = Some (length (heap game3))
  /\ currentNode t' = length (heap game3)
  /\ currentIndex t' = 0%Z
  /\ id (deref t' (length (heap game3))) = "root".
Proof.
  apply (buildFromPGN_half_built stuck_engine game3
           (tree_of game3 (buildFromPGN stuck_engine "1. e2e4" None game3))
           "1. e2e4" None).
  - vm_compute. reflexivity.
  - vm_compute. eexists. reflexivity.
Defined.

(* ===================================================================== *)
(** ** [updateClassification] and the rest of the tree                    *)
(* ===================================================================== *)

Lemma getNodeIndex_frame (t t' : MoveTree) (n n' : Node) :
  mainline t' = mainline t ->
  (forall x, id (deref t' x) = id (deref t x)) -> id n' = id n ->
  getNodeIndex t' n' = getNodeIndex t n.
Proof.
  intros Hm Hid Hn. rewrite !getNodeIndex_ids, Hn.
  rewrite (ids_frame t t' Hm); [reflexivity|]. intros r _. apply Hid.
Qed.

Lemma path_loop_frame (t t' : MoveTree) :
  mainline t' = mainline t -> nodeMap t' = nodeMap t ->
  (forall x, parentId (deref t' x) = parentId (deref t x)) ->
  forall fuel cur acc, path_loop t' fuel cur acc = path_loop t fuel cur acc.
Proof.
  intros Hm Hmap Hp.
  induction fuel as [|fuel IH]; intros [c|] acc; cbn [path_loop];
    try reflexivity; rewrite Hm; case_bool_decide; try reflexivity.
  rewrite Hp, Hmap. apply IH.
Qed.

Lemma updateClassification_fields (t : MoveTree) (k : string) (ev : Evaluated) :
  let t' := updateClassification k ev t in
  mainline t' = mainline t /\ nodeMap t' = nodeMap t
  /\ currentNode t' = currentNode t /\ currentIndex t' = currentIndex t
  /\ final t' = final t /\ idCounter t' = idCounter t
  /\ length (heap t') = length (heap t)
  /\ forall x, same_identity (deref t x) (deref t' x)
               /\ children (deref t' x) = children (deref t x).
Proof.
  cbv zeta. unfold updateClassification.
  destruct (nodeMap t !! k) as [r|].
  - repeat (split; [reflexivity|]).
    split; [simpl; apply length_insert|].
    intros x. apply identity_store_eval.
  - repeat (split; [reflexivity|]).
    intros x. split; [apply identity_refl|reflexivity].
Qed.

(** X19: an evaluation never disturbs the way through the tree: after
    [updateClassification], whatever its arguments, the mainline, the
    index and the cursor are as before, and [getNextMove],
    [getPreviousMove], [getPathToNode], [getMovesToNode] and
    [findExistingMove] answer as before. *)
Theorem updateClassification_keeps_navigation (t : MoveTree) (k : string)
    (ev : Evaluated) :
  let t' := updateClassification k ev t in
  mainline t' = mainline t /\ nodeMap t' = nodeMap t
  /\ currentNode t' = currentNode t /\ currentIndex t' = currentIndex t
  /\ getNextMove t' = getNextMove t
  /\ getPreviousMove t' = getPreviousMove t
  /\ (forall k', getPathToNode k' t' = getPathToNode k' t)
  /\ (forall k', getMovesToNode k' t' = getMovesToNode k' t)
  /\ (forall r mv, findExistingMove t' (deref t' r) mv
                   = findExistingMove t (deref t r) mv).
Proof.
  destruct (updateClassification_fields t k ev)
    as (Hm & Hmap & Hc & Hi & _ & _ & Hlen & Hst).
  cbv zeta. set (t' := updateClassification k ev t) in *.
  assert (Hid : forall x, id (deref t' x) = id (deref t x))
    by (intros x; exact (proj1 (proj1 (Hst x)))).
  assert (Hpar : forall x, parentId (deref t' x) = parentId (deref t x)).
  { intros x. destruct (Hst x) as ((_ & _ & _ & _ & _ & _ & _ & H & _) & _).
    exact H. }
  assert (Hmv : forall x, move (deref t' x) = move (deref t x)).
  { intros x. destruct (Hst x) as ((_ & _ & _ & H & _) & _). exact H. }
  assert (Hsan : forall x, san (deref t' x) = san (deref t x)).
  { intros x. destruct (Hst x) as ((_ & _ & H & _) & _). exact H. }
  assert (Hfl : forall x, isMainline (deref t' x) = isMainline (deref t x)).
  { intros x. destruct (Hst x) as ((_ & _ & _ & _ & _ & H & _) & _). exact H. }
  assert (Hgi : forall x, getNodeIndex t' (deref t' x) = getNodeIndex t (deref t x))
    by (intros x; apply getNodeIndex_frame; auto).
  assert (Hpath : forall k', getPathToNode k' t' = getPathToNode k' t).
  { intros k'. unfold getPathToNode. rewrite Hmap.
    destruct (nodeMap t !! k') as [r|]; [|reflexivity].
    rewrite Hgi, Hm, Hlen. destruct (negb _); [reflexivity|].
    now apply path_loop_frame. }
  split; [exact Hm|]. split; [exact Hmap|]. split; [exact Hc|].
  split; [exact Hi|]. split.
  { unfold getNextMove. rewrite Hc, Hgi, Hm. now rewrite (proj2 (Hst _)). }
  split.
  { unfold getPreviousMove. now rewrite Hc, Hgi, Hm, Hpar, Hmap. }
  split; [exact Hpath|]. split.
  { intros k'. unfold getMovesToNode. rewrite Hpath.
    destruct (getPathToNode k' t) as [path|]; [|reflexivity]. f_equal.
    induction path as [|x path IH]; [reflexivity|].
    cbn [List.map List.filter].
    assert (Hcm : carries_move (deref t' x) = carries_move (deref t x))
      by (unfold carries_move; now rewrite Hmv, Hsan).
    rewrite Hcm. destruct (carries_move (deref t x)); [|exact IH].
    cbn [List.map]. now rewrite IH, Hmv, Hsan. }
  intros r mv.
  assert (Hsm : forall x, same_move mv (deref t' x) = same_move mv (deref t x))
    by (intros x; unfold same_move; now rewrite Hmv).
  unfold findExistingMove, mainlineSuccessor.
  rewrite Hfl, Hgi, Hm, (proj2 (Hst r)).
  assert (Hfind : list_find (fun child => same_move mv (deref t' child) = true)
                    (children (deref t r))
                  = list_find (fun child => same_move mv (deref t child) = true)
                      (children (deref t r))).
  { apply list_find_ext. intros x. now rewrite Hsm. }
  rewrite Hfind.
  destruct (isMainline (deref t r)); [|reflexivity].
  destruct (negb _ && _); [|reflexivity].
  destruct (mainline t !! _) as [nx|]; [|reflexivity].
  now rewrite Hsm.
Qed.

Lemma updateClassification_reads_back (t : MoveTree) (k : string) (r : nat)
    (ev : Evaluated) :
  wf t -> nodeMap t !! k = Some r ->
  let t' := updateClassification k ev t in
  classification (deref t' r) = Some (ev_classification ev)
  /\ evaluatedMove (deref t' r) = Some ev
  /\ evalScore (deref t' r)
     = match topLine ev with
       | Some l => Some (line_score l)
       | None => evalScore (deref t r)
       end
  /\ evalType (deref t' r)
     = match topLine ev with
       | Some l => Some (default "cp" (truthy (line_type l)))
       | None => evalType (deref t r)
       end.
Proof.
  intros Hwf Hk. cbv zeta. unfold updateClassification. rewrite Hk.
  rewrite deref_store_eq by exact (proj1 (wf_map t Hwf k r Hk)).
  repeat split.
Qed.

(** X20: a later evaluation without a line with id 1 leaves the score of
    the evaluation before on the node, next to its own classification:
    after [updateClassification] with an evaluation whose top line is [l]
    and then with one that has no top line, the node carries the
    classification of the second and the score and type of [l], with the
    type ['cp'] when [l] names none. *)
Theorem updateClassification_stale_score (E : Engine) (ok : Move -> Prop)
    (t : MoveTree) (k : string) (r : nat) (ev1 ev2 : Evaluated) (l : Line) :
  reachable E ok t -> nodeMap t !! k = Some r ->
  topLine ev1 = Some l -> topLine ev2 = None ->
  let t2 := updateClassification k ev2 (updateClassification k ev1 t) in
  classification (deref t2 r) = Some (ev_classification ev2)
  /\ evaluatedMove (deref t2 r) = Some ev2
  /\ evalScore (deref t2 r) = Some (line_score l)
  /\ evalType (deref t2 r) = Some (default "cp" (truthy (line_type l))).
Proof.
  intros Hreach Hk H1 H2.
  pose proof (reachable_wf E ok t Hreach) as Hwf.
  pose proof (wf_updateClassification t k ev1 Hwf) as Hwf1.
  destruct (updateClassification_fields t k ev1) as (_ & Hmap & _).
  assert (Hk1 : nodeMap (updateClassification k ev1 t) !! k = Some r)
    by now rewrite Hmap.
  destruct (updateClassification_reads_back t k r ev1 Hwf Hk)
    as (_ & _ & Hs1 & Ht1).
  destruct (updateClassification_reads_back _ k r ev2 Hwf1 Hk1)
    as (Hc2 & He2 & Hs2 & Ht2).
  rewrite H1 in Hs1, Ht1. rewrite H2 in Hs2, Ht2.
  cbv zeta. rewrite Hc2, He2, Hs2, Ht2, Hs1, Ht1. auto.
Qed.

Lemma updateClassification_stale_score_witness :
  let t2 := updateClassification "move_1_w_e2e4" eval_book
              (updateClassification "move_1_w_e2e4" eval_best game3) in
  classification (deref t2 2) = Some "book"
  /\ evaluatedMove (deref t2 2) = Some eval_book
  /\ evalScore (deref t2 2) = Some 35%Z
  /\ evalType (deref t2 2) = Some "cp".
Proof.
  apply (updateClassification_stale_score Toy.engine san_ok game3
           "move_1_w_e2e4" 2 eval_best eval_book
           {| line_id := 1; line_score := 35; line_type := None |}).
  - exact reachable_game3.
  - vm_compute. reflexivity.
  - reflexivity.
  - reflexivity.
Defined.

(* ===================================================================== *)
(** ** The clock annotations, in order                                    *)
(* ===================================================================== *)

Lemma array_set_snoc {A : Type} (arr : jsarray A) (i : nat) (x : A) :
  length arr <= i ->
  array_set arr i x = arr ++ replicate (i - length arr) None ++ [Some x].
Proof.
  revert arr. induction i as [|i IH]; intros arr Hlen.
  - destruct arr; [reflexivity|simpl in Hlen; lia].
  - destruct arr as [|h arr]; cbn [array_set].
    + rewrite (IH [] ltac:(simpl; lia)). cbn [length app].
      rewrite Nat.sub_0_r. reflexivity.
    + rewrite (IH arr ltac:(simpl in Hlen; lia)). reflexivity.
Qed.

Lemma records_app {A : Type} (a b : jsarray A) :
  records (a ++ b) = records a ++ records b.
Proof. unfold records. apply omap_app. Qed.

Lemma records_holes {A : Type} (n : nat) : records (replicate n (@None A)) = [].
Proof. induction n as [|n IH]; [reflexivity|exact IH]. Qed.

Lemma first_after_head (ms : list rmatch) (i : nat) (pos : Z) (m : rmatch) :
  ms !! i = Some m -> (pos <? Z.of_nat (index m))%Z = true ->
  first_after (drop i ms) i pos = Some (i, m).
Proof.
  intros Hm Hpos. rewrite (drop_S ms m i Hm). cbn [first_after].
  now rewrite Hpos.
Qed.

Lemma attach_in_order (text : list ascii) (clockMatches : list rmatch)
    (m : rmatch) (mv : list ascii) (side : string)
    (acc : jsarray ClockInfo * nat * nat) :
  side = "white" \/ side = "black" ->
  in_order text clockMatches acc ->
  in_order text clockMatches (attach text clockMatches m mv side acc).
Proof.
  intros Hside. destruct acc as [[arr mi] ci].
  intros (Hlen & Hci & Hrec & Hpos). unfold attach.
  assert (Hskip : in_order text clockMatches (arr, S mi, ci)).
  { split; [lia|]. split; [exact Hci|]. split; [exact Hrec|exact Hpos]. }
  destruct (clockMatches !! ci) as [cm|] eqn:Hcm; [|exact Hskip].
  destruct (_ <? Z.of_nat (index cm))%Z eqn:Hguard; [|exact Hskip].
  rewrite (first_after_head clockMatches ci _ cm Hcm Hguard).
  rewrite (array_set_snoc arr mi _ Hlen).
  split.
  { rewrite !length_app, length_replicate. simpl. lia. }
  split; [apply lookup_lt_Some in Hcm; lia|].
  split.
  { rewrite !records_app, records_holes. cbn [app].
    rewrite fmap_app, Hrec.
    rewrite (take_S_r _ ci (clock_value text cm)).
    - reflexivity.
    - rewrite list_lookup_fmap, Hcm. reflexivity. }
  intros i c Hi.
  apply lookup_app_Some in Hi as [Hi|[Hge0 Hi]]; [exact (Hpos i c Hi)|].
  apply lookup_app_Some in Hi as [Hi|[Hge Hi]].
  - apply lookup_replicate in Hi as [Hi _]. discriminate.
  - rewrite length_replicate in Hge, Hi.
    apply list_lookup_singleton_Some in Hi as [Hi0 Hc].
    injection Hc as <-. cbn. split; [lia|exact Hside].
Qed.

Lemma move_loop_in_order (text : list ascii) (clockMatches : list rmatch) :
  forall fuel lastIndex acc,
    length text <= lastIndex + fuel ->
    in_order text clockMatches acc ->
    exists arr mi ci,
      move_loop text clockMatches fuel lastIndex acc = Some arr
      /\ in_order text clockMatches (arr, mi, ci).
Proof.
  induction fuel as [|fuel IH]; intros lastIndex acc Hfuel Hacc;
    cbn [move_loop].
  - destruct (exec text moveRegex lastIndex) as [m|] eqn:Hm.
    + apply search_moveRegex in Hm. lia.
    + destruct acc as [[arr mi] ci]. exists arr, mi, ci. auto.
  - destruct (exec text moveRegex lastIndex) as [m|] eqn:Hm.
    + apply search_moveRegex in Hm.
      destruct (Nat.leb_spec (mend m) lastIndex) as [?|_]; [lia|].
      apply IH; [lia|].
      destruct (truthy_group (group text m 2)).
      * apply attach_in_order; [now right|].
        destruct (truthy_group (group text m 1)); [|exact Hacc].
        apply attach_in_order; [now left|exact Hacc].
      * destruct (truthy_group (group text m 1)); [|exact Hacc].
        apply attach_in_order; [now left|exact Hacc].
    + destruct acc as [[arr mi] ci]. exists arr, mi, ci. auto.
Qed.

(* ===================================================================== *)
(** ** What [addMove] returns, and the mainline of a rebuilt tree         *)
(* ===================================================================== *)

Lemma mainlineSuccessor_Some (t : MoveTree) (p : string) (pr r : nat) (mv : Move) :
  wf t -> wf_ids t -> nodeMap t !! p = Some pr ->
  mainlineSuccessor t (deref t pr) mv = Some r ->
  same_move mv (deref t r) = true
  /\ exists i, mainline t !! i = Some pr /\ mainline t !! S i = Some r.
Proof.
  intros Hwf Hids Hp. unfold mainlineSuccessor.
  destruct (isMainline (deref t pr)); [|discriminate].
  destruct (wf_map t Hwf p pr Hp) as [_ Hid].
  pose proof (getNodeIndex_ids t (deref t pr)) as Hgi.
  destruct (key_index_cases (id (deref t pr)) (ids t))
    as [[Hk _]|(i & Hk & Hi & _)]; rewrite Hk in Hgi; rewrite Hgi.
  - cbn. discriminate.
  - destruct (negb _ && _); [|discriminate].
    replace (Z.to_nat (Z.of_nat i + 1)) with (S i) by lia.
    destruct (mainline t !! S i) as [nx|] eqn:Hnx; [|discriminate].
    destruct (same_move mv (deref t nx)) eqn:Hsm; [|discriminate].
    intros [= <-]. split; [exact Hsm|]. exists i. split; [|exact Hnx].
    rewrite ids_lookup in Hi.
    destruct (mainline t !! i) as [m|] eqn:Hm; [|discriminate].
    injection Hi as Hi.
    pose proof (ids_reg t Hids m (list_elem_of_lookup_2 _ _ _ Hm)) as Hreg.
    rewrite Hi, Hid, Hp in Hreg. congruence.
Qed.

(** X22: with moves in standard notation, a node that [addMove] returns
    comes right after the parent: it carries the [from], [to] and
    [promotion] of the move, and it is the node after the parent on the
    mainline or one of the children of the parent. *)
Theorem addMove_returns_successor (E : Engine) (t t' : MoveTree) (mv : Move)
    (p : string) (n : nat) :
  reachable E san_ok t ->
  addMove E mv p t = Returned t' (Some n) ->
  exists pr,
    nodeMap t !! p = Some pr
    /\ move_key (deref t' n) = Some (m_from mv, m_to mv, m_promotion mv)
    /\ ((exists i, mainline t' !! i = Some pr /\ mainline t' !! S i = Some n)
        \/ n ∈ children (deref t' pr)).
Proof.
  intros Hreach.
  pose proof (reachable_wf E san_ok t Hreach) as Hwf.
  pose proof (reachable_wf_ids E t Hreach) as Hids.
  unfold addMove. cbv zeta.
  destruct (nodeMap t !! p) as [pr|] eqn:Hp; [|discriminate].
  destruct (wf_map t Hwf p pr Hp) as [Hpr _].
  destruct (findExistingMove t (deref t pr) mv) as [r|] eqn:Hex.
  - intros [= <- <-]. exists pr. split; [reflexivity|].
    unfold findExistingMove in Hex.
    destruct (mainlineSuccessor t (deref t pr) mv) as [r'|] eqn:Hsucc.
    + injection Hex as ->.
      destruct (mainlineSuccessor_Some t p pr r mv Hwf Hids Hp Hsucc)
        as [Hsm Hpos].
      split; [now apply same_move_key|now left].
    + destruct (list_find _ (children (deref t pr))) as [[j c]|] eqn:Hfind;
        [|discriminate].
      injection Hex as <-. apply list_find_Some in Hfind as (Hj & Hsm & _).
      split; [now apply same_move_key|].
      right. exact (list_elem_of_lookup_2 _ _ _ Hj).
  - destruct (chess_load E (fen (deref t pr)) (new_Chess E)) as [ch1|];
      [|discriminate].
    destruct (chess_move E mv ch1) as [ch2|]; [|discriminate].
    destruct (isMainline (deref t pr)
              && (getNodeIndex t (deref t pr) =? Z.of_nat (length (mainline t)) - 1)%Z)
      eqn:Hmain; cbn [andb];
      (destruct (chess_load E _ ch2) as [ch3|]; [|discriminate]);
      intros [= <- <-]; exists pr; (split; [reflexivity|]).
    + apply andb_prop in Hmain as [_ Hi]. apply Z.eqb_eq in Hi.
      pose proof (tip_is_parent t p pr Hwf Hp Hi) as Hlast.
      rewrite last_lookup in Hlast.
      match goal with
      | |- context [push_mainline ?t1 ?nd] =>
          pose proof (deref_push_new t1 nd) as Hnew;
          cbn [heap with_idCounter] in Hnew; rewrite Hnew
      end.
      split; [reflexivity|]. left.
      exists (Nat.pred (length (mainline t))).
      cbn [mainline push_mainline with_idCounter].
      assert (Hlen : length (mainline t) <> 0).
      { intros H0. rewrite H0 in Hlast. destruct (mainline t); discriminate. }
      split; [now apply lookup_app_l_Some|].
      replace (S (Nat.pred (length (mainline t)))) with (length (mainline t) + 0)
        by lia.
      rewrite lookup_app_r by lia.
      replace (length (mainline t) + 0 - length (mainline t)) with 0 by lia.
      reflexivity.
    + match goal with
      | |- context [push_variation ?t1 pr ?nd] =>
          pose proof (deref_pushvar_new t1 pr nd) as Hnew;
          destruct (identity_pushvar t1 pr nd pr Hpr) as [_ Hch];
          cbn [heap with_idCounter] in Hnew, Hch; rewrite Hnew, Hch
      end.
      split; [reflexivity|]. right.
      rewrite decide_True by reflexivity.
      apply elem_of_app. right. now apply list_elem_of_singleton.
Qed.

Lemma addMove_returns_successor_witness :
  exists pr,
    nodeMap game3_var !! "var_2_w_b1c3_1" = Some pr
    /\ move_key (deref game3_var2 6)
       = Some (m_from (Toy.mk_move "g8f6" "b"), m_to (Toy.mk_move "g8f6" "b"),
               m_promotion (Toy.mk_move "g8f6" "b"))
    /\ ((exists i, mainline game3_var2 !! i = Some pr
                   /\ mainline game3_var2 !! S i = Some 6)
        \/ 6 ∈ children (deref game3_var2 pr)).
Proof.
  apply (addMove_returns_successor Toy.engine game3_var game3_var2
           (Toy.mk_move "g8f6" "b") "var_2_w_b1c3_1" 6).
  - exact reachable_game3_var.
  - vm_compute. reflexivity.
Defined.

(** X23: with moves in standard notation, for the node at index [k] of the
    mainline [getPathToNode] returns the [k] nodes behind the root, in the
    order of the mainline, the root not among them. *)
Theorem getPathToNode_on_mainline (E : Engine) (t : MoveTree) (k : nat) (n : nat) :
  reachable E san_ok t -> mainline t !! k = Some n ->
  getPathToNode (id (deref t n)) t = Some (take k (drop 1 (mainline t)))
  /\ length (take k (drop 1 (mainline t))) = k
  /\ forall r0, mainline t !! 0 = Some r0 -> r0 ∉ take k (drop 1 (mainline t)).
Proof.
  intros Hreach Hk.
  exact (getPathToNode_mainline t k n (reachable_wf_ids E t Hreach) Hk).
Qed.

Lemma getPathToNode_on_mainline_witness :
  getPathToNode (id (deref game3_var 4)) game3_var
  = Some (take 3 (drop 1 (mainline game3_var)))
  /\ length (take 3 (drop 1 (mainline game3_var))) = 3
  /\ forall r0, mainline game3_var !! 0 = Some r0 ->
       r0 ∉ take 3 (drop 1 (mainline game3_var)).
Proof.
  apply (getPathToNode_on_mainline Toy.engine game3_var 3 4).
  - exact reachable_game3_var.
  - vm_compute. reflexivity.
Defined.

(** X24: when [buildFromPGN] has returned for a game in standard notation,
    then for every node of the mainline the moves [getMovesToNode] returns,
    as many as the index of the node, replayed from the position the engine
    was reset to, lead to the position stored on the node. *)
Theorem mainline_moves_replay (E : Engine) (t t' : MoveTree) (pgn : string)
    (ch : option (chess E)) (h : list Move) :
  reachable E san_ok t ->
  buildFromPGN E pgn ch t = Returned t' h ->
  Forall san_ok h -> Forall (fun mv => m_san mv <> "") h ->
  exists loaded,
    chess_loadPgn E pgn (default (new_Chess E) ch) = Some loaded
    /\ h = chess_history E loaded
    /\ forall k n, mainline t' !! k = Some n ->
         exists ms chk,
           getMovesToNode (id (deref t' n)) t' = Some ms
           /\ length ms = k
           /\ replay_lans E (moves_lans ms) (chess_reset E loaded) = Some chk
           /\ fen (deref t' n) = Some (chess_fen E chk).
Proof. exact (buildFromPGN_mainline_roundtrip E t t' pgn ch h). Qed.

Lemma mainline_moves_replay_witness :
  exists loaded,
    chess_loadPgn Toy.engine "1. e2e4 e7e5 2. g1f3" (default (new_Chess Toy.engine) None)
    = Some loaded
    /\ Toy.played (default Toy.start (Toy.loadPgn "1. e2e4 e7e5 2. g1f3" Toy.start))
       = chess_history Toy.engine loaded
    /\ forall k n, mainline game3 !! k = Some n ->
         exists ms chk,
           getMovesToNode (id (deref game3 n)) game3 = Some ms
           /\ length ms = k
           /\ replay_lans Toy.engine (moves_lans ms)
                (chess_reset Toy.engine loaded) = Some chk
           /\ fen (deref game3 n) = Some (chess_fen Toy.engine chk).
Proof.
  apply (mainline_moves_replay Toy.engine constructor game3
           "1. e2e4 e7e5 2. g1f3" None
           (Toy.played (default Toy.start
                          (Toy.loadPgn "1. e2e4 e7e5 2. g1f3" Toy.start)))).
  - apply reach_new.
  - vm_compute. reflexivity.
  - vm_compute. repeat constructor.
  - vm_compute. repeat constructor; discriminate.
Defined.

(** *** The nodes [buildFromPGN] makes, with their clocks *)

Lemma extract_positions (pgn : string) (arr : jsarray ClockInfo) :
  extractClockAnnotations pgn = Some arr ->
  forall i c, arr !! i = Some (Some c) -> ClockInfo.moveIndex c = i.
Proof.
  unfold extractClockAnnotations. cbv zeta.
  destruct (Nat.eqb _ 0).
  - intros [= <-] i c Hi. discriminate.
  - intros Hrun.
    destruct (move_loop_in_order (moveTextOf pgn) (clockMatchesOf pgn)
                (length (moveTextOf pgn)) 0 ([], 0, 0) ltac:(lia))
      as (arr' & mi & ci & Hrun' & _ & _ & _ & Hpos).
    { split; [simpl; lia|]. split; [lia|]. split; [reflexivity|].
      intros i c Hi. discriminate. }
    unfold clockMatchesOf in Hrun'. rewrite Hrun in Hrun'. injection Hrun' as <-.
    intros i c Hi. exact (proj1 (Hpos i c Hi)).
Qed.

Lemma find_clock_position (arr : jsarray ClockInfo) :
  forall off k info,
    (forall i c, arr !! i = Some (Some c) -> ClockInfo.moveIndex c = off + i) ->
    off <= k ->
    find_clock arr k = Some info ->
    info = match arr !! (k - off) with
           | Some (Some c) => Some c
           | _ => None
           end.
Proof.
  induction arr as [|[c|] rest IH]; intros off k info Hpos Hk;
    cbn [find_clock].
  - intros [= <-]. reflexivity.
  - pose proof (Hpos 0 c eq_refl) as Hc. rewrite Nat.add_0_r in Hc. rewrite Hc.
    destruct (Nat.eqb_spec off k) as [->|Hne].
    + intros [= <-]. now rewrite Nat.sub_diag.
    + intros Hfind.
      rewrite (IH (S off) k info); [|intros i x Hi|lia|exact Hfind].
      * replace (k - off) with (S (k - S off)) by lia. reflexivity.
      * rewrite (Hpos (S i) x Hi). lia.
  - discriminate.
Qed.

Lemma build_loop_nodes (E : Engine) (clockData : jsarray ClockInfo)
    (history : list Move) :
  forall index ch p t t',
    build_loop E clockData history index ch (moveNo_of p) (white_of p) t
    = Returned t' tt ->
    exists new,
      mainline t' = mainline t ++ new
      /\ length new = length history
      /\ (forall r, r < length (heap t) -> deref t' r = deref t r)
      /\ (forall r, r ∈ new -> length (heap t) <= r)
      /\ forall i r mv, new !! i = Some r -> history !! i = Some mv ->
           move (deref t' r) = Some mv
           /\ san (deref t' r) = Some (m_san mv)
           /\ id (deref t' r)
              = build_id (moveNo_of (p + i)) (white_of (p + i)) (m_san mv)
           /\ exists info,
                find_clock clockData (index + i) = Some info
                /\ clock (deref t' r) = ClockInfo.clock <$> info.
Proof.
  induction history as [|mv rest IH]; intros index ch p t t' H;
    cbn [build_loop] in H.
  - injection H as <-. exists []. rewrite app_nil_r.
    split; [reflexivity|]. split; [reflexivity|]. split; [reflexivity|].
    split; [intros r Hr; inversion Hr|]. intros i r x Hi. discriminate.
  - destruct (find_clock clockData index) as [info|] eqn:Hclock; [|discriminate].
    destruct (chess_move_lan E (m_lan mv) ch) as [ch'|]; [|discriminate].
    destruct (ply_step p) as [Hn Hw]. rewrite Hn, Hw in H.
    match type of H with
    | context [push_mainline t ?nd] => set (node := nd) in *
    end.
    apply IH in H as (new & Hmain & Hlen & Hold & Hge & Hnodes).
    exists (length (heap t) :: new).
    assert (Hnew : deref t' (length (heap t)) = node).
    { rewrite Hold by (rewrite length_heap_push; lia). apply deref_push_new. }
    split; [rewrite Hmain; cbn [mainline push_mainline];
            now rewrite <- app_assoc|].
    split; [simpl; now rewrite Hlen|].
    split.
    { intros r Hr. rewrite Hold by (rewrite length_heap_push; lia).
      now apply deref_push_old. }
    split.
    { intros r Hr. apply elem_of_cons in Hr as [->|Hr]; [lia|].
      specialize (Hge r Hr). rewrite length_heap_push in Hge. lia. }
    intros [|i] r x Hi Hx; cbn [lookup list_lookup] in Hi, Hx.
    + injection Hi as <-. injection Hx as <-. rewrite Hnew.
      rewrite !Nat.add_0_r.
      split; [reflexivity|]. split; [reflexivity|]. split; [reflexivity|].
      exists info. split; [exact Hclock|reflexivity].
    + destruct (Hnodes i r x Hi Hx) as (Hm & Hs & Hid & info' & Hf & Hc).
      split; [exact Hm|]. split; [exact Hs|].
      split; [replace (p + S i) with (S p + i) by lia; exact Hid|].
      exists info'. split; [|exact Hc].
      replace (index + S i) with (S index + i) by lia. exact Hf.
Qed.

(** X25: when [buildFromPGN] has returned, the mainline is the root and one
    node for each move of the history the engine gave.  The node of the
    move with index [k] is at index [k + 1]; it carries the move and its
    notation, the id made of the move number, the side and the notation
    without check and mate signs, and the clock of the record at position
    [k] of the array [extractClockAnnotations] returns, or no clock when
    there is no record at that position. *)
Theorem buildFromPGN_nodes (E : Engine) (t t' : MoveTree) (pgn : string)
    (ch : option (chess E)) (h : list Move) :
  buildFromPGN E pgn ch t = Returned t' h ->
  exists arr,
    extractClockAnnotations pgn = Some arr
    /\ length (mainline t') = S (length h)
    /\ forall k mv, h !! k = Some mv ->
         exists r,
           mainline t' !! S k = Some r
           /\ length (heap t) < r
           /\ move (deref t' r) = Some mv
           /\ san (deref t' r) = Some (m_san mv)
           /\ id (deref t' r) = build_id (moveNo_of k) (white_of k) (m_san mv)
           /\ clock (deref t' r)
              = match arr !! k with
                | Some (Some c) => Some (ClockInfo.clock c)
                | _ => None
                end.
Proof.
  unfold buildFromPGN. cbv zeta.
  destruct (extractClockAnnotations pgn) as [cd|] eqn:Hcd; [|discriminate].
  destruct (chess_loadPgn E pgn _) as [loaded|]; [|discriminate].
  set (t1 := reset_tree t _).
  destruct (build_loop E cd _ 0 _ 1 true t1) as [t2 []|t2|] eqn:Hloop;
    [|discriminate..].
  intros [= <- <-].
  change 1 with (moveNo_of 0) in Hloop. change true with (white_of 0) in Hloop.
  destruct (build_loop_nodes E cd _ _ _ _ _ _ Hloop)
    as (new & Hmain & Hlen & _ & Hge & Hnodes).
  exists cd. split; [reflexivity|].
  cbn [mainline with_cursor]. rewrite Hmain.
  split; [rewrite length_app; simpl; lia|].
  intros k mv Hk.
  destruct (new !! k) as [r|] eqn:Hr;
    [|apply lookup_ge_None in Hr; apply lookup_lt_Some in Hk; lia].
  exists r. split; [exact Hr|].
  destruct (Hnodes k r mv Hr Hk) as (Hm & Hs & Hid & info & Hf & Hc).
  split.
  { specialize (Hge r (list_elem_of_lookup_2 _ _ _ Hr)).
    unfold t1 in Hge. simpl in Hge. rewrite length_app in Hge. simpl in Hge. lia. }
  split; [exact Hm|]. split; [exact Hs|]. split; [exact Hid|].
  change (clock (deref t2 r) = match cd !! k with
                               | Some (Some c) => Some (ClockInfo.clock c)
                               | _ => None
                               end).
  rewrite Hc.
  rewrite (find_clock_position cd 0 k info); [| |lia|exact Hf].
  - rewrite Nat.sub_0_r. destruct (cd !! k) as [[c|]|]; reflexivity.
  - intros i c Hi. exact (extract_positions pgn cd Hcd i c Hi).
Qed.

Lemma buildFromPGN_nodes_witness :
  exists arr,
    extractClockAnnotations "1. e2e4 e7e5 2. g1f3" = Some arr
    /\ length (mainline game3) = S (length (chess_history Toy.engine
         (default Toy.start (Toy.loadPgn "1. e2e4 e7e5 2. g1f3" Toy.start))))
    /\ forall k mv,
         chess_history Toy.engine
           (default Toy.start (Toy.loadPgn "1. e2e4 e7e5 2. g1f3" Toy.start))
           !! k = Some mv ->
         exists r,
           mainline game3 !! S k = Some r
           /\ length (heap constructor) < r
           /\ move (deref game3 r) = Some mv
           /\ san (deref game3 r) = Some (m_san mv)
           /\ id (deref game3 r) = build_id (moveNo_of k) (white_of k) (m_san mv)
           /\ clock (deref game3 r)
              = match arr !! k with
                | Some (Some c) => Some (ClockInfo.clock c)
                | _ => None
                end.
Proof.
  apply (buildFromPGN_nodes Toy.engine constructor game3
           "1. e2e4 e7e5 2. g1f3" None).
  vm_compute. reflexivity.
Defined.

(** *** The positions on the nodes *)

Lemma positioned_grown (t t' : MoveTree) :
  positioned t -> grown t t' ->
  (forall r, length (heap t) <= r -> r < length (heap t') ->
             is_Some (fen (deref t' r))) ->
  positioned t'.
Proof.
  intros (Hlen & H0 & Hpos) [Hle Hold] Hnew.
  split; [lia|]. split.
  - destruct (Hold 0 Hlen) as ((_ & _ & _ & _ & Hf & _) & _). now rewrite Hf.
  - intros r Hr Hr'. destruct (decide (r < length (heap t))) as [Hlt|Hge].
    + destruct (Hold r Hlt) as ((_ & _ & _ & _ & Hf & _) & _). rewrite Hf. auto.
    + apply Hnew; lia.
Qed.

Lemma reachable_positioned (E : Engine) (ok : Move -> Prop) (t : MoveTree) :
  reachable E ok t -> positioned t.
Proof.
  apply (reachable_rule E ok positioned).
  - split; [simpl; lia|]. split; [reflexivity|]. intros r H0 Hr. simpl in Hr. lia.
  - intros t0 f _ Hp. apply (positioned_grown t0 _ Hp (grown_reset t0 _)).
    intros r Hge Hlt. simpl in Hlt. rewrite length_app in Hlt. simpl in Hlt.
    assert (r = length (heap t0)) as -> by lia.
    rewrite deref_reset_new. simpl. eauto.
  - intros t0 node mv _ Hp _ ((_ & _ & _ & Hf & _) & _) _ _.
    apply (positioned_grown t0 _ Hp (grown_push t0 node)).
    intros r Hge Hlt. rewrite length_heap_push in Hlt.
    assert (r = length (heap t0)) as -> by lia.
    rewrite deref_push_new. exact Hf.
  - intros t0 node mv _ Hp _ ((_ & _ & _ & Hf & _) & _).
    apply (positioned_grown t0 _ Hp).
    + apply (grown_trans _ (with_idCounter t0 (S (idCounter t0))));
        [now apply grown_same_heap|apply grown_push].
    + intros r Hge Hlt. rewrite length_heap_push in Hlt.
      cbn [heap with_idCounter] in Hlt.
      assert (r = length (heap t0)) as -> by lia.
      match goal with
      | |- context [push_mainline ?t1 ?nd] =>
          pose proof (deref_push_new t1 nd) as Hnew;
          cbn [heap with_idCounter] in Hnew; rewrite Hnew
      end.
      exact Hf.
  - intros t0 pr p node mv _ Hp _ ((_ & _ & _ & Hf & _) & _).
    apply (positioned_grown t0 _ Hp).
    + apply (grown_trans _ (with_idCounter t0 (S (idCounter t0))));
        [now apply grown_same_heap|apply grown_pushvar].
    + intros r Hge Hlt. rewrite length_heap_pushvar in Hlt.
      cbn [heap with_idCounter] in Hlt.
      assert (r = length (heap t0)) as -> by lia.
      match goal with
      | |- context [push_variation ?t1 pr ?nd] =>
          pose proof (deref_pushvar_new t1 pr nd) as Hnew;
          cbn [heap with_idCounter] in Hnew; rewrite Hnew
      end.
      exact Hf.
  - intros t0 _ Hp. exact Hp.
  - intros t0 _ Hp. exact Hp.
  - intros t0 k _ Hp. apply (positioned_grown t0 _ Hp (grown_nav t0 k)).
    intros r Hge Hlt. rewrite (proj1 (navigateTo_frame t0 k)) in Hlt. lia.
  - intros t0 k ev _ Hp. apply (positioned_grown t0 _ Hp (grown_upd t0 k ev)).
    intros r Hge Hlt.
    destruct (updateClassification_fields t0 k ev) as (_ & _ & _ & _ & _ & _ & Hl & _).
    rewrite Hl in Hlt. lia.
Qed.

Lemma reachable_first_root (E : Engine) (ok : Move -> Prop) (t : MoveTree)
    (k : string) :
  reachable E ok t -> nodeMap t !! k = Some 0 ->
  k = "root" /\ mainline t !! 0 = Some 0.
Proof.
  intros Hreach. revert k.
  apply (reachable_rule E ok
           (fun t => forall k, nodeMap t !! k = Some 0 ->
                       k = "root" /\ mainline t !! 0 = Some 0));
    [| | | | | | | | |exact Hreach].
  - intros k Hk. simpl in Hk. apply lookup_singleton_Some in Hk as [<- _]. auto.
  - intros t0 f Hwf0 _ k Hk. simpl in Hk.
    apply lookup_singleton_Some in Hk as [_ Hk].
    pose proof (wf_cursor t0 Hwf0). lia.
  - intros t0 node mv Hwf0 IH _ _ _ _ k Hk. cbn in Hk.
    pose proof (wf_cursor t0 Hwf0) as Hc.
    destruct (decide (id node = k)) as [Heq|Hne].
    { rewrite Heq, lookup_insert_eq in Hk. injection Hk as Hk. lia. }
    rewrite lookup_insert_ne in Hk by exact Hne.
    destruct (IH k Hk) as [-> H0]. split; [reflexivity|].
    cbn. now apply lookup_app_l_Some.
  - intros t0 node mv Hwf0 IH _ _ k Hk. cbn in Hk.
    pose proof (wf_cursor t0 Hwf0) as Hc.
    destruct (decide (id node = k)) as [Heq|Hne].
    { rewrite Heq, lookup_insert_eq in Hk. injection Hk as Hk. lia. }
    rewrite lookup_insert_ne in Hk by exact Hne.
    destruct (IH k Hk) as [-> H0]. split; [reflexivity|].
    cbn. now apply lookup_app_l_Some.
  - intros t0 pr p node mv Hwf0 IH _ _ k Hk. cbn in Hk.
    pose proof (wf_cursor t0 Hwf0) as Hc.
    destruct (decide (id node = k)) as [Heq|Hne].
    { rewrite Heq, lookup_insert_eq in Hk. injection Hk as Hk. lia. }
    rewrite lookup_insert_ne in Hk by exact Hne.
    exact (IH k Hk).
  - intros t0 _ IH. exact IH.
  - intros t0 _ IH. exact IH.
  - intros t0 k0 _ IH k Hk.
    destruct (navigateTo_frame t0 k0) as (_ & Hm & Hmap).
    rewrite Hmap in Hk. rewrite Hm. exact (IH k Hk).
  - intros t0 k0 ev _ IH k Hk.
    destruct (updateClassification_fields t0 k0 ev) as (Hm & Hmap & _).
    rewrite Hmap in Hk. rewrite Hm. exact (IH k Hk).
Qed.

(** X26: in every tree a program can hold, the only node of the index
    without a position is the root the constructor made, and it is in the
    index only as the root in use: every root [buildFromPGN] installs and
    every node [buildFromPGN] or [addMove] adds has a position.  So
    [addMove] hands [null] to the engine only below the root of a tree on
    which [buildFromPGN] has not got as far as the new root. *)
Theorem nodes_have_positions (E : Engine) (ok : Move -> Prop) (t : MoveTree)
    (k : string) (r : nat) :
  reachable E ok t -> nodeMap t !! k = Some r ->
  (fen (deref t r) = None <-> r = 0)
  /\ (r = 0 -> k = "root" /\ mainline t !! 0 = Some 0).
Proof.
  intros Hreach Hk.
  pose proof (reachable_wf E ok t Hreach) as Hwf.
  destruct (reachable_positioned E ok t Hreach) as (Hlen & H0 & Hpos).
  destruct (wf_map t Hwf k r Hk) as [Hr Hid].
  split.
  - split.
    + intros Hnone. destruct (decide (r = 0)) as [->|Hne]; [reflexivity|].
      destruct (Hpos r ltac:(lia) Hr) as [f Hf]. congruence.
    + intros ->. exact H0.
  - intros ->. exact (reachable_first_root E ok t k Hreach Hk).
Qed.

Lemma nodes_have_positions_witness :
  (fen (deref constructor 0) = None <-> 0 = 0)
  /\ (0 = 0 -> "root" = "root" /\ mainline constructor !! 0 = Some 0).
Proof.
  apply (nodes_have_positions Toy.engine san_ok constructor "root" 0).
  - apply reach_new.
  - vm_compute. reflexivity.
Defined.

(* ===================================================================== *)
(** ** The array of clocks has no holes                                   *)
(* ===================================================================== *)

(** *** What a match has consumed and captured *)

Lemma span_refl (s : list ascii) (Q : ascii -> Prop) (i : nat) : span s Q i i.
Proof. intros x H1 H2. lia. Qed.

Lemma span_trans (s : list ascii) (Q : ascii -> Prop) (i j k : nat) :
  span s Q i j -> span s Q j k -> span s Q i k.
Proof.
  intros H1 H2 x Hx Hx'. destruct (decide (x < j)); [apply H1|apply H2]; lia.
Qed.

Lemma span_weaken (s : list ascii) (Q : ascii -> Prop) (i j j' : nat) :
  span s Q i j -> j' <= j -> span s Q i j'.
Proof. intros H Hj x Hx Hx'. apply H; lia. Qed.

Lemma cap_skip (c : caps) (m n : nat) (v : nat * nat) :
  m <> n -> cap ((m, v) :: c) n = cap c n.
Proof.
  intros Hne. unfold cap. cbn [List.find fst].
  destruct (Nat.eqb_spec m n); [contradiction|reflexivity].
Qed.

Lemma star_loop_track (s : list ascii) (Q : ascii -> Prop) (n : nat)
    (step : nat -> caps -> (nat -> caps -> option mresult) -> option mresult)
    (g : bool) (k : nat -> caps -> option mresult) :
  (forall i c k' res, step i c k' = Some res ->
     exists j c', i <= j /\ k' j c' = Some res /\ span s Q i j
                  /\ cap c' n = cap c n) ->
  forall fuel i c res,
    star_loop step g k fuel i c = Some res ->
    exists j c', i <= j /\ k j c' = Some res /\ span s Q i j
                 /\ cap c' n = cap c n.
Proof.
  intros Hstep. induction fuel as [|fuel IHf]; intros i c res H; simpl in H.
  - exists i, c. split; [lia|]. split; [exact H|].
    split; [apply span_refl|reflexivity].
  - assert (Hiter : forall x j c1,
              i <= j ->
              (if Nat.eqb j i then None else star_loop step g k fuel j c1) = Some x ->
              span s Q i j -> cap c1 n = cap c n ->
              exists j' c', i <= j' /\ k j' c' = Some x /\ span s Q i j'
                            /\ cap c' n = cap c n).
    { intros x j c1 Hj Hrun Hs1 Hc1.
      destruct (Nat.eqb j i); [discriminate|].
      apply IHf in Hrun as (j' & c2 & Hj' & Hrun & Hs2 & Hc2).
      exists j', c2. split; [lia|]. split; [exact Hrun|].
      split; [exact (span_trans s Q i j j' Hs1 Hs2)|congruence]. }
    destruct g.
    + destruct (step i c _) as [x|] eqn:Hrun.
      * injection H as ->.
        apply Hstep in Hrun as (j & c1 & Hj & Hrun & Hs1 & Hc1).
        exact (Hiter res j c1 Hj Hrun Hs1 Hc1).
      * exists i, c. split; [lia|]. split; [exact H|].
        split; [apply span_refl|reflexivity].
    + destruct (k i c) as [x|] eqn:Hk.
      * injection H as ->. exists i, c. split; [lia|]. split; [exact Hk|].
        split; [apply span_refl|reflexivity].
      * apply Hstep in H as (j & c1 & Hj & Hrun & Hs1 & Hc1).
        exact (Hiter res j c1 Hj Hrun Hs1 Hc1).
Qed.

Lemma run_track (s : list ascii) (Q : ascii -> Prop) (n : nat) (r : re) :
  chars_in Q r -> no_group n r ->
  forall i c k res,
    run s r i c k = Some res ->
    exists j c', i <= j /\ k j c' = Some res /\ span s Q i j
                 /\ cap c' n = cap c n.
Proof.
  induction r as [p|a IHa b IHb|g a IHa|a IHa|m a IHa| |];
    intros HQ Hn i c k res H; cbn [run] in H; cbn [chars_in no_group] in HQ, Hn.
  - destruct (s !! i) as [x|] eqn:Hx; [|discriminate].
    destruct (p x) eqn:Hp; [|discriminate].
    exists (S i), c. split; [lia|]. split; [exact H|]. split; [|reflexivity].
    intros y Hy Hy'. assert (y = i) as -> by lia. exists x. auto.
  - destruct HQ as [HQa HQb]. destruct Hn as [Hna Hnb].
    apply (IHa HQa Hna) in H as (j & c1 & Hj & H & Hs1 & Hc1).
    apply (IHb HQb Hnb) in H as (j' & c2 & Hj' & H & Hs2 & Hc2).
    exists j', c2. split; [lia|]. split; [exact H|].
    split; [exact (span_trans s Q i j j' Hs1 Hs2)|congruence].
  - exact (star_loop_track s Q n (run s a) g k (IHa HQ Hn) _ i c res H).
  - destruct (run s a i c _) as [x|] eqn:Hrun.
    + injection H as ->.
      apply (IHa HQ Hn) in Hrun as (j & c1 & Hj & Hrun & Hs1 & Hc1).
      destruct (Nat.eqb j i); [discriminate|].
      exists j, c1. auto.
    + exists i, c. split; [lia|]. split; [exact H|].
      split; [apply span_refl|reflexivity].
  - destruct Hn as [Hmn Hn].
    apply (IHa HQ Hn) in H as (j & c1 & Hj & H & Hs1 & Hc1).
    exists j, ((m, (i, j)) :: c1). split; [lia|]. split; [exact H|].
    split; [exact Hs1|]. now rewrite cap_skip.
  - destruct i as [|i'].
    + exists 0, c. split; [lia|]. split; [exact H|].
      split; [apply span_refl|reflexivity].
    + destruct (s !! i') as [x|]; [|discriminate].
      destruct (is_line_terminator x); [|discriminate].
      exists (S i'), c. split; [lia|]. split; [exact H|].
      split; [apply span_refl|reflexivity].
  - destruct (s !! i) as [x|].
    + destruct (is_line_terminator x); [|discriminate].
      exists i, c. split; [lia|]. split; [exact H|].
      split; [apply span_refl|reflexivity].
    + destruct (Nat.eqb i (length s)); [|discriminate].
      exists i, c. split; [lia|]. split; [exact H|].
      split; [apply span_refl|reflexivity].
Qed.

Lemma run_Seq (s : list ascii) (a b : re) (i : nat) (c : caps)
    (k : nat -> caps -> option mresult) :
  run s (Seq a b) i c k = run s a i c (fun j c' => run s b j c' k).
Proof. reflexivity. Qed.

Lemma run_Group (s : list ascii) (n : nat) (a : re) (i : nat) (c : caps)
    (k : nat -> caps -> option mresult) :
  run s (Group n a) i c k = run s a i c (fun j c' => k j ((n, (i, j)) :: c')).
Proof. reflexivity. Qed.

Lemma run_Chr (s : list ascii) (p : ascii -> bool) (i : nat) (c : caps)
    (k : nat -> caps -> option mresult) (res : mresult) :
  run s (Chr p) i c k = Some res ->
  exists a, s !! i = Some a /\ p a = true /\ k (S i) c = Some res.
Proof.
  cbn [run]. destruct (s !! i) as [x|]; [|discriminate].
  destruct (p x) eqn:Hp; [|discriminate]. eauto.
Qed.

Lemma digit_not_brace (a : ascii) : is_digit a = true -> not_brace a.
Proof. intros H ->. vm_compute in H. discriminate. Qed.

Lemma dot_not_brace (a : ascii) : lit "." a = true -> not_brace a.
Proof. intros H ->. vm_compute in H. discriminate. Qed.

Lemma space_not_brace (a : ascii) : is_space a = true -> not_brace a.
Proof. intros H ->. vm_compute in H. discriminate. Qed.

Lemma move_char_not_brace (a : ascii) :
  none_of [is_space; lit "{"] a = true -> not_brace a.
Proof. intros H ->. vm_compute in H. discriminate. Qed.

(** A match of the move pattern: the first group is there and not empty,
    and there is no opening brace from the start of the match to the start
    of the group. *)
Lemma moveRegex_shape (s : list ascii) (i : nat) (res : mresult) :
  run s moveRegex i [] (fun j c => Some (j, c)) = Some res ->
  exists a1 b1,
    cap (snd res) 1 = Some (a1, b1)
    /\ i <= a1 /\ a1 < b1 /\ b1 <= fst res
    /\ span s not_brace i (S a1).
Proof.
  unfold moveRegex. cbn [seq]. intros H.
  rewrite run_Seq in H.
  apply (run_track s not_brace 1) in H as (j1 & c1 & Hj1 & H & Hs1 & Hc1);
    [|split; exact digit_not_brace|split; exact Logic.I].
  rewrite run_Seq in H.
  apply (run_track s not_brace 1) in H as (j2 & c2 & Hj2 & H & Hs2 & Hc2);
    [|exact dot_not_brace|exact Logic.I].
  rewrite run_Seq in H.
  apply (run_track s not_brace 1) in H as (j3 & c3 & Hj3 & H & Hs3 & Hc3);
    [|exact space_not_brace|exact Logic.I].
  rewrite run_Seq, run_Group in H. unfold Plus at 1 in H.
  rewrite run_Seq in H.
  apply run_Chr in H as (a & Ha & Hpa & H).
  apply (run_track s (fun _ => True) 1) in H as (j4 & c4 & Hj4 & H & _ & Hc4);
    [|intros x _; exact Logic.I|exact Logic.I].
  cbv beta in H.
  apply (run_track s (fun _ => True) 1) in H as (j5 & c5 & Hj5 & H & _ & Hc5).
  - injection H as <-. exists j3, j4. cbn [fst snd].
    split; [rewrite Hc5; unfold cap; reflexivity|].
    split; [lia|]. split; [lia|]. split; [lia|].
    apply (span_trans s not_brace i j3 (S j3)).
    + exact (span_trans _ _ _ _ _ (span_trans _ _ _ _ _ Hs1 Hs2) Hs3).
    + intros y Hy Hy'. assert (y = j3) as -> by lia.
      exists a. split; [exact Ha|now apply move_char_not_brace].
  - unfold commentOpt, Plus. cbn [seq chars_in]. repeat split; intros; exact Logic.I.
  - unfold commentOpt, Plus. cbn [seq no_group]. repeat split; lia.
Qed.

Lemma clockRegex_brace (s : list ascii) (i : nat) (res : mresult) :
  run s clockRegex i [] (fun j c => Some (j, c)) = Some res ->
  s !! i = Some "{"%char.
Proof.
  unfold clockRegex. cbn [seq]. rewrite run_Seq. intros H.
  apply run_Chr in H as (a & Ha & Hpa & _).
  unfold lit in Hpa. apply Ascii.eqb_eq in Hpa. now subst a.
Qed.

Lemma search_run (s : list ascii) (r : re) (fuel start : nat) (m : rmatch) :
  search s r fuel start = Some m ->
  start <= index m
  /\ run s r (index m) [] (fun j c => Some (j, c)) = Some (mend m, groups m).
Proof.
  revert start. induction fuel as [|fuel IH]; intros start H; cbn [search] in H;
    [discriminate|].
  destruct (run s r start [] _) as [[j c]|] eqn:Hrun.
  - injection H as <-. cbn [index mend groups]. split; [lia|exact Hrun].
  - apply IH in H as [Hle H]. split; [lia|exact H].
Qed.

Lemma matchAll_from_run (s : list ascii) (r : re) (fuel lastIndex : nat)
    (m : rmatch) :
  m ∈ matchAll_from s r fuel lastIndex ->
  run s r (index m) [] (fun j c => Some (j, c)) = Some (mend m, groups m).
Proof.
  revert lastIndex. induction fuel as [|fuel IH]; intros lastIndex Hin;
    cbn [matchAll_from] in Hin; [inversion Hin|].
  destruct (exec s r lastIndex) as [m0|] eqn:Hexec; [|inversion Hin].
  apply elem_of_cons in Hin as [->|Hin].
  - unfold exec in Hexec. exact (proj2 (search_run s r _ _ m0 Hexec)).
  - exact (IH _ Hin).
Qed.

(** *** Where [indexOf] finds a move *)

Lemma starts_with_nil (s : list ascii) : starts_with [] s = true.
Proof. destruct s; reflexivity. Qed.

Lemma starts_with_empty (p : list ascii) :
  starts_with p [] = true -> p = [].
Proof. destruct p; [reflexivity|discriminate]. Qed.

Lemma starts_with_take (l : list ascii) :
  forall n m, n <= m -> starts_with (take n l) (take m l) = true.
Proof.
  induction l as [|a l IH]; intros n m Hnm.
  - rewrite !take_nil. reflexivity.
  - destruct n as [|n]; [apply starts_with_nil|].
    destruct m as [|m]; [lia|].
    cbn [take starts_with]. rewrite Ascii.eqb_refl. cbn [andb].
    apply IH. lia.
Qed.

Lemma indexOf_from_bounds (p s : list ascii) :
  p <> [] ->
  forall i,
    indexOf_from p s i = (-1)%Z
    \/ (Z.of_nat i <= indexOf_from p s i < Z.of_nat (i + length s))%Z.
Proof.
  intros Hp. induction s as [|a s IH]; intros i; cbn [indexOf_from].
  - destruct (starts_with p []) eqn:Hs; [|now left].
    apply starts_with_empty in Hs. contradiction.
  - destruct (starts_with p (a :: s)).
    + right. cbn [length]. lia.
    + destruct (IH (S i)) as [->|H]; [now left|right]. cbn [length]. lia.
Qed.

Lemma indexOf_from_occurs (p : list ascii) :
  forall k s i,
    starts_with p (drop k s) = true ->
    (Z.of_nat i <= indexOf_from p s i <= Z.of_nat (i + k))%Z.
Proof.
  induction k as [|k IH]; intros s i Hs.
  - rewrite drop_0 in Hs. destruct s; cbn [indexOf_from]; rewrite Hs; lia.
  - destruct s as [|a s].
    + cbn [drop] in Hs. cbn [indexOf_from]. rewrite Hs. lia.
    + cbn [drop] in Hs. cbn [indexOf_from].
      destruct (starts_with p (a :: s)); [lia|].
      specialize (IH s (S i) Hs). lia.
Qed.

Lemma whole_length (text : list ascii) (m : rmatch) :
  length (whole text m) <= mend m - index m.
Proof. unfold whole, slice. rewrite length_take. lia. Qed.

(** A move that is not empty lies inside the match or, if it is not found,
    one place before it. *)
Lemma movePos_bounds (text : list ascii) (m : rmatch) (mv : list ascii) :
  mv <> [] -> index m < mend m ->
  (Z.of_nat (index m) - 1 <= movePos text m mv <= Z.of_nat (mend m) - 1)%Z.
Proof.
  intros Hmv Hlt. unfold movePos, indexOf.
  pose proof (whole_length text m) as Hlen.
  destruct (indexOf_from_bounds mv (whole text m) Hmv 0) as [->|H]; lia.
Qed.

(** The first group is found at or before the place where it was matched. *)
Lemma movePos_group (text : list ascii) (m : rmatch) (a1 b1 : nat) :
  index m <= a1 -> a1 <= b1 -> b1 <= mend m ->
  (Z.of_nat (index m) <= movePos text m (slice text a1 b1) <= Z.of_nat a1)%Z.
Proof.
  intros H1 H2 H3. unfold movePos, indexOf.
  pose proof (indexOf_from_occurs (slice text a1 b1) (a1 - index m)
                (whole text m) 0) as Hocc.
  assert (Hs : starts_with (slice text a1 b1)
                 (drop (a1 - index m) (whole text m)) = true).
  { unfold whole, slice.
    replace (mend m - index m) with ((a1 - index m) + (mend m - a1)) by lia.
    rewrite <- take_drop_commute, drop_drop.
    replace (index m + (a1 - index m)) with a1 by lia.
    apply starts_with_take. lia. }
  specialize (Hocc Hs). lia.
Qed.

(** *** The loop never leaves a hole *)

Lemma truthy_group_Some (g : option (list ascii)) (l : list ascii) :
  truthy_group g = Some l -> g = Some l /\ l <> [].
Proof.
  destruct g as [[|a l']|]; cbn; try discriminate.
  intros [= <-]. split; [reflexivity|discriminate].
Qed.

Lemma attach_movePos (text : list ascii) (clockMatches : list rmatch)
    (m : rmatch) (mv : list ascii) (side : string)
    (arr : jsarray ClockInfo) (mi ci : nat) :
  (attach text clockMatches m mv side (arr, mi, ci) = (arr, S mi, ci)
   /\ forall cm, clockMatches !! ci = Some cm ->
                 (Z.of_nat (index cm) <= movePos text m mv)%Z)
  \/ (exists rec,
        attach text clockMatches m mv side (arr, mi, ci)
        = (array_set arr mi rec, S mi, S ci)).
Proof.
  unfold attach. fold (movePos text m mv).
  destruct (clockMatches !! ci) as [cm|] eqn:Hcm.
  - destruct (movePos text m mv <? Z.of_nat (index cm))%Z eqn:Hguard.
    + right. rewrite (first_after_head clockMatches ci _ cm Hcm Hguard). eauto.
    + left. split; [reflexivity|]. intros cm' [= <-].
      apply Z.ltb_ge in Hguard. exact Hguard.
  - left. split; [reflexivity|]. intros cm' Hc. discriminate.
Qed.

Lemma attach_skip (text : list ascii) (clockMatches : list rmatch)
    (m : rmatch) (mv : list ascii) (side : string)
    (arr : jsarray ClockInfo) (mi ci : nat) :
  (forall cm, clockMatches !! ci = Some cm ->
              (Z.of_nat (index cm) <= movePos text m mv)%Z) ->
  attach text clockMatches m mv side (arr, mi, ci) = (arr, S mi, ci).
Proof.
  intros Hskip. unfold attach. fold (movePos text m mv).
  destruct (clockMatches !! ci) as [cm|] eqn:Hcm; [|reflexivity].
  specialize (Hskip cm eq_refl).
  replace (movePos text m mv <? Z.of_nat (index cm))%Z with false
    by (symmetry; apply Z.ltb_ge; exact Hskip).
  reflexivity.
Qed.

Lemma no_holes_set (arr : jsarray ClockInfo) (rec : ClockInfo) :
  no_holes arr ->
  no_holes (array_set arr (length arr) rec)
  /\ length (array_set arr (length arr) rec) = S (length arr).
Proof.
  intros Hn. rewrite (array_set_snoc arr (length arr) rec) by lia.
  rewrite Nat.sub_diag. cbn [replicate app].
  split.
  - apply Forall_app. split; [exact Hn|]. repeat constructor. eauto.
  - rewrite length_app. simpl. lia.
Qed.

(** One round of the loop, for the match [m] found from [lastIndex]. *)
Lemma settled_round (text : list ascii) (clockMatches : list rmatch)
    (m : rmatch) (lastIndex : nat) (acc : jsarray ClockInfo * nat * nat) :
  (forall cm, cm ∈ clockMatches -> text !! index cm = Some "{"%char) ->
  exec text moveRegex lastIndex = Some m ->
  settled clockMatches lastIndex acc ->
  settled clockMatches (mend m)
    (match truthy_group (group text m 2) with
     | Some blackMove =>
         attach text clockMatches m blackMove "black"
           (match truthy_group (group text m 1) with
            | Some whiteMove => attach text clockMatches m whiteMove "white" acc
            | None => acc
            end)
     | None =>
         match truthy_group (group text m 1) with
         | Some whiteMove => attach text clockMatches m whiteMove "white" acc
         | None => acc
         end
     end).
Proof.
  intros Hbrace Hexec Hacc.
  unfold exec in Hexec.
  destruct (search_run text moveRegex _ _ m Hexec) as [Hstart Hrun].
  destruct (moveRegex_shape text (index m) _ Hrun)
    as (a1 & b1 & Hcap & Ha1 & Hab & Hb1 & Hspan).
  cbn [fst snd] in Hcap, Hb1.
  assert (Hlt : index m < mend m) by lia.
  assert (Hg1 : group text m 1 = Some (slice text a1 b1))
    by (unfold group; now rewrite Hcap).
  (* after the white branch *)
  set (acc1 := match truthy_group (group text m 1) with
               | Some whiteMove => attach text clockMatches m whiteMove "white" acc
               | None => acc
               end).
  assert (Hmid :
    let '(arr1, mi1, ci1) := acc1 in
    no_holes arr1
    /\ (length arr1 = mi1
        \/ forall cm, clockMatches !! ci1 = Some cm ->
             index cm < mend m
             /\ forall mv, mv <> [] ->
                  (Z.of_nat (index cm) <= movePos text m mv)%Z)).
  { subst acc1. destruct acc as [[arr mi] ci].
    destruct Hacc as [Hnh [Hdense|Hblocked]].
    - (* every move so far has its record *)
      destruct (truthy_group (group text m 1)) as [white|] eqn:Hw;
        [|split; [exact Hnh|now left]].
      apply truthy_group_Some in Hw as [Hw Hne].
      rewrite Hg1 in Hw. injection Hw as <-.
      destruct (attach_movePos text clockMatches m (slice text a1 b1) "white"
                  arr mi ci) as [[-> Hskip]|[rec ->]].
      + split; [exact Hnh|]. right. intros cm Hcm.
        pose proof (movePos_group text m a1 b1 Ha1 ltac:(lia) Hb1) as Hpw.
        specialize (Hskip cm Hcm).
        split; [lia|]. intros mv Hmv.
        destruct (Z.le_gt_cases (Z.of_nat (index cm)) (movePos text m mv))
          as [Hle|Hgt]; [exact Hle|].
        exfalso.
        pose proof (movePos_bounds text m mv Hmv Hlt) as Hpb.
        destruct (Hspan (index cm) ltac:(lia) ltac:(lia)) as (a & Ha & Hnb).
        rewrite (Hbrace cm (list_elem_of_lookup_2 _ _ _ Hcm)) in Ha.
        injection Ha as <-. now apply Hnb.
      + subst mi. destruct (no_holes_set arr rec Hnh) as [Hn' Hl'].
        split; [exact Hn'|]. left. exact Hl'.
    - (* the next annotation lies before this match *)
      assert (Hall : forall cm, clockMatches !! ci = Some cm ->
                index cm < mend m
                /\ forall mv, mv <> [] ->
                     (Z.of_nat (index cm) <= movePos text m mv)%Z).
      { intros cm Hcm. specialize (Hblocked cm Hcm). split; [lia|].
        intros mv Hmv. pose proof (movePos_bounds text m mv Hmv Hlt). lia. }
      destruct (truthy_group (group text m 1)) as [white|] eqn:Hw.
      + apply truthy_group_Some in Hw as [_ Hne].
        rewrite (attach_skip text clockMatches m white "white" arr mi ci).
        * split; [exact Hnh|]. right. exact Hall.
        * intros cm Hcm. exact (proj2 (Hall cm Hcm) white Hne).
      + split; [exact Hnh|]. right. exact Hall. }
  clearbody acc1. destruct acc1 as [[arr1 mi1] ci1].
  destruct Hmid as [Hnh [Hdense|Hblocked]].
  - destruct (truthy_group (group text m 2)) as [black|] eqn:Hb;
      [|split; [exact Hnh|now left]].
    apply truthy_group_Some in Hb as [_ Hne].
    destruct (attach_movePos text clockMatches m black "black" arr1 mi1 ci1)
      as [[-> Hskip]|[rec ->]].
    + split; [exact Hnh|]. right. intros cm Hcm. specialize (Hskip cm Hcm).
      pose proof (movePos_bounds text m black Hne Hlt). lia.
    + subst mi1. destruct (no_holes_set arr1 rec Hnh) as [Hn' Hl'].
      split; [exact Hn'|]. left. exact Hl'.
  - destruct (truthy_group (group text m 2)) as [black|] eqn:Hb.
    + apply truthy_group_Some in Hb as [_ Hne].
      rewrite (attach_skip text clockMatches m black "black" arr1 mi1 ci1).
      * split; [exact Hnh|]. right. intros cm Hcm.
        exact (proj1 (Hblocked cm Hcm)).
      * intros cm Hcm. exact (proj2 (Hblocked cm Hcm) black Hne).
    + split; [exact Hnh|]. right. intros cm Hcm.
      exact (proj1 (Hblocked cm Hcm)).
Qed.

Lemma move_loop_settled (text : list ascii) (clockMatches : list rmatch) :
  (forall cm, cm ∈ clockMatches -> text !! index cm = Some "{"%char) ->
  forall fuel lastIndex acc,
    length text <= lastIndex + fuel ->
    settled clockMatches lastIndex acc ->
    exists arr,
      move_loop text clockMatches fuel lastIndex acc = Some arr
      /\ no_holes arr.
Proof.
  intros Hbrace.
  induction fuel as [|fuel IH]; intros lastIndex acc Hfuel Hacc;
    cbn [move_loop].
  - destruct (exec text moveRegex lastIndex) as [m|] eqn:Hm.
    + apply search_moveRegex in Hm. lia.
    + destruct acc as [[arr mi] ci]. exists arr. split; [reflexivity|].
      exact (proj1 Hacc).
  - destruct (exec text moveRegex lastIndex) as [m|] eqn:Hm.
    + pose proof (settled_round text clockMatches m lastIndex acc Hbrace Hm Hacc)
        as Hround.
      apply search_moveRegex in Hm.
      destruct (Nat.leb_spec (mend m) lastIndex) as [?|_]; [lia|].
      apply IH; [lia|exact Hround].
    + destruct acc as [[arr mi] ci]. exists arr. split; [reflexivity|].
      exact (proj1 Hacc).
Qed.

Lemma extract_no_holes (pgn : string) :
  exists arr, extractClockAnnotations pgn = Some arr /\ no_holes arr.
Proof.
  unfold extractClockAnnotations. cbv zeta.
  destruct (Nat.eqb _ 0).
  - exists []. split; [reflexivity|constructor].
  - apply move_loop_settled; [|lia|].
    + intros cm Hcm. unfold matchAll in Hcm.
      apply matchAll_from_run in Hcm.
      exact (clockRegex_brace _ _ _ Hcm).
    + split; [constructor|now left].
Qed.

Lemma no_holes_records {A : Type} (arr : jsarray A) :
  no_holes arr -> arr = Some <$> records arr.
Proof.
  induction 1 as [|x arr [y ->] _ IH]; [reflexivity|].
  cbn. f_equal. exact IH.
Qed.

(** X21: for every string, the loops of [extractClockAnnotations] end and
    the method returns an array without holes, of some length [n]: for each
    [i < n] the record at position [i] has [moveIndex = i], the colour
    ['white'] or ['black'], and as its clock the trimmed value of the
    annotation with index [i] of the move text.  So no annotation is used
    twice and none is passed over, and the moves from index [n] on have no
    record. *)
Theorem extractClockAnnotations_in_order (pgn : string) :
  exists arr,
    extractClockAnnotations pgn = Some arr
    /\ length arr <= length (clockMatchesOf pgn)
    /\ forall i, i < length arr ->
         exists c cm,
           arr !! i = Some (Some c)
           /\ clockMatchesOf pgn !! i = Some cm
           /\ ClockInfo.moveIndex c = i
           /\ (ClockInfo.color c = "white" \/ ClockInfo.color c = "black")
           /\ ClockInfo.clock c = clock_value (moveTextOf pgn) cm.
Proof.
  destruct (extract_no_holes pgn) as (arr & Hrun & Hnh).
  exists arr. split; [exact Hrun|].
  assert (Hord : exists n,
            n <= length (clockMatchesOf pgn)
            /\ ClockInfo.clock <$> records arr
               = take n (clock_value (moveTextOf pgn) <$> clockMatchesOf pgn)
            /\ forall i c, arr !! i = Some (Some c) ->
                 ClockInfo.moveIndex c = i
                 /\ (ClockInfo.color c = "white" \/ ClockInfo.color c = "black")).
  { revert Hrun. unfold extractClockAnnotations. cbv zeta.
    fold (clockMatchesOf pgn).
    destruct (Nat.eqb _ 0).
    - intros [= <-]. exists 0. split; [lia|]. split; [reflexivity|].
      intros i c Hi. discriminate.
    - intros Hrun.
      destruct (move_loop_in_order (moveTextOf pgn) (clockMatchesOf pgn)
                  (length (moveTextOf pgn)) 0 ([], 0, 0) ltac:(lia))
        as (arr' & mi & ci & Hrun' & _ & Hci & Hrec & Hpos).
      { split; [simpl; lia|]. split; [lia|]. split; [reflexivity|].
        intros i c Hi. discriminate. }
      rewrite Hrun in Hrun'. injection Hrun' as <-.
      exists ci. auto. }
  destruct Hord as (n & Hn & Hrec & Hpos).
  pose proof (no_holes_records arr Hnh) as Harr.
  remember (records arr) as rs eqn:Hrs. clear Hrs Hrun Hnh. subst arr.
  assert (Hlen : length rs = n).
  { rewrite <- (length_fmap ClockInfo.clock), Hrec, length_take, length_fmap. lia. }
  rewrite length_fmap.
  split; [lia|].
  intros i Hi.
  destruct (rs !! i) as [c|] eqn:Hc; [|apply lookup_ge_None in Hc; lia].
  assert (Hai : (Some <$> rs) !! i = Some (Some c))
    by (rewrite list_lookup_fmap, Hc; reflexivity).
  destruct (clockMatchesOf pgn !! i) as [cm|] eqn:Hcm;
    [|apply lookup_ge_None in Hcm; lia].
  exists c, cm. split; [exact Hai|]. split; [reflexivity|].
  destruct (Hpos i c Hai) as [Hmi Hcol].
  split; [exact Hmi|]. split; [exact Hcol|].
  assert (Hval : (ClockInfo.clock <$> rs) !! i = Some (ClockInfo.clock c))
    by (rewrite list_lookup_fmap, Hc; reflexivity).
  rewrite Hrec, lookup_take_lt, list_lookup_fmap, Hcm in Hval by lia.
  change (Some (clock_value (moveTextOf pgn) cm) = Some (ClockInfo.clock c))
    in Hval.
  congruence.
Qed.

(** *** [buildFromPGN] returns, with or without clocks in the text *)

Lemma find_clock_total (arr : jsarray ClockInfo) (k : nat) :
  no_holes arr -> is_Some (find_clock arr k).
Proof.
  induction 1 as [|x arr [c ->] _ IH]; cbn [find_clock]; [eauto|].
  destruct (Nat.eqb _ k); [eauto|exact IH].
Qed.

Lemma build_loop_returns_any (E : Engine) (clockData : jsarray ClockInfo)
    (history : list Move) :
  no_holes clockData ->
  forall index ch n w t,
    is_Some (replay_lans E (m_lan <$> history) ch) ->
    exists t', build_loop E clockData history index ch n w t = Returned t' tt.
Proof.
  intros Hnh.
  induction history as [|mv rest IH]; intros index ch n w t Hplay;
    cbn [build_loop].
  - eauto.
  - destruct (find_clock_total clockData index Hnh) as [info ->].
    cbn [fmap list_fmap replay_lans] in Hplay.
    destruct (chess_move_lan E (m_lan mv) ch) as [ch'|];
      [|destruct Hplay; discriminate].
    apply IH. exact Hplay.
Qed.

(** X27: whatever the text, with or without clock annotations:
    when the engine reads the notation and plays every move of the history
    it gives, from the position it was reset to, [buildFromPGN] returns that
    history.  The look-up of the clock of a move never throws, since the
    array of clocks has no holes. *)
Theorem buildFromPGN_returns (E : Engine) (t : MoveTree) (pgn : string)
    (ch : option (chess E)) (loaded : chess E) :
  chess_loadPgn E pgn (default (new_Chess E) ch) = Some loaded ->
  is_Some (replay_lans E (m_lan <$> chess_history E loaded)
             (chess_reset E loaded)) ->
  exists t', buildFromPGN E pgn ch t = Returned t' (chess_history E loaded).
Proof.
  intros Hload Hplay. unfold buildFromPGN. cbv zeta.
  destruct (extract_no_holes pgn) as (cd & -> & Hnh). rewrite Hload.
  match goal with
  | |- context [build_loop E cd ?h 0 ?c 1 true ?t1] =>
      destruct (build_loop_returns_any E cd h Hnh 0 c 1 true t1 Hplay)
        as [t2 ->]
  end.
  eauto.
Qed.

Lemma buildFromPGN_returns_witness :
  exists t',
    buildFromPGN Toy.engine "1. e2e4 {[%clk 0:05:00]} e7e5" None game3
    = Returned t'
        (chess_history Toy.engine
           (default Toy.start
              (Toy.loadPgn "1. e2e4 {[%clk 0:05:00]} e7e5" Toy.start))).
Proof.
  apply (buildFromPGN_returns Toy.engine game3
           "1. e2e4 {[%clk 0:05:00]} e7e5" None).
  - vm_compute. reflexivity.
  - vm_compute. eexists. reflexivity.
Defined.

(* ===================================================================== *)
(** ** The cursor                                                         *)
(* ===================================================================== *)

(** X28: with moves in standard notation, the cursor is always on a node of
    the index: the index finds [currentNode] under its id, so
    [navigateTo(currentNode.id)] returns [currentNode] itself.  This holds
    also after a call of [buildFromPGN] or [addMove] that has thrown. *)
Theorem cursor_indexed (E : Engine) (t : MoveTree) :
  reachable E san_ok t ->
  nodeMap t !! id (deref t (currentNode t)) = Some (currentNode t)
  /\ snd (navigateTo (id (deref t (currentNode t))) t) = Some (currentNode t)
  /\ currentNode (fst (navigateTo (id (deref t (currentNode t))) t))
     = currentNode t.
Proof.
  intros Hreach.
  destruct (reachable_sound E t Hreach) as (_ & _ & Hix).
  pose proof (ix_cursor t Hix) as Hc.
  split; [exact Hc|]. unfold navigateTo. rewrite Hc. split; reflexivity.
Qed.

Lemma cursor_indexed_witness :
  nodeMap game3_var2 !! id (deref game3_var2 (currentNode game3_var2))
  = Some (currentNode game3_var2)
  /\ snd (navigateTo (id (deref game3_var2 (currentNode game3_var2))) game3_var2)
     = Some (currentNode game3_var2)
  /\ currentNode (fst (navigateTo (id (deref game3_var2 (currentNode game3_var2)))
                         game3_var2))
     = currentNode game3_var2.
Proof.
  apply (cursor_indexed Toy.engine game3_var2).
  exact reachable_game3_var2.
Defined.

(** X29: [addMove] does not move the cursor, however it ends: [currentNode]
    and [currentIndex] are as before.  It allocates at most one node object
    and raises [idCounter] by at most one; when it allocates none, the
    mainline and the index are as before. *)
Theorem addMove_keeps_cursor (E : Engine) (t t' : MoveTree) (mv : Move)
    (p : string) :
  outcome_tree (addMove E mv p t) = Some t' ->
  currentNode t' = currentNode t /\ currentIndex t' = currentIndex t
  /\ idCounter t <= idCounter t' <= S (idCounter t)
  /\ length (heap t) <= length (heap t') <= S (length (heap t))
  /\ (length (heap t') = length (heap t) ->
      heap t' = heap t /\ mainline t' = mainline t /\ nodeMap t' = nodeMap t
      /\ final t' = final t).
Proof.
  intros Ho.
  destruct (addMove_result E mv p t)
    as [Hp|pr r Hp Hex|pr Hp Hex|pr Hp Hex
        |pr node n w o Hp Hex Hm Hi Hkids Hmv Hmain Hid Ho'
        |pr node n w o Hp Hex Hm Hkids Hmv Hmain Hid Ho'];
    simpl in Ho.
  - injection Ho as <-. repeat split; auto; lia.
  - injection Ho as <-. repeat split; auto; lia.
  - injection Ho as <-. repeat split; auto; lia.
  - injection Ho as <-. cbn. repeat split; auto; lia.
  - assert (t' = push_mainline (with_idCounter t (S (idCounter t))) node) as ->.
    { destruct Ho' as [->| ->]; simpl in Ho; congruence. }
    rewrite length_heap_push. cbn.
    split; [reflexivity|]. split; [reflexivity|]. split; [lia|]. split; [lia|].
    intros Hlen. lia.
  - assert (t' = push_variation (with_idCounter t (S (idCounter t))) pr node) as ->.
    { destruct Ho' as [->| ->]; simpl in Ho; congruence. }
    rewrite length_heap_pushvar.
    cbn [currentNode currentIndex idCounter push_variation with_idCounter heap].
    split; [reflexivity|]. split; [reflexivity|]. split; [lia|]. split; [lia|].
    intros Hlen. lia.
Qed.

Lemma addMove_keeps_cursor_witness :
  currentNode game3_var = currentNode game3
  /\ currentIndex game3_var = currentIndex game3
  /\ idCounter game3 <= idCounter game3_var <= S (idCounter game3)
  /\ length (heap game3) <= length (heap game3_var) <= S (length (heap game3))
  /\ (length (heap game3_var) = length (heap game3) ->
      heap game3_var = heap game3 /\ mainline game3_var = mainline game3
      /\ nodeMap game3_var = nodeMap game3 /\ final game3_var = final game3).
Proof.
  apply (addMove_keeps_cursor Toy.engine game3 game3_var
           (Toy.mk_move "b1c3" "w") "move_1_b_e7e5").
  vm_compute. reflexivity.
Defined.
